(** * pbnturtle: the paint-by-numbers pipeline, embedded and verified

    A shallow embedding of the Go sources (kdtree.go, voronoi sampling,
    wasm/paintbynumbers.go, wasm/wasm_helpers.go, wasm/main.go, textdraw.go)
    together with the properties the specification states about them.

    Conventions.
    - Go's [int] is the 64-bit two's-complement integer of the amd64 and
      js/wasm targets the repository builds for: an [int] that carries data
      (a coordinate, a seed index, a request parameter) is a [Z], and
      arithmetic on it goes through [wrap64].  Slice lengths, slice indices,
      loop counters and recursion depths are bounded by the size of a slice
      held in memory and are natural numbers.
    - A [float64] that holds an integer (all squared distances do) is the [Z]
      it denotes; every float operation rounds its exact result with
      [float64], IEEE-754 round-to-nearest-even on 53 significant bits.
    - The sampler's weights are fractions; there the float type is a
      parameter ([FloatOps]), with IEEE-754 binary64 as its instance.
    - A call returns an [outcome]: [Done] with its result, [Panic] for a
      panic of the Go runtime (index out of range, division by zero,
      [make] with a negative length), [OutOfFuel] when the model cut off a
      loop that has no bound in the source.
    - A [*image.RGBA] or a slice passed by value is the value it holds;
      where the source shares a backing array and writes to it
      ([NewKDTree]), module [InPlace] keeps the arrays in a memory. *)

From Stdlib Require Import ZArith Lia List Ascii String Bool.
From Stdlib Require Floats Uint63.
From stdpp Require Import base option list sorting gmap.
Import ListNotations.
Local Open Scope Z_scope.

(** ** Machine numbers *)

Module Machine.

(** Go [int]: 64 bits, wrap-around on overflow. *)
Definition wrap64 (z : Z) : Z := (z + 2 ^ 63) mod 2 ^ 64 - 2 ^ 63.

(** Go [uint64], [uint8]. *)
Definition wrapU64 (z : Z) : Z := z mod 2 ^ 64.
Definition uint8 (z : Z) : Z := z mod 256.

(** [float64 v]: the float64 nearest to the integer [v] (ties to even).
    Integers of magnitude below 2^53 are floats; above, the 53 leading bits
    are kept.  The values this program builds stay below 2^128, far from the
    overflow threshold, so infinities never arise. *)
Definition float64 (v : Z) : Z :=
  let m := Z.abs v in
  if m <? 2 ^ 53 then v
  else
    let e := Z.log2 m - 52 in
    let q := m / 2 ^ e in
    let r := m mod 2 ^ e in
    let half := 2 ^ (e - 1) in
    let q' := if (half <? r) || ((r =? half) && Z.odd q) then q + 1 else q in
    Z.sgn v * (q' * 2 ^ e).

(** math.MaxFloat64 = (2^53 - 1) * 2^971, an integer. *)
Definition MaxFloat64 : Z := (2 ^ 53 - 1) * 2 ^ 971.

(** Float operations on integer-valued operands. *)
Definition fadd (a b : Z) : Z := float64 (a + b).
Definition fsub (a b : Z) : Z := float64 (a - b).
Definition fmul (a b : Z) : Z := float64 (a * b).

End Machine.

Export Machine.

(** ** Colors and seeds *)

(** A [color.Color] interface value.  [RGBA8] is the struct
    [color.RGBA{R, G, B, A}]; [Other] stands for a value of any other
    implementing type and records what its [RGBA()] method returns. *)
Inductive Color : Type :=
  | RGBA8 (R G B A : Z)
  | Other (r g b a : Z).

(** [c.RGBA()]: for [color.RGBA], each 8-bit channel [v] yields [v | v<<8]. *)
Definition RGBA (c : Color) : Z * Z * Z * Z :=
  match c with
  | RGBA8 R G B A => (R * 257, G * 257, B * 257, A * 257)
  | Other r g b a => (r, g, b, a)
  end.

#[global] Instance Color_eq_dec : EqDecision Color.
Proof. solve_decision. Defined.

(** voronoi.go: [type Point struct { X, Y int; Color color.Color; Index int }] *)
Record Point : Type := mkPoint {
  X : Z;
  Y : Z;
  PColor : Color;
  Index : Z
}.

#[global] Instance Point_eq_dec : EqDecision Point.
Proof. solve_decision. Defined.

(** ** kdtree.go *)

Module KD.

(** [kdNode]; a nil pointer is [Nil]. *)
Inductive kdNode : Type :=
  | Nil
  | Node (point : Point) (left right : kdNode) (splitAxis : Z).

(** [KDTree] holds the root pointer. *)
Record KDTree : Type := mkTree { root : kdNode }.

(** The coordinate [sortPointsByAxis] and [findNearestHelper] read:
    [X] when the axis is 0, [Y] otherwise. *)
Definition coord (axis : Z) (p : Point) : Z :=
  if axis =? 0 then X p else Y p.

(** The inner loop of [sortPointsByAxis]: [key] walks down from the end of
    the sorted prefix, shifting every larger element one slot up, and stops
    at the first element with [pointVal <= keyVal].  The prefix is held
    reversed (last slot first), so the walk is a recursion on the list. *)
Fixpoint shiftDown (axis : Z) (key : Point) (rprefix : list Point) : list Point :=
  match rprefix with
  | [] => [key]
  | p :: rest =>
      if coord axis p <=? coord axis key then key :: p :: rest
      else p :: shiftDown axis key rest
  end.

(** The outer loop, [i = 1 .. len-1]; returns the prefix reversed. *)
Fixpoint sortLoop (axis : Z) (rprefix : list Point) (todo : list Point) : list Point :=
  match todo with
  | [] => rprefix
  | key :: todo' => sortLoop axis (shiftDown axis key rprefix) todo'
  end.

(** [sortPointsByAxis]: the slice contents after the in-place insertion sort. *)
Definition sortPointsByAxis (points : list Point) (axis : Z) : list Point :=
  match points with
  | [] => []
  | p0 :: todo => rev (sortLoop axis [p0] todo)
  end.

(** [buildKDTree]; the recursion is on slices that shrink, [fuel] bounds its
    depth and [buildKDTree] starts it with the slice length. *)
Fixpoint buildKDTree_rec (fuel : nat) (points : list Point) (depth : nat) : kdNode :=
  match fuel with
  | O => Nil
  | S fuel' =>
      match points with
      | [] => Nil
      | [p] => Node p Nil Nil (Z.of_nat (depth mod 2))
      | _ =>
          let axis := Z.of_nat (depth mod 2) in
          let sorted := sortPointsByAxis points axis in
          let median := (length sorted / 2)%nat in
          match sorted !! median with
          | Some p =>
              Node p
                (buildKDTree_rec fuel' (take median sorted) (S depth))
                (buildKDTree_rec fuel' (drop (S median) sorted) (S depth))
                axis
          | None => Nil
          end
      end
  end.

Definition buildKDTree (points : list Point) (depth : nat) : kdNode :=
  buildKDTree_rec (length points) points depth.

(** [NewKDTree]: an empty slice gives the tree with a nil root; otherwise the
    tree is built from a copy of the slice (the copy has the same contents). *)
Definition NewKDTree (points : list Point) : KDTree :=
  match points with
  | [] => mkTree Nil
  | _ => mkTree (buildKDTree points 0%nat)
  end.

(** [distanceSquared]: the differences are taken in [int], then converted.
    The products and the sum are rounded one by one; a compiler that fuses
    [dx*dx + dy*dy] rounds once, which gives the same float whenever the
    unfused operations are exact. *)
Definition distanceSquared (x1 y1 x2 y2 : Z) : Z :=
  let dx := float64 (wrap64 (x1 - x2)) in
  let dy := float64 (wrap64 (y1 - y2)) in
  fadd (fmul dx dx) (fmul dy dy).

(** [findNearestHelper]; the pair is [( *bestNode).point, *bestDist )]. *)
Fixpoint findNearestHelper (node : kdNode) (x y : Z) (best : Point * Z) : Point * Z :=
  match node with
  | Nil => best
  | Node p l r axis =>
      let dist := distanceSquared x y (X p) (Y p) in
      let best := if dist <? best.2 then (p, dist) else best in
      let diff := if axis =? 0 then wrap64 (x - X p) else wrap64 (y - Y p) in
      let best := if diff <? 0 then findNearestHelper l x y best
                  else findNearestHelper r x y best in
      if float64 (wrap64 (diff * diff)) <? best.2 then
        if diff <? 0 then findNearestHelper r x y best
        else findNearestHelper l x y best
      else best
  end.

(** [FindNearest] *)
Definition FindNearest (tree : KDTree) (x y : Z) : Z :=
  match root tree with
  | Nil => 0
  | Node p _ _ _ =>
      let bestDist := distanceSquared x y (X p) (Y p) in
      Index (findNearestHelper (root tree) x y (p, bestDist)).1
  end.

(** The seeds stored in a tree. *)
Fixpoint elems (t : kdNode) : list Point :=
  match t with
  | Nil => []
  | Node p l r _ => p :: elems l ++ elems r
  end.

(** The structural invariant: at every node the left subtree lies at or
    below the node on the node's axis, the right subtree at or above, and
    the axis is 0 at even depth and 1 at odd depth. *)
Fixpoint kd_inv (depth : nat) (t : kdNode) : Prop :=
  match t with
  | Nil => True
  | Node p l r axis =>
      axis = Z.of_nat (depth mod 2)
      ∧ Forall (λ q, coord axis q <= coord axis p) (elems l)
      ∧ Forall (λ q, coord axis p <= coord axis q) (elems r)
      ∧ kd_inv (S depth) l ∧ kd_inv (S depth) r
  end.

(** Ascending order on one axis, and its mirror for the reversed prefix that
    [sortLoop] maintains. *)
Definition axis_le (axis : Z) (p q : Point) : Prop := coord axis p <= coord axis q.
Definition axis_ge (axis : Z) (p q : Point) : Prop := coord axis q <= coord axis p.

End KD.

(** ** voronoi.go: the brute-force nearest seed *)

Module Voronoi.

(** The loop of [findNearestPoint]: [i] is the loop index, [minDist] and
    [nearest] the running minimum and its position. *)
Fixpoint findNearestPoint_loop (x y : Z) (points : list Point)
    (i : nat) (minDist : Z) (nearest : nat) : nat :=
  match points with
  | [] => nearest
  | p :: rest =>
      let dx := float64 (wrap64 (x - X p)) in
      let dy := float64 (wrap64 (y - Y p)) in
      let dist := fadd (fmul dx dx) (fmul dy dy) in
      if dist <? minDist then findNearestPoint_loop x y rest (S i) dist i
      else findNearestPoint_loop x y rest (S i) minDist nearest
  end.

(** [findNearestPoint]: the position in [points] of the first seed at the
    least computed distance; 0 for an empty slice. *)
Definition findNearestPoint (x y : Z) (points : list Point) : nat :=
  findNearestPoint_loop x y points 0 MaxFloat64 0.

End Voronoi.

(** ** Geometry used by the statements *)

(** The squared Euclidean distance from the pixel [(x, y)] to a seed. *)
Definition sqdist (x y : Z) (p : Point) : Z := (x - X p) ^ 2 + (y - Y p) ^ 2.

(** Coordinates of magnitude at most 2^25: differences stay below 2^26,
    their squares below 2^52, and a squared distance below 2^53, so neither
    the [int] subtraction wraps nor any [float64] operation rounds. *)
Definition coord_ok (v : Z) : Prop := - 2 ^ 25 <= v <= 2 ^ 25.
Definition seed_ok (p : Point) : Prop := coord_ok (X p) ∧ coord_ok (Y p).

(** The state of the search: the recorded distance is the distance of the
    recorded seed. *)
Definition best_ok (x y : Z) (best : Point * Z) : Prop :=
  best.2 = sqdist x y best.1.

(** ** Outcomes of code that may panic or loop *)

(** [Done a]: the call returns [a].  [Panic]: a run-time panic.  [OutOfFuel]:
    a [for] loop without a bound was cut off by the model. *)
Inductive outcome (A : Type) : Type :=
  | Done (a : A)
  | Panic
  | OutOfFuel.
Arguments Done {A} a.
Arguments Panic {A}.
Arguments OutOfFuel {A}.

Definition obind {A B : Type} (m : outcome A) (f : A -> outcome B) : outcome B :=
  match m with
  | Done a => f a
  | Panic => Panic
  | OutOfFuel => OutOfFuel
  end.

(** An indexing expression [s[i]]. *)
Definition index {A : Type} (s : list A) (i : nat) : outcome A :=
  match s !! i with
  | Some a => Done a
  | None => Panic
  end.

Declare Scope outcome_scope.
Delimit Scope outcome_scope with outcome.
Notation "'let*' x ':=' m 'in' k" := (obind m (λ x, k))
  (at level 10, x pattern, m at level 100, k at level 200) : outcome_scope.

(** A loop whose body may panic. *)
Fixpoint foldM {A S : Type} (f : S -> A -> outcome S) (l : list A) (s : S)
    : outcome S :=
  match l with
  | [] => Done s
  | a :: rest => (let* s' := f s a in foldM f rest s')%outcome
  end.

(** [s[i] = v] for an [int] index. *)
Definition store {A : Type} (s : list A) (i : Z) (v : A) : outcome (list A) :=
  if (0 <=? i) && (i <? Z.of_nat (length s)) then Done (<[Z.to_nat i := v]> s)
  else Panic.

(** [s[i]] for an [int] index. *)
Definition load {A : Type} (s : list A) (i : Z) : outcome A :=
  if 0 <=? i then index s (Z.to_nat i) else Panic.

(** [make([]T, n)] filled with the zero value. *)
Definition make {A : Type} (zero : A) (n : Z) : outcome (list A) :=
  if n <? 0 then Panic else Done (replicate (Z.to_nat n) zero).

(** ** wasm/paintbynumbers.go: palette and quantizer *)

Module Palette.

Local Open Scope outcome_scope.

(** The global [math/rand] source, read as the sequence of its raw draws:
    the [n]-th call consumes [rng n].  [rand.Intn(len)] is the draw reduced
    into [0, len); [rand.Float64()] is [m / 2^53] for the draw reduced into
    [0, 2^53), as math/rand computes it. *)
Definition Intn (rng : nat -> Z) (n : nat) (len : nat) : nat :=
  Z.to_nat (rng n mod Z.of_nat len).
Definition Float64num (rng : nat -> Z) (n : nat) : Z := rng n mod 2 ^ 53.

(** [colorDistanceSquared] *)
Definition colorDistanceSquared (c1 c2 : Color) : Z :=
  let '(r1, g1, b1, _) := RGBA c1 in
  let '(r2, g2, b2, _) := RGBA c2 in
  let dr := fsub (float64 r1) (float64 r2) in
  let dg := fsub (float64 g1) (float64 g2) in
  let db := fsub (float64 b1) (float64 b2) in
  fadd (fadd (fmul dr dr) (fmul dg dg)) (fmul db db).

(** [colorsEqual] *)
Definition colorsEqual (c1 c2 : Color) : bool :=
  let '(r1, g1, b1, a1) := RGBA c1 in
  let '(r2, g2, b2, a2) := RGBA c2 in
  (r1 =? r2) && (g1 =? g2) && (b1 =? b2) && (a1 =? a2).

(** The loop of [findNearestColor]. *)
Fixpoint findNearestColor_loop (c : Color) (palette : list Color)
    (i : nat) (minDist : Z) (nearest : nat) : nat :=
  match palette with
  | [] => nearest
  | p :: rest =>
      let dist := colorDistanceSquared c p in
      if dist <? minDist then findNearestColor_loop c rest (S i) dist i
      else findNearestColor_loop c rest (S i) minDist nearest
  end.

(** [findNearestColor]: alpha plays no part; 0 for an empty palette. *)
Definition findNearestColor (c : Color) (palette : list Color) : nat :=
  findNearestColor_loop c palette 0 MaxFloat64 0.

(** [averageColor]: the sums are [uint64], the quotient is shifted down to
    eight bits; the division panics on an empty slice. *)
Definition averageColor (colors : list Color) : outcome Color :=
  let sum (ch : Color -> Z) :=
    fold_left (λ acc c, wrapU64 (acc + wrapU64 (ch c))) colors 0 in
  let r := sum (λ c, (RGBA c).1.1.1) in
  let g := sum (λ c, (RGBA c).1.1.2) in
  let b := sum (λ c, (RGBA c).1.2) in
  let a := sum (λ c, (RGBA c).2) in
  let n := Z.of_nat (length colors) in
  if n =? 0 then Panic
  else Done (RGBA8 (uint8 (Z.shiftr (r / n) 8)) (uint8 (Z.shiftr (g / n) 8))
                   (uint8 (Z.shiftr (b / n) 8)) (uint8 (Z.shiftr (a / n) 8))).

(** [quantizePoints] *)
Fixpoint quantizePoints (points : list Point) (palette : list Color)
    : outcome (list Point) :=
  match points with
  | [] => Done []
  | p :: rest =>
      let nearest := findNearestColor (PColor p) palette in
      let* c := index palette nearest in
      let* quantized := quantizePoints rest palette in
      Done (mkPoint (X p) (Y p) c (Index p) :: quantized)
  end.

(** k-means++ seeding: the distance from a colour to the nearest centroid. *)
Definition minDistTo (c : Color) (centroids : list Color) : Z :=
  fold_left (λ minDist centroid,
               let dist := colorDistanceSquared c centroid in
               if dist <? minDist then dist else minDist)
            centroids MaxFloat64.

(** The weighted choice.  [target] is [rand.Float64() * totalDist], that is
    [float64 (m * totalDist) / 2^53] for the draw [m]; the test
    [cumulative >= target] is made on the numerators, [target53] being
    [float64 (m * totalDist)].  Returns the chosen position, if any. *)
Fixpoint pickWeighted (target53 : Z) (distances : list Z) (i : nat)
    (cumulative : Z) : option nat :=
  match distances with
  | [] => None
  | dist :: rest =>
      let cumulative := fadd cumulative dist in
      if target53 <=? cumulative * 2 ^ 53 then Some i
      else pickWeighted target53 rest (S i) cumulative
  end.

(** The loop [for len(centroids) < k]; [n] counts the draws made so far. *)
Fixpoint seedCentroids (fuel : nat) (colors : list Color) (k : Z)
    (centroids : list Color) (rng : nat -> Z) (n : nat) : outcome (list Color) :=
  if Z.of_nat (length centroids) <? k then
    match fuel with
    | O => OutOfFuel
    | S fuel' =>
        let distances := map (λ c, minDistTo c centroids) colors in
        let totalDist := fold_left fadd distances 0 in
        let target53 := float64 (Float64num rng n * totalDist) in
        match pickWeighted target53 distances 0 0 with
        | Some i =>
            let* c := index colors i in
            seedCentroids fuel' colors k (centroids ++ [c]) rng (S n)
        | None => seedCentroids fuel' colors k centroids rng (S n)
        end
    end
  else Done centroids.

(** One assignment pass: [clusters[nearest] = append(clusters[nearest], c)]. *)
Fixpoint assignClusters (colors : list Color) (centroids : list Color)
    (clusters : list (list Color)) : outcome (list (list Color)) :=
  match colors with
  | [] => Done clusters
  | c :: rest =>
      let nearest := findNearestColor c centroids in
      let* cluster := index clusters nearest in
      assignClusters rest centroids (<[nearest := cluster ++ [c]]> clusters)
  end.

(** One update pass over [clusters], from position [i]; returns the
    centroids and the [changed] flag. *)
Fixpoint updateCentroids (clusters : list (list Color)) (i : nat)
    (centroids : list Color) (changed : bool) : outcome (list Color * bool) :=
  match clusters with
  | [] => Done (centroids, changed)
  | cluster :: rest =>
      match cluster with
      | [] => updateCentroids rest (S i) centroids changed
      | _ =>
          let* newCentroid := averageColor cluster in
          let* old := index centroids i in
          if negb (colorsEqual old newCentroid)
          then updateCentroids rest (S i) (<[i := newCentroid]> centroids) true
          else updateCentroids rest (S i) centroids changed
      end
  end.

(** The loop [for iter := 0; iter < 15; iter++], [iters] rounds left. *)
Fixpoint iterate (iters : nat) (colors : list Color) (k : Z)
    (centroids : list Color) : outcome (list Color) :=
  match iters with
  | O => Done centroids
  | S iters' =>
      if k <? 0 then Panic
      else
        let* clusters := assignClusters colors centroids (replicate (Z.to_nat k) []) in
        let* (centroids', changed) := updateCentroids clusters 0 centroids false in
        if negb changed then Done centroids'
        else iterate iters' colors k centroids'
  end.

(** [kMeansClustering] *)
Definition kMeansClustering (fuel : nat) (colors : list Color) (k : Z)
    (rng : nat -> Z) : outcome (list Color) :=
  match colors with
  | [] => Done [RGBA8 128 128 128 255]
  | _ =>
      if Z.of_nat (length colors) <=? k then Done colors
      else
        let* first := index colors (Intn rng 0 (length colors)) in
        let* centroids := seedCentroids fuel colors k [first] rng 1 in
        iterate 15 colors k centroids
  end.

(** What the scan of [findNearestColor] returns: the first position at the
    least distance, or 0 when no distance is below [MaxFloat64]. *)
Definition first_min (c : Color) (palette : list Color) (r : nat) : Prop :=
  (∃ p, palette !! r = Some p
        ∧ (∀ j q, palette !! j = Some q ->
                  colorDistanceSquared c p <= colorDistanceSquared c q)
        ∧ (∀ j q, (j < r)%nat -> palette !! j = Some q ->
                  colorDistanceSquared c p < colorDistanceSquared c q))
  ∨ (r = 0%nat ∧ ∀ j q, palette !! j = Some q ->
                        MaxFloat64 <= colorDistanceSquared c q).

End Palette.


(** ** Images *)

(** [image.Rectangle]: [Min] inclusive, [Max] exclusive. *)
Record Rectangle : Type := mkRect {
  MinX : Z;
  MinY : Z;
  MaxX : Z;
  MaxY : Z
}.

Definition Dx (r : Rectangle) : Z := wrap64 (MaxX r - MinX r).
Definition Dy (r : Rectangle) : Z := wrap64 (MaxY r - MinY r).

(** [image.Point{x, y}.In(r)] *)
Definition inRect (r : Rectangle) (x y : Z) : bool :=
  (MinX r <=? x) && (x <? MaxX r) && (MinY r <=? y) && (y <? MaxY r).

#[global] Instance Rectangle_eq_dec : EqDecision Rectangle.
Proof. solve_decision. Defined.

(** [color.RGBAModel.Convert]: what [( *image.RGBA).Set] stores. *)
Definition toRGBA8 (c : Color) : Color :=
  match c with
  | RGBA8 _ _ _ _ => c
  | Other r g b a =>
      RGBA8 (uint8 (Z.shiftr r 8)) (uint8 (Z.shiftr g 8))
            (uint8 (Z.shiftr b 8)) (uint8 (Z.shiftr a 8))
  end.

(** [*image.RGBA]: the bounds and the pixels written so far; a pixel never
    written holds the zero colour, as in a fresh [image.NewRGBA]. *)
Record RGBAImage : Type := mkImage {
  Bounds : Rectangle;
  Pix : gmap (Z * Z) Color
}.

Definition NewRGBA (r : Rectangle) : RGBAImage := mkImage r ∅.

(** [img.At(x, y)] and [img.Set(x, y, c)]; both ignore points outside the
    bounds. *)
Definition At (img : RGBAImage) (x y : Z) : Color :=
  if inRect (Bounds img) x y then default (RGBA8 0 0 0 0) (Pix img !! (x, y))
  else RGBA8 0 0 0 0.

Definition SetPixel (img : RGBAImage) (x y : Z) (c : Color) : RGBAImage :=
  if inRect (Bounds img) x y
  then mkImage (Bounds img) (<[(x, y) := toRGBA8 c]> (Pix img))
  else img.

(** The integers [lo, lo+1, ..., hi-1] of a counting loop. *)
Definition zrange (lo hi : Z) : list Z :=
  map (λ i, lo + Z.of_nat i) (seq 0 (Z.to_nat (hi - lo))).

(** The pixels of a rectangle in the order of the nested loops
    [for y := Min.Y .. { for x := Min.X .. } ]. *)
Definition pixels (r : Rectangle) : list (Z * Z) :=
  y ← zrange (MinY r) (MaxY r); x ← zrange (MinX r) (MaxX r); [(x, y)].

(** A rectangle with at least one pixel, [int] corners and [int] sides. *)
Definition image_ok (r : Rectangle) : Prop :=
  (- 2 ^ 63 <= MinX r ∧ MinX r < MaxX r ∧ MaxX r < 2 ^ 63
   ∧ MaxX r - MinX r < 2 ^ 63)
  ∧ (- 2 ^ 63 <= MinY r ∧ MinY r < MaxY r ∧ MaxY r < 2 ^ 63
     ∧ MaxY r - MinY r < 2 ^ 63).

(** ** wasm/wasm_helpers.go: borders of a given width *)

Module Border.
Import Voronoi.

(** [isBorderPixelWithWidth] *)
Definition isBorderPixelWithWidth (x y : Z) (img : RGBAImage)
    (points : list Point) (width : Z) : bool :=
  let bounds := Bounds img in
  let current := findNearestPoint x y points in
  let radius := Z.quot (wrap64 (width + 1)) 2 in
  existsb (λ dy,
    existsb (λ dx,
      if (dx =? 0) && (dy =? 0) then false
      else if wrap64 (wrap64 (dx * dx) + wrap64 (dy * dy)) >? wrap64 (radius * radius)
      then false
      else
        let nx := wrap64 (x + dx) in
        let ny := wrap64 (y + dy) in
        if negb (inRect bounds nx ny) then false
        else negb (findNearestPoint nx ny points =? current)%nat)
      (zrange (- radius) (radius + 1)))
    (zrange (- radius) (radius + 1)).

(** [addVoronoiBordersWithWidth]: width 0 hands the image back; otherwise a
    copy is made and every border pixel is painted black. *)
Definition addVoronoiBordersWithWidth (img : RGBAImage) (points : list Point)
    (width : Z) : RGBAImage :=
  if width =? 0 then img
  else
    let bounds := Bounds img in
    let copied :=
      fold_left (λ result '(x, y), SetPixel result x y (At img x y))
                (pixels bounds) (NewRGBA bounds) in
    fold_left (λ result '(x, y),
                 if isBorderPixelWithWidth x y img points width
                 then SetPixel result x y (RGBA8 0 0 0 255)
                 else result)
              (pixels bounds) copied.

End Border.

(** ** wasm/main.go: the entry point *)

Module Entry.

Local Open Scope outcome_scope.

(** A [js.Value] argument: [Int()] panics unless it is a number, [Bool()]
    unless it is a boolean. *)
Inductive jsValue : Type :=
  | JSNumber (n : Z)
  | JSBoolean (b : bool)
  | JSBytes (data : list Z).

Definition Int (v : jsValue) : outcome Z :=
  match v with JSNumber n => Done n | _ => Panic end.

Definition Bool (v : jsValue) : outcome bool :=
  match v with JSBoolean b => Done b | _ => Panic end.

Record ColorInfo : Type := mkColorInfo {
  Number : Z;
  Hex : string
}.

(** [ProcessResult], before it is marshalled to JSON. *)
Record ProcessResult : Type := mkResult {
  Image : string;
  PaletteInfo : list ColorInfo;
  Error : string
}.

(** [createErrorResult] *)
Definition createErrorResult (errMsg : string) : ProcessResult :=
  mkResult ""%string [] errMsg.

(** The validated request, as handed to the rest of [processImage]. *)
Record Request : Type := mkRequest {
  imageData : jsValue;
  numPoints : Z;
  numColors : Z;
  lineWidth : Z;
  maxDimension : Z;
  showColors : bool;
  useVoronoi : bool
}.

Section ProcessImage.

(** Everything [processImage] does after validation: copying and decoding
    the bytes, downsampling, the pipeline, PNG and JSON encoding. *)
Variable pipeline : Request -> outcome ProcessResult.

(** [processImage] *)
Definition processImage (args : list jsValue) : outcome ProcessResult :=
  if (length args <? 7)%nat then
    Done (createErrorResult
      "Invalid arguments: expected (imageData, points, colors, lineWidth, maxDimension, showColors, useVoronoi)"%string)
  else
    let* imageData := index args 0 in
    let* numPoints := (let* v := index args 1 in Int v) in
    let* numColors := (let* v := index args 2 in Int v) in
    let* lineWidth := (let* v := index args 3 in Int v) in
    let* maxDimension := (let* v := index args 4 in Int v) in
    let* showColors := (let* v := index args 5 in Bool v) in
    let* useVoronoi := (let* v := index args 6 in Bool v) in
    if (numPoints <? 50) || (numPoints >? 50000) then
      Done (createErrorResult "Points must be between 50 and 50000"%string)
    else if (numColors <? 2) || (numColors >? 64) then
      Done (createErrorResult "Colors must be between 2 and 64"%string)
    else if (lineWidth <? 0) || (lineWidth >? 5) then
      Done (createErrorResult "Line width must be between 0 and 5"%string)
    else if (maxDimension <? 256) || (maxDimension >? 4096) then
      Done (createErrorResult "Max dimension must be between 256 and 4096"%string)
    else
      pipeline (mkRequest imageData numPoints numColors lineWidth
                          maxDimension showColors useVoronoi).

End ProcessImage.

(** The call [processImage(data, N, K, W, D, showColors, useVoronoi)]. *)
Definition call (data : list Z) (N K W D : Z) (colors voronoi : bool) : list jsValue :=
  [JSBytes data; JSNumber N; JSNumber K; JSNumber W; JSNumber D;
   JSBoolean colors; JSBoolean voronoi].

(** The bounds as the code enforces them. *)
Definition points_ok (N : Z) : Prop := 50 <= N <= 50000.
Definition colors_ok (K : Z) : Prop := 2 <= K <= 64.
Definition width_ok (W : Z) : Prop := 0 <= W <= 5.
Definition dimension_ok (D : Z) : Prop := 256 <= D <= 4096.

End Entry.

(** ** voronoi.go: the adaptive sampler *)

(** The [float64] operations the sampler uses.  Its weights are not whole
    numbers, and nothing proved about the sampler depends on how they round,
    so the type and its operations are left open; [binary64] below is the
    IEEE-754 instance. *)
Class FloatOps (F : Type) : Type := {
  f_of_Z : Z -> F;            (* float64(n) *)
  f_lit : Z -> Z -> F;        (* the literal n/d *)
  f_add : F -> F -> F;
  f_mul : F -> F -> F;
  f_div : F -> F -> F;
  f_sqrt : F -> F;
  f_lt : F -> F -> bool
}.

(** IEEE-754 binary64, the kernel's primitive floats. *)
Definition binary64_of_Z (z : Z) : PrimFloat.float :=
  if z <? 0 then PrimFloat.opp (PrimFloat.of_uint63 (Uint63.of_Z (- z)))
  else PrimFloat.of_uint63 (Uint63.of_Z z).

#[global] Instance binary64 : FloatOps PrimFloat.float := {|
  f_of_Z := binary64_of_Z;
  f_lit n d := PrimFloat.div (binary64_of_Z n) (binary64_of_Z d);
  f_add := PrimFloat.add;
  f_mul := PrimFloat.mul;
  f_div := PrimFloat.div;
  f_sqrt := PrimFloat.sqrt;
  f_lt := PrimFloat.ltb
|}.

(** [image.Image]: bounds and a colour at every point. *)
Record Image : Type := mkImg {
  ImgBounds : Rectangle;
  ImgAt : Z -> Z -> Color
}.

Definition imageOf (img : RGBAImage) : Image := mkImg (Bounds img) (At img).

Module Sampler.

Local Open Scope outcome_scope.

Definition sobelX : list (list Z) := [[-1; 0; 1]; [-2; 0; 2]; [-1; 0; 1]].
Definition sobelY : list (list Z) := [[-1; -2; -1]; [0; 0; 0]; [1; 2; 1]].

Definition kernelAt (kernel : list (list Z)) (row col : Z) : Z :=
  nth (Z.to_nat col) (nth (Z.to_nat row) kernel []) 0.

Section WithFloats.
Context {F : Type} {ops : FloatOps F}.

(** The successive results of [rand.Float64()]. *)
Variable rand : nat -> F.

Definition zero : F := f_lit 0 1.

(** The luminance [0.299*r + 0.587*g + 0.114*b] of a pixel. *)
Definition grayAt (img : Image) (x y : Z) : F :=
  let '(r, g, b, _) := RGBA (ImgAt img x y) in
  f_add (f_add (f_mul (f_lit 299 1000) (f_of_Z r))
               (f_mul (f_lit 587 1000) (f_of_Z g)))
        (f_mul (f_lit 114 1000) (f_of_Z b)).

(** The two Sobel sums at the pixel [(x, y)], relative to the bounds. *)
Definition gradient (img : Image) (x y : Z) : F * F :=
  let bounds := ImgBounds img in
  fold_left (λ acc dy,
    fold_left (λ '(gx, gy) dx,
      let gray := grayAt img (wrap64 (wrap64 (x + dx) + MinX bounds))
                             (wrap64 (wrap64 (y + dy) + MinY bounds)) in
      (f_add gx (f_mul gray (f_of_Z (kernelAt sobelX (dy + 1) (dx + 1)))),
       f_add gy (f_mul gray (f_of_Z (kernelAt sobelY (dy + 1) (dx + 1))))))
      (zrange (-1) 2) acc)
    (zrange (-1) 2) (zero, zero).

(** [computeEdgeMap]: the gradient magnitude at the interior pixels, zero on
    the one-pixel frame. *)
Definition computeEdgeMap (img : Image) : outcome (list F) :=
  let bounds := ImgBounds img in
  let width := Dx bounds in
  let height := Dy bounds in
  let* edgeMap := make zero (width * height) in
  foldM (λ edgeMap y,
    foldM (λ edgeMap x,
      let '(gx, gy) := gradient img x y in
      let magnitude := f_sqrt (f_add (f_mul gx gx) (f_mul gy gy)) in
      store edgeMap (y * width + x) (f_div magnitude (f_lit 65535 1)))
      (zrange 1 (width - 1)) edgeMap)
    (zrange 1 (height - 1)) edgeMap.

(** The loop of [binarySearch]; [left] and [right] close in on each other,
    [fuel] bounds the number of rounds. *)
Fixpoint binarySearch_loop (fuel : nat) (arr : list F) (value : F)
    (left right : Z) : outcome Z :=
  if left <? right then
    match fuel with
    | O => OutOfFuel
    | S fuel' =>
        let mid := Z.quot (left + right) 2 in
        let* a := load arr mid in
        if f_lt a value then binarySearch_loop fuel' arr value (mid + 1) right
        else binarySearch_loop fuel' arr value left mid
    end
  else Done left.

(** [binarySearch] *)
Definition binarySearch (arr : list F) (value : F) : outcome Z :=
  binarySearch_loop (length arr) arr value 0 (Z.of_nat (length arr) - 1).

(** The running sums [cumulative[i] = weights[0] + ... + weights[i]]. *)
Definition cumulate (weights : list F) : list F :=
  (fold_left (λ '(sum, cumulative) w,
                let sum := f_add sum w in (sum, cumulative ++ [sum]))
             weights (zero, [])).2.

(** [generateAdaptiveVoronoiPoints] (without the progress callback). *)
Definition generateAdaptiveVoronoiPoints (img : Image) (numPoints : Z)
    : outcome (list Point) :=
  let bounds := ImgBounds img in
  let width := Dx bounds in
  let height := Dy bounds in
  let* edgeMap := computeEdgeMap img in
  let* weights := make zero (width * height) in
  let* (weights, totalWeight) :=
    foldM (λ st y,
      foldM (λ '(weights, totalWeight) x,
        let idx := y * width + x in
        let* e := load edgeMap idx in
        let weight := f_add (f_lit 1 1) (f_mul e (f_lit 10 1)) in
        let* weights := store weights idx weight in
        Done (weights, f_add totalWeight weight))
        (zrange 0 width) st)
      (zrange 0 height) (weights, zero) in
  let cumulative := cumulate weights in
  let* points := make (mkPoint 0 0 (RGBA8 0 0 0 0) 0) numPoints in
  foldM (λ points i,
    let target := f_mul (rand (Z.to_nat i)) totalWeight in
    let* idx := binarySearch cumulative target in
    if width =? 0 then Panic
    else
      let x := wrap64 (Z.rem idx width + MinX bounds) in
      let y := wrap64 (Z.quot idx width + MinY bounds) in
      store points i (mkPoint x y (ImgAt img x y) i))
    (zrange 0 numPoints) points.

End WithFloats.

(** Draws for the examples: 0.00, 0.37, 0.74, 0.11, ... *)
Definition demo_rand (n : nat) : PrimFloat.float := f_lit (Z.of_nat n * 37 mod 100) 100.

(** A 5x4 image at offset (10, 20), red on the left and blue on the right. *)
Definition demo_image : Image :=
  mkImg (mkRect 10 20 15 24)
        (λ x y, if x <? 12 then RGBA8 255 0 0 255 else RGBA8 0 0 255 255).

End Sampler.

(** ** kdtree.go on slices in memory *)

(** [NewKDTree] sorts in place and recurses on sub-slices that share one
    backing array.  Here slices are views of arrays held in a memory, and
    every element read or write goes through it. *)
Module InPlace.
Import KD.

Local Open Scope outcome_scope.

(** The backing arrays, by allocation number. *)
Abbreviation Memory := (gmap nat (list Point)).

(** A slice header: backing array, offset of element 0, length. *)
Record Slice : Type := mkSlice {
  base : nat;
  off : nat;
  len : nat
}.

(** [s[i]] *)
Definition read (mem : Memory) (s : Slice) (i : nat) : outcome Point :=
  if (i <? len s)%nat then
    match mem !! base s with
    | Some arr => index arr (off s + i)
    | None => Panic
    end
  else Panic.

(** [s[i] = v] *)
Definition write (mem : Memory) (s : Slice) (i : nat) (v : Point) : outcome Memory :=
  if (i <? len s)%nat then
    match mem !! base s with
    | Some arr =>
        if (off s + i <? length arr)%nat
        then Done (<[base s := <[(off s + i)%nat := v]> arr]> mem)
        else Panic
    | None => Panic
    end
  else Panic.

(** [s[lo:hi]] *)
Definition subslice (s : Slice) (lo hi : nat) : outcome Slice :=
  if (lo <=? hi)%nat && (hi <=? len s)%nat
  then Done (mkSlice (base s) (off s + lo) (hi - lo))
  else Panic.

(** [make([]Point, n)]: a fresh array of zero points. *)
Definition makePoints (mem : Memory) (n : nat) : Slice * Memory :=
  let b := fresh (dom mem) in
  (mkSlice b 0 n, <[b := replicate n (mkPoint 0 0 (RGBA8 0 0 0 0) 0)]> mem).

(** [copy(dst, src)] for slices of distinct arrays, element by element. *)
Fixpoint copyFrom (mem : Memory) (dst src : Slice) (i n : nat) : outcome Memory :=
  match n with
  | O => Done mem
  | S n' =>
      let* v := read mem src i in
      let* mem := write mem dst i v in
      copyFrom mem dst src (S i) n'
  end.

Definition copy (mem : Memory) (dst src : Slice) : outcome Memory :=
  copyFrom mem dst src 0 (Nat.min (len dst) (len src)).

(** The inner loop of [sortPointsByAxis]; [jp] is [j + 1].  Returns the
    final [j + 1]. *)
Fixpoint shiftLoop (axis : Z) (s : Slice) (key : Point) (jp : nat) (mem : Memory)
    : outcome (nat * Memory) :=
  match jp with
  | O => Done (0%nat, mem)
  | S j =>
      let* pj := read mem s j in
      if coord axis pj <=? coord axis key then Done (S j, mem)
      else
        let* mem := write mem s (S j) pj in
        shiftLoop axis s key j mem
  end.

(** [sortPointsByAxis], in place: the loop [for i := 1; i < len(points); i++]
    with [n] rounds left. *)
Fixpoint sortFrom (axis : Z) (s : Slice) (i n : nat) (mem : Memory) : outcome Memory :=
  match n with
  | O => Done mem
  | S n' =>
      let* key := read mem s i in
      let* (jp, mem) := shiftLoop axis s key i mem in
      let* mem := write mem s jp key in
      sortFrom axis s (S i) n' mem
  end.

Definition sortPointsByAxis (mem : Memory) (s : Slice) (axis : Z) : outcome Memory :=
  sortFrom axis s 1 (len s - 1) mem.

(** [buildKDTree] on a slice. *)
Fixpoint buildKDTree_rec (fuel : nat) (mem : Memory) (points : Slice) (depth : nat)
    : outcome (kdNode * Memory) :=
  match fuel with
  | O => OutOfFuel
  | S fuel' =>
      if (len points =? 0)%nat then Done (Nil, mem)
      else if (len points =? 1)%nat then
        let* p := read mem points 0 in
        Done (Node p Nil Nil (Z.of_nat (depth mod 2)), mem)
      else
        let axis := Z.of_nat (depth mod 2) in
        let* mem := sortPointsByAxis mem points axis in
        let median := (len points / 2)%nat in
        let* p := read mem points median in
        let* lo := subslice points 0 median in
        let* (l, mem) := buildKDTree_rec fuel' mem lo (S depth) in
        let* hi := subslice points (S median) (len points) in
        let* (r, mem) := buildKDTree_rec fuel' mem hi (S depth) in
        Done (Node p l r axis, mem)
  end.

Definition buildKDTree (mem : Memory) (points : Slice) (depth : nat)
    : outcome (kdNode * Memory) :=
  buildKDTree_rec (S (len points)) mem points depth.

(** [NewKDTree] on a slice: returns the tree and the memory after the call. *)
Definition NewKDTree (mem : Memory) (points : Slice) : outcome (KDTree * Memory) :=
  if (len points =? 0)%nat then Done (mkTree Nil, mem)
  else
    let '(pointsCopy, mem) := makePoints mem (len points) in
    let* mem := copy mem pointsCopy points in
    let* (root, mem) := buildKDTree mem pointsCopy 0 in
    Done (mkTree root, mem).

(** The elements a slice shows. *)
Definition contents (mem : Memory) (s : Slice) : option (list Point) :=
  match mem !! base s with
  | Some arr =>
      if (off s + len s <=? length arr)%nat
      then Some (take (len s) (drop (off s) arr))
      else None
  | None => None
  end.

End InPlace.

(** ** textdraw.go: regions and their numbers *)

Module Labeler.
Import KD.

Local Open Scope outcome_scope.

(** [Region] *)
Record Region : Type := mkRegion {
  ColorIndex : Z;
  Pixels : list (Z * Z);
  Centroid : Z * Z;
  Area : Z
}.

(** The slot of a pixel in [visited]: [(y - Min.Y)*width + (x - Min.X)]. *)
Definition pixelIndex (bounds : Rectangle) (x y : Z) : Z :=
  (y - MinY bounds) * Dx bounds + (x - MinX bounds).

(** The four points [floodFill] appends to its queue. *)
Definition neighbours (p : Z * Z) : list (Z * Z) :=
  let '(x, y) := p in
  [(wrap64 (x - 1), y); (wrap64 (x + 1), y); (x, wrap64 (y - 1)); (x, wrap64 (y + 1))].

(** The loop [for len(queue) > 0] of [floodFill]; [fuel] bounds the number
    of rounds. *)
Fixpoint floodFill_loop (fuel : nat) (kdtree : KDTree) (bounds : Rectangle)
    (colorIdx : Z) (queue : list (Z * Z)) (pixels : list (Z * Z))
    (visited : list bool) : outcome (list (Z * Z) * list bool) :=
  match queue with
  | [] => Done (pixels, visited)
  | p :: queue =>
      match fuel with
      | O => OutOfFuel
      | S fuel' =>
          if negb (inRect bounds p.1 p.2)
          then floodFill_loop fuel' kdtree bounds colorIdx queue pixels visited
          else
            let idx := pixelIndex bounds p.1 p.2 in
            let* seen := load visited idx in
            if seen : bool
            then floodFill_loop fuel' kdtree bounds colorIdx queue pixels visited
            else if negb (FindNearest kdtree p.1 p.2 =? colorIdx)
            then floodFill_loop fuel' kdtree bounds colorIdx queue pixels visited
            else
              let* visited := store visited idx true in
              floodFill_loop fuel' kdtree bounds colorIdx
                (queue ++ neighbours p) (pixels ++ [p]) visited
      end
  end.

(** [floodFill]: the region grown from [(startX, startY)] and the updated
    [visited] slice.  A round either marks a pixel and queues four points or
    only consumes a point, so [1 + 4 * len(visited)] rounds are enough. *)
Definition floodFill (startX startY colorIdx : Z) (visited : list bool)
    (kdtree : KDTree) (bounds : Rectangle) : outcome (Region * list bool) :=
  let* (pixels, visited) :=
    floodFill_loop (S (4 * length visited)) kdtree bounds colorIdx
                   [(startX, startY)] [] visited in
  Done (mkRegion colorIdx pixels (0, 0) 0, visited).

(** [sumX += p.X] over a slice, in [int]. *)
Definition sumInt (l : list Z) : Z := fold_left (λ sum v, wrap64 (sum + v)) l 0.

(** The centroid as [findRegions] computes it. *)
Definition centroidOf (pixels : list (Z * Z)) : Z * Z :=
  (Z.quot (sumInt (map fst pixels)) (Z.of_nat (length pixels)),
   Z.quot (sumInt (map snd pixels)) (Z.of_nat (length pixels))).

(** [findRegions]; the seed slice is a parameter the function does not use. *)
Definition findRegions (img : RGBAImage) (points : list Point) (kdtree : KDTree)
    : outcome (list Region) :=
  let bounds := Bounds img in
  let width := Dx bounds in
  let height := Dy bounds in
  let* visited := make false (width * height) in
  let* (_, regions) :=
    foldM (λ '(visited, regions) '(x, y),
      let idx := pixelIndex bounds x y in
      let* seen := load visited idx in
      if seen : bool then Done (visited, regions)
      else
        let colorIdx := FindNearest kdtree x y in
        let* (region, visited) := floodFill x y colorIdx visited kdtree bounds in
        if (100 <=? length (Pixels region))%nat then
          let region :=
            mkRegion (ColorIndex region) (Pixels region)
                     (centroidOf (Pixels region))
                     (Z.of_nat (length (Pixels region))) in
          Done (visited, regions ++ [region])
        else Done (visited, regions))
      (pixels bounds) (visited, []) in
  Done regions.

(** [digitBitmaps]: the 5x7 glyphs, one string per row, [#] for a set dot. *)
Definition digitBitmaps (digit : Z) : list string :=
  match digit with
  | 0 => [".###."; "#...#"; "#..##"; "#.#.#"; "##..#"; "#...#"; ".###."]
  | 1 => ["..#.."; ".##.."; "..#.."; "..#.."; "..#.."; "..#.."; ".###."]
  | 2 => [".###."; "#...#"; "....#"; "...#."; "..#.."; ".#..."; "#####"]
  | 3 => [".###."; "#...#"; "....#"; "..##."; "....#"; "#...#"; ".###."]
  | 4 => ["...#."; "..##."; ".#.#."; "#..#."; "#####"; "...#."; "...#."]
  | 5 => ["#####"; "#...."; "####."; "....#"; "....#"; "#...#"; ".###."]
  | 6 => ["..##."; ".#..."; "#...."; "####."; "#...#"; "#...#"; ".###."]
  | 7 => ["#####"; "....#"; "...#."; "..#.."; ".#..."; ".#..."; ".#..."]
  | 8 => [".###."; "#...#"; "#...#"; ".###."; "#...#"; "#...#"; ".###."]
  | 9 => [".###."; "#...#"; "#...#"; ".####"; "....#"; "...#."; ".##.."]
  | _ => []
  end%string.

(** The set dots of a glyph, as (column, row) offsets in drawing order. *)
Definition dots (bitmap : list string) : list (Z * Z) :=
  '(y, row) ← zip (zrange 0 (Z.of_nat (length bitmap))) bitmap;
  '(x, dot) ← zip (zrange 0 (Z.of_nat (String.length row))) (list_ascii_of_string row);
  if Ascii.eqb dot "#"%char then [(x, y)] else [].

(** [drawBitmap] *)
Definition drawBitmap (img : RGBAImage) (bitmap : list string)
    (startX startY : Z) (c : Color) : RGBAImage :=
  fold_left (λ img '(x, y),
               let px := wrap64 (startX + x) in
               let py := wrap64 (startY + y) in
               if inRect (Bounds img) px py then SetPixel img px py c else img)
            (dots bitmap) img.

(** [drawDigit]: a black outline, then the white digit. *)
Definition drawDigit (img : RGBAImage) (digit centerX centerY : Z) : RGBAImage :=
  if (digit <? 0) || (digit >? 9) then img
  else
    let bitmap := digitBitmaps digit in
    let startX := wrap64 (centerX - 2) in
    let startY := wrap64 (centerY - 3) in
    let outlined :=
      fold_left (λ img '(dx, dy),
                   if (dx =? 0) && (dy =? 0) then img
                   else drawBitmap img bitmap (wrap64 (startX + dx))
                                   (wrap64 (startY + dy)) (RGBA8 0 0 0 255))
                (dy ← zrange (-1) 2; dx ← zrange (-1) 2; [(dx, dy)]) img in
    drawBitmap outlined bitmap startX startY (RGBA8 255 255 255 255).

(** [drawNumber] *)
Definition drawNumber (img : RGBAImage) (num x y : Z) : RGBAImage :=
  if 10 <=? num then
    let tens := Z.quot num 10 in
    let ones := Z.rem num 10 in
    drawDigit (drawDigit img tens (wrap64 (x - 3)) y) ones (wrap64 (x + 3)) y
  else drawDigit img num x y.

(** The stamp of a region: [drawNumber(result, ColorIndex + 1, Centroid)]. *)
Definition stamp (img : RGBAImage) (region : Region) : RGBAImage :=
  drawNumber img (wrap64 (ColorIndex region + 1))
             (Centroid region).1 (Centroid region).2.

(** [addRegionNumbers]: one stamp per region found, on a copy of the image. *)
Definition addRegionNumbers (img : RGBAImage) (points : list Point)
    (kdtree : KDTree) : outcome RGBAImage :=
  let result := mkImage (Bounds img) (Pix img) in
  let* regions := findRegions img points kdtree in
  Done (fold_left stamp regions result).

(** *** What a region is *)

(** A pixel of the image. *)
Definition inside (bounds : Rectangle) (q : Z * Z) : Prop :=
  inRect bounds q.1 q.2 = true.

(** 4-adjacency. *)
Definition adjacent (p q : Z * Z) : Prop :=
  (q.1 = p.1 ∧ (q.2 = p.2 + 1 ∨ q.2 = p.2 - 1))
  ∨ (q.2 = p.2 ∧ (q.1 = p.1 + 1 ∨ q.1 = p.1 - 1)).

(** A pixel of the image assigned to the seed [c]. *)
Definition member (bounds : Rectangle) (label : Z -> Z -> Z) (c : Z) (q : Z * Z) : Prop :=
  inside bounds q ∧ label q.1 q.2 = c.

(** One move between adjacent pixels of the same seed. *)
Definition step (bounds : Rectangle) (label : Z -> Z -> Z) (c : Z) (p q : Z * Z) : Prop :=
  member bounds label c p ∧ member bounds label c q ∧ adjacent p q.

(** [q] lies in the 4-connected region of [p]. *)
Definition connected (bounds : Rectangle) (label : Z -> Z -> Z) (p q : Z * Z) : Prop :=
  member bounds label (label p.1 p.2) p
  ∧ rtc (step bounds label (label p.1 p.2)) p q.

(** [ps] lists the region of [p0], each pixel once. *)
Definition is_region (bounds : Rectangle) (label : Z -> Z -> Z)
    (p0 : Z * Z) (ps : list (Z * Z)) : Prop :=
  inside bounds p0 ∧ NoDup ps ∧ ∀ q, q ∈ ps ↔ connected bounds label p0 q.


(** The pixel is marked in [visited]. *)
Definition seen (bounds : Rectangle) (visited : list bool) (q : Z * Z) : Prop :=
  visited !! Z.to_nat (pixelIndex bounds q.1 q.2) = Some true.

(** The number of unmarked slots. *)
Fixpoint unseen (visited : list bool) : nat :=
  match visited with
  | [] => 0
  | b :: rest => ((if b then 0 else 1) + unseen rest)%nat
  end.

(** The state of a fill from [start] over the initial marks [V0]: the pixels
    collected so far belong to the region of [start] and are exactly the new
    marks; every queued point is [start] or next to a collected pixel; and
    every pixel of the region next to a collected pixel is queued or
    collected. *)
Record fill_inv (bounds : Rectangle) (label : Z -> Z -> Z) (start : Z * Z)
    (V0 : list bool) (queue collected : list (Z * Z)) (V : list bool) : Prop := {
  fill_length : length V = length V0;
  fill_nodup : NoDup collected;
  fill_connected : ∀ q, q ∈ collected -> connected bounds label start q;
  fill_seen : ∀ q, inside bounds q ->
      (seen bounds V q ↔ seen bounds V0 q ∨ q ∈ collected);
  fill_queue : ∀ q, q ∈ queue ->
      q = start ∨ ∃ p, p ∈ collected ∧ q ∈ neighbours p;
  fill_start : start ∈ queue ∨ start ∈ collected;
  fill_front : ∀ p q, p ∈ collected -> q ∈ neighbours p ->
      member bounds label (label start.1 start.2) q ->
      q ∈ queue ∨ q ∈ collected
}.





End Labeler.

(** ** kdtree.go: the shape of a tree *)

Module Shape.
Import KD.

(** The number of nodes on the longest path from the root down. *)
Fixpoint height (t : kdNode) : nat :=
  match t with
  | Nil => 0
  | Node _ l r _ => S (Nat.max (height l) (height r))
  end.

(** At every node the left subtree holds half of the seeds at and below the
    node, rounded down; the right subtree holds the rest. *)
Fixpoint balanced (t : kdNode) : Prop :=
  match t with
  | Nil => True
  | Node _ l r _ =>
      length (elems l) = (S (length (elems l) + length (elems r)) / 2)%nat
      ∧ balanced l ∧ balanced r
  end.

(** The number of levels of a balanced tree of [n] seeds. *)
Definition levels (n : nat) : nat :=
  match n with
  | O => O
  | _ => S (Nat.log2 n)
  end.

End Shape.

(** ** voronoi.go and kdtree.go: when the two searches agree *)

(** Exactly one position of the slice holds a seed at the least distance
    from the pixel. *)
Definition unique_nearest (x y : Z) (points : list Point) : Prop :=
  ∀ i j p q,
    points !! i = Some p -> points !! j = Some q ->
    Forall (λ r, sqdist x y p <= sqdist x y r) points ->
    Forall (λ r, sqdist x y q <= sqdist x y r) points ->
    i = j.

(** ** voronoi.go: what the edge map holds *)

Module EdgeMap.
Import Sampler.

Section WithFloats.
Context {F : Type} {ops : FloatOps F}.



End WithFloats.

End EdgeMap.

(** ** wasm/paintbynumbers.go: borders one pixel wide *)

Module PlainBorder.
Import Voronoi.

(** [isBorderPixel]: the right and the lower neighbour are compared. *)
Definition isBorderPixel (x y : Z) (img : RGBAImage) (points : list Point) : bool :=
  let bounds := Bounds img in
  let current := findNearestPoint x y points in
  existsb (λ '(nx, ny),
             if negb (inRect bounds nx ny) then false
             else negb (findNearestPoint nx ny points =? current)%nat)
          [(wrap64 (x + 1), y); (x, wrap64 (y + 1))].

(** [addVoronoiBorders]: [draw.Draw] with [draw.Src] copies the image pixel
    by pixel; then every border pixel is painted black. *)
Definition addVoronoiBorders (img : RGBAImage) (points : list Point) : RGBAImage :=
  let bounds := Bounds img in
  let copied :=
    fold_left (λ result '(x, y), SetPixel result x y (At img x y))
              (pixels bounds) (NewRGBA bounds) in
  fold_left (λ result '(x, y),
               if isBorderPixel x y img points
               then SetPixel result x y (RGBA8 0 0 0 255)
               else result)
            (pixels bounds) copied.

End PlainBorder.

(** ** What a drawing routine may do to an image *)

Module Canvas.

Definition black : Color := RGBA8 0 0 0 255.
Definition white : Color := RGBA8 255 255 255 255.

(** [res] has the bounds of [img], and each of its pixels either shows what
    [img] shows there or a colour of [ink]. *)
Definition painted_from (ink : Color -> Prop) (img res : RGBAImage) : Prop :=
  Bounds res = Bounds img
  ∧ ∀ x y, At res x y = At img x y ∨ ink (At res x y).

(** The inks of the numerals. *)
Definition numeral_ink (c : Color) : Prop := c = black ∨ c = white.

End Canvas.

(** ** textdraw.go: what [findRegions] reports *)

Module Regions.
Import KD Labeler.

(** A reported region: a whole 4-connected cell of one seed with at least
    100 pixels, each listed once, tagged with the seed and carrying the area
    and the centroid computed from its pixels. *)
Definition region_ok (bounds : Rectangle) (label : Z -> Z -> Z) (r : Region) : Prop :=
  (100 <= length (Pixels r))%nat
  ∧ Area r = Z.of_nat (length (Pixels r))
  ∧ Centroid r = centroidOf (Pixels r)
  ∧ ∃ p0, is_region bounds label p0 (Pixels r) ∧ ColorIndex r = label p0.1 p0.2.

(** The marks are a union of whole cells. *)
Definition closed (bounds : Rectangle) (label : Z -> Z -> Z) (V : list bool) : Prop :=
  ∀ p q, inside bounds p -> seen bounds V p ->
         connected bounds label p q -> seen bounds V q.

(** The state of the scan of [findRegions]: every region reported so far is
    a whole cell and is marked, and no pixel is reported twice. *)
Record report_inv (bounds : Rectangle) (label : Z -> Z -> Z)
    (V : list bool) (regions : list Region) : Prop := {
  report_length : Z.of_nat (length V) = Dx bounds * Dy bounds;
  report_closed : closed bounds label V;
  report_ok : Forall (region_ok bounds label) regions;
  report_seen : ∀ r q, r ∈ regions -> q ∈ Pixels r -> seen bounds V q;
  report_nodup : NoDup (regions ≫= Pixels)
}.

End Regions.

(** ** voronoi.go: the rasterizer and its goroutines *)

Module Raster.
Import KD.

Local Open Scope outcome_scope.

Definition numWorkers : Z := 8.

(** The rows [startY, endY) handed to worker [w]. *)
Definition workerRows (height w : Z) : Z * Z :=
  let rowsPerWorker :=
    Z.quot (wrap64 (wrap64 (height + numWorkers) - 1)) numWorkers in
  let startY := wrap64 (w * rowsPerWorker) in
  let endY := wrap64 (wrap64 (w + 1) * rowsPerWorker) in
  (startY, if endY >? height then height else endY).

(** The iterations of one goroutine in its own order, each the pair
    [(x, y)] of its two loop counters. *)
Definition workerJobs (bounds : Rectangle) (rows : Z * Z) : list (Z * Z) :=
  y ← zrange rows.1 rows.2; x ← zrange 0 (Dx bounds); [(x, y)].

(** One iteration; the lookup [points[nearestIdx]] may panic, which ends
    the program. *)
Definition paintPixel (bounds : Rectangle) (points : list Point) (kdtree : KDTree)
    (img : RGBAImage) (job : Z * Z) : outcome RGBAImage :=
  let actualX := wrap64 (job.1 + MinX bounds) in
  let actualY := wrap64 (job.2 + MinY bounds) in
  let nearestIdx := FindNearest kdtree actualX actualY in
  let* p := load points nearestIdx in
  Done (SetPixel img actualX actualY (PColor p)).

(** The goroutines run interleaved.  A schedule names, step by step, the
    worker that performs its next iteration; a step that names a worker
    with nothing left to do changes nothing. *)
Fixpoint run (bounds : Rectangle) (points : list Point) (kdtree : KDTree)
    (schedule : list nat) (queues : list (list (Z * Z))) (img : RGBAImage)
    : outcome (RGBAImage * list (list (Z * Z))) :=
  match schedule with
  | [] => Done (img, queues)
  | w :: schedule =>
      match queues !! w with
      | Some (job :: rest) =>
          let* img := paintPixel bounds points kdtree img job in
          run bounds points kdtree schedule (<[w := rest]> queues) img
      | _ => run bounds points kdtree schedule queues img
      end
  end.

(** [createVoronoiDiagramWithProgress] (without the progress callback) under
    a schedule of its eight goroutines.  [wg.Wait()] returns once every
    goroutine has finished; a schedule that ends before that is cut off. *)
Definition createVoronoiDiagramWithProgress (schedule : list nat)
    (bounds : Rectangle) (points : list Point) : outcome (RGBAImage * KDTree) :=
  let img := NewRGBA bounds in
  let kdtree := NewKDTree points in
  let height := Dy bounds in
  let queues :=
    map (λ w, workerJobs bounds (workerRows height w)) (zrange 0 numWorkers) in
  let* (img, queues) := run bounds points kdtree schedule queues img in
  if forallb (λ queue, match queue with [] => true | _ => false end) queues
  then Done (img, kdtree)
  else OutOfFuel.

(** [createVoronoiDiagram] *)
Definition createVoronoiDiagram (schedule : list nat) (bounds : Rectangle)
    (points : list Point) : outcome (RGBAImage * KDTree) :=
  createVoronoiDiagramWithProgress schedule bounds points.

(** The schedule gives every goroutine the turns it needs. *)
Definition completes (schedule : list nat) (bounds : Rectangle) : Prop :=
  ∀ w, (w < 8)%nat ->
    (length (workerJobs bounds (workerRows (Dy bounds) (Z.of_nat w)))
     <= count_occ Nat.eq_dec schedule w)%nat.

(** The goroutines one after the other. *)
Definition sequential (bounds : Rectangle) : list nat :=
  w ← seq 0 8;
  replicate (length (workerJobs bounds (workerRows (Dy bounds) (Z.of_nat w)))) w.

(** The state of the run: every pixel of the image is still in the queue of
    some goroutine or shows the colour of the seed the tree names for it. *)
Definition raster_inv (bounds : Rectangle) (points : list Point) (kdtree : KDTree)
    (img : RGBAImage) (queues : list (list (Z * Z))) : Prop :=
  Bounds img = bounds
  ∧ ∀ x y, inRect bounds x y = true ->
      (∃ w queue, queues !! w = Some queue
                  ∧ (x - MinX bounds, y - MinY bounds) ∈ queue)
      ∨ (∃ p, points !! Z.to_nat (FindNearest kdtree x y) = Some p
              ∧ At img x y = toRGBA8 (PColor p)).

End Raster.

(** ** wasm/paintbynumbers.go: where the palette colours lie *)

Module ColorBox.


(** The length of the palette [kMeansClustering] returns for [n] samples. *)
Definition paletteSize (n : nat) (k : Z) : nat :=
  match n with
  | O => 1
  | _ => Nat.min n (Z.to_nat k)
  end.

End ColorBox.

(** ** wasm/paintbynumbers.go and wasm/wasm_helpers.go: the conversion *)

Module Pipeline.
Import KD Palette Sampler Border Labeler Raster.

Local Open Scope outcome_scope.

Definition sampleStep : Z := 10.

(** The loop [for v := lo; v < hi; v += sampleStep]: the values [v] takes.
    [fuel] bounds the number of rounds. *)
Fixpoint strideLoop (fuel : nat) (v hi : Z) : outcome (list Z) :=
  if v <? hi then
    match fuel with
    | O => OutOfFuel
    | S fuel' =>
        let* rest := strideLoop fuel' (wrap64 (v + sampleStep)) hi in
        Done (v :: rest)
    end
  else Done [].

(** The colours [generatePalette] samples, every tenth pixel of every tenth
    row.  A loop makes fewer rounds than the side it walks is long. *)
Definition sampleColors (img : Image) : outcome (list Color) :=
  let bounds := ImgBounds img in
  let* ys := strideLoop (Z.to_nat (MaxY bounds - MinY bounds))
                        (MinY bounds) (MaxY bounds) in
  let* xs := strideLoop (Z.to_nat (MaxX bounds - MinX bounds))
                        (MinX bounds) (MaxX bounds) in
  Done (y ← ys; x ← xs; [ImgAt img x y]).

(** [generatePalette] *)
Definition generatePalette (fuel : nat) (rng : nat -> Z) (img : Image)
    (numColors : Z) : outcome (list Color) :=
  let* colors := sampleColors img in
  kMeansClustering fuel colors numColors rng.

(** [createBlankVoronoiDiagram] *)
Definition createBlankVoronoiDiagram (bounds : Rectangle) (points : list Point)
    : RGBAImage * KDTree :=
  let img :=
    fold_left (λ img '(x, y), SetPixel img x y (RGBA8 255 255 255 255))
              (pixels bounds) (NewRGBA bounds) in
  (img, NewKDTree points).

Section WithFloats.
Context {F : Type} {ops : FloatOps F}.

(** The draws of the sampler, the draws of the clustering, the rounds
    allowed to the seeding loop and the schedule of the rasterizer. *)
Variable rand : nat -> F.
Variable rng : nat -> Z.
Variable fuel : nat.
Variable schedule : list nat.

(** [convertToPaintByNumbersWithParamsAndColors] *)
Definition convertToPaintByNumbersWithParamsAndColors (img : Image)
    (numPoints numColors lineWidth : Z) (showColors : bool)
    : outcome (RGBAImage * list Color) :=
  let bounds := ImgBounds img in
  let* palette := generatePalette fuel rng img numColors in
  let* points := generateAdaptiveVoronoiPoints rand img numPoints in
  let* quantizedPoints := quantizePoints points palette in
  let* (voronoi, kdtree) :=
    if showColors
    then createVoronoiDiagramWithProgress schedule bounds quantizedPoints
    else Done (createBlankVoronoiDiagram bounds quantizedPoints) in
  let result := addVoronoiBordersWithWidth voronoi quantizedPoints lineWidth in
  if lineWidth <=? 2 then
    let* result := addRegionNumbers result quantizedPoints kdtree in
    Done (result, palette)
  else Done (result, palette).

(** [convertToPaintByNumbersWithParams] *)
Definition convertToPaintByNumbersWithParams (img : Image)
    (numPoints numColors lineWidth : Z) : outcome (RGBAImage * list Color) :=
  convertToPaintByNumbersWithParamsAndColors img numPoints numColors lineWidth true.

End WithFloats.

(** An image whose corners have coordinates of magnitude at most 2^30, so
    that its area fits an [int]. *)
Definition modest (bounds : Rectangle) : Prop :=
  (- 2 ^ 30 <= MinX bounds ∧ MaxX bounds <= 2 ^ 30)
  ∧ (- 2 ^ 30 <= MinY bounds ∧ MaxY bounds <= 2 ^ 30).


End Pipeline.

(** ** wasm/wasm_helpers.go: the grid mode *)

Module Grid.
Import Palette Labeler Pipeline.

Local Open Scope outcome_scope.

(** [isGridBorder]; both slice reads are guarded by range tests. *)
Definition isGridBorder (x y : Z) (bounds : Rectangle) (colorIndices : list Z)
    (width : Z) : bool :=
  let currentIdx := pixelIndex bounds x y in
  if (currentIdx <? 0) || (currentIdx >=? Z.of_nat (length colorIndices)) then false
  else
    let current := nth (Z.to_nat currentIdx) colorIndices 0 in
    let radius := Z.quot (wrap64 (width + 1)) 2 in
    existsb (λ dy,
      existsb (λ dx,
        if (dx =? 0) && (dy =? 0) then false
        else if wrap64 (wrap64 (dx * dx) + wrap64 (dy * dy)) >? wrap64 (radius * radius)
        then false
        else
          let nx := wrap64 (x + dx) in
          let ny := wrap64 (y + dy) in
          if negb (inRect bounds nx ny) then false
          else
            let neighborIdx := pixelIndex bounds nx ny in
            (neighborIdx >=? 0)
            && (neighborIdx <? Z.of_nat (length colorIndices))
            && negb (nth (Z.to_nat neighborIdx) colorIndices 0 =? current))
        (zrange (- radius) (radius + 1)))
      (zrange (- radius) (radius + 1)).

(** The loop [for len(queue) > 0] of [gridFloodFill]. *)
Fixpoint gridFloodFill_loop (fuel : nat) (bounds : Rectangle)
    (colorIndices : list Z) (targetColor : Z) (queue : list (Z * Z))
    (pixels : list (Z * Z)) (visited : list bool)
    : outcome (list (Z * Z) * list bool) :=
  match queue with
  | [] => Done (pixels, visited)
  | p :: queue =>
      match fuel with
      | O => OutOfFuel
      | S fuel' =>
          if negb (inRect bounds p.1 p.2)
          then gridFloodFill_loop fuel' bounds colorIndices targetColor queue pixels visited
          else
            let idx := pixelIndex bounds p.1 p.2 in
            if idx >=? Z.of_nat (length colorIndices)
            then gridFloodFill_loop fuel' bounds colorIndices targetColor
                                    queue pixels visited
            else
              let* seen := load visited idx in
              if seen : bool
              then gridFloodFill_loop fuel' bounds colorIndices targetColor
                                      queue pixels visited
              else
                let* c := load colorIndices idx in
                if negb (c =? targetColor)
                then gridFloodFill_loop fuel' bounds colorIndices targetColor
                                        queue pixels visited
                else
                  let* visited := store visited idx true in
                  gridFloodFill_loop fuel' bounds colorIndices targetColor
                    (queue ++ neighbours p) (pixels ++ [p]) visited
      end
  end.

(** [gridFloodFill]: the pixels collected and the updated [visited] slice;
    as in [floodFill], [1 + 4 * len(visited)] rounds are enough. *)
Definition gridFloodFill (startX startY : Z) (colorIndices : list Z)
    (visited : list bool) (bounds : Rectangle)
    : outcome (list (Z * Z) * list bool) :=
  let startIdx := pixelIndex bounds startX startY in
  if startIdx >=? Z.of_nat (length colorIndices) then Done ([], visited)
  else
    let* targetColor := load colorIndices startIdx in
    gridFloodFill_loop (S (4 * length visited)) bounds colorIndices targetColor
                       [(startX, startY)] [] visited.

(** [addGridRegionNumbers] *)
Definition addGridRegionNumbers (img : RGBAImage) (colorIndices : list Z)
    (bounds : Rectangle) : outcome RGBAImage :=
  let result :=
    fold_left (λ result '(x, y), SetPixel result x y (At img x y))
              (pixels bounds) (NewRGBA bounds) in
  let visited := replicate (length colorIndices) false in
  let* (result, _) :=
    foldM (λ '(result, visited) '(x, y),
      let idx := pixelIndex bounds x y in
      let* seen := load visited idx in
      if (seen : bool) || (idx >=? Z.of_nat (length colorIndices))
      then Done (result, visited)
      else
        let* (region, visited) := gridFloodFill x y colorIndices visited bounds in
        if (100 <=? length region)%nat then
          let center := centroidOf region in
          let* c := load colorIndices idx in
          let colorNumber := wrap64 (c + 1) in
          Done (drawNumber result colorNumber center.1 center.2, visited)
        else Done (result, visited))
      (pixels bounds) (result, visited) in
  Done result.

(** [convertToGridPaintByNumbers] *)
Definition convertToGridPaintByNumbers (fuel : nat) (rng : nat -> Z) (img : Image)
    (numColors lineWidth : Z) (showColors : bool)
    : outcome (RGBAImage * list Color) :=
  let bounds := ImgBounds img in
  let* palette := generatePalette fuel rng img numColors in
  let* colorIndices := make 0 (wrap64 (Dx bounds * Dy bounds)) in
  let* (quantized, colorIndices) :=
    foldM (λ '(quantized, colorIndices) '(x, y),
      let nearestIdx := findNearestColor (ImgAt img x y) palette in
      let* colorIndices :=
        store colorIndices (pixelIndex bounds x y) (Z.of_nat nearestIdx) in
      if showColors then
        let* c := index palette nearestIdx in
        Done (SetPixel quantized x y c, colorIndices)
      else Done (SetPixel quantized x y (RGBA8 255 255 255 255), colorIndices))
      (pixels bounds) (NewRGBA bounds, colorIndices) in
  let result :=
    fold_left (λ result '(x, y), SetPixel result x y (At quantized x y))
              (pixels bounds) (NewRGBA bounds) in
  let result :=
    if lineWidth >? 0 then
      fold_left (λ result '(x, y),
                   if isGridBorder x y bounds colorIndices lineWidth
                   then SetPixel result x y (RGBA8 0 0 0 255)
                   else result)
                (pixels bounds) result
    else result in
  if lineWidth <=? 2 then
    let* result := addGridRegionNumbers result colorIndices bounds in
    Done (result, palette)
  else Done (result, palette).

Section WithFloats.
Context {F : Type} {ops : FloatOps F}.

(** [convertToPaintByNumbersWithMode] *)
Definition convertToPaintByNumbersWithMode (rand : nat -> F) (rng : nat -> Z)
    (fuel : nat) (schedule : list nat) (img : Image)
    (numPoints numColors lineWidth : Z) (showColors useVoronoi : bool)
    : outcome (RGBAImage * list Color) :=
  if useVoronoi
  then convertToPaintByNumbersWithParamsAndColors rand rng fuel schedule
         img numPoints numColors lineWidth showColors
  else convertToGridPaintByNumbers fuel rng img numColors lineWidth showColors.

End WithFloats.


End Grid.

(** ** The resizing step and the HTTP front end *)

Module Resize.

Local Open Scope outcome_scope.

Section Downsample.

(** [resizeBilinear], whose interpolation is left open; what is used of it
    is the size of the image it allocates,
    [image.NewRGBA(image.Rect(0, 0, newWidth, newHeight))]. *)
Variable resizeBilinear : Image -> Z -> Z -> Image.

(** [downsampleImage]; the integer divisions panic on a zero divisor. *)
Definition downsampleImage (img : Image) (maxDimension : Z) : outcome Image :=
  let bounds := ImgBounds img in
  let width := Dx bounds in
  let height := Dy bounds in
  if (width <=? maxDimension) && (height <=? maxDimension) then Done img
  else if width >? height then
    if width =? 0 then Panic
    else
      let newWidth := maxDimension in
      let newHeight := Z.quot (wrap64 (height * maxDimension)) width in
      Done (resizeBilinear img newWidth newHeight)
  else
    if height =? 0 then Panic
    else
      let newHeight := maxDimension in
      let newWidth := Z.quot (wrap64 (width * maxDimension)) height in
      Done (resizeBilinear img newWidth newHeight).

End Downsample.

(** [image.Rect(x0, y0, x1, y1)]: the corners are put in order. *)
Definition Rect (x0 y0 x1 y1 : Z) : Rectangle :=
  let '(x0, x1) := if x0 >? x1 then (x1, x0) else (x0, x1) in
  let '(y0, y1) := if y0 >? y1 then (y1, y0) else (y0, y1) in
  mkRect x0 y0 x1 y1.

End Resize.

Module Server.
Import Resize.

Local Open Scope outcome_scope.

Definition maxPoints : Z := 50000.
Definition maxColors : Z := 64.
Definition maxDimension : Z := 4096.

(** What [parseRequest] reads of an [*http.Request]: whether the multipart
    form parses, the uploaded file if there is one, and the form values
    (the empty string for a missing field). *)
Record Request : Type := mkRequest {
  formParses : bool;
  formFile : option (list Z);
  FormValue : string -> string
}.

(** The three ways [parseRequest] fails. *)
Inductive parseError : Type :=
  | FailedToParseForm
  | FailedToGetImage
  | FailedToDecodeImage.

Section ParseRequest.

(** [strconv.Atoi] ([None] for an error), [image.Decode] and
    [downsampleImage] with its resizer fixed. *)
Variable Atoi : string -> option Z.
Variable Decode : list Z -> option Image.
Variable downsample : Image -> Z -> outcome Image.

Definition isEmpty (s : string) : bool :=
  match s with
  | EmptyString => true
  | _ => false
  end.

(** [parseRequest]: the image and the two parameters, or the error. *)
Definition parseRequest (r : Request) : outcome (Image * Z * Z + parseError) :=
  if negb (formParses r) then Done (inr FailedToParseForm)
  else
    match formFile r with
    | None => Done (inr FailedToGetImage)
    | Some file =>
        match Decode file with
        | None => Done (inr FailedToDecodeImage)
        | Some img =>
            let maxDim :=
              let maxDimStr := FormValue r "maxDimension"%string in
              if isEmpty maxDimStr then 2048
              else
                match Atoi maxDimStr with
                | Some md => if (md >? 0) && (md <=? maxDimension) then md else 2048
                | None => 2048
                end in
            let* img := downsample img maxDim in
            let numPoints :=
              let pointsStr := FormValue r "points"%string in
              if isEmpty pointsStr then 2000
              else
                match Atoi pointsStr with
                | Some p =>
                    if p >? 0 then (if p >? maxPoints then maxPoints else p)
                    else 2000
                | None => 2000
                end in
            let numColors :=
              let colorsStr := FormValue r "colors"%string in
              if isEmpty colorsStr then 12
              else
                match Atoi colorsStr with
                | Some c =>
                    if c >? 0 then (if c >? maxColors then maxColors else c)
                    else 12
                | None => 12
                end in
            Done (inl (img, numPoints, numColors))
        end
    end.

End ParseRequest.

End Server.

(** * Properties *)

(** ** Machine numbers *)

Section MachineFacts.

Lemma wrap64_small z : - 2 ^ 63 <= z < 2 ^ 63 -> wrap64 z = z.
Proof.
  intros Hz. unfold wrap64.
  rewrite Z.mod_small by lia. lia.
Qed.

Lemma wrap64_range z : - 2 ^ 63 <= wrap64 z < 2 ^ 63.
Proof.
  unfold wrap64.
  pose proof (Z.mod_pos_bound (z + 2 ^ 63) (2 ^ 64) ltac:(lia)). lia.
Qed.

Lemma float64_small v : - 2 ^ 53 < v < 2 ^ 53 -> float64 v = v.
Proof.
  intros Hv. unfold float64.
  destruct (Z.ltb_spec (Z.abs v) (2 ^ 53)) as [_ | Habs]; [reflexivity | lia].
Qed.

Lemma float64_exact v : - 2 ^ 53 <= v <= 2 ^ 53 -> float64 v = v.
Proof.
  intros Hv.
  destruct (Z.eq_dec v (2 ^ 53)) as [-> | Hne1]; [reflexivity |].
  destruct (Z.eq_dec v (- 2 ^ 53)) as [-> | Hne2]; [reflexivity |].
  apply float64_small. lia.
Qed.

Lemma float64_0 : float64 0 = 0.
Proof. reflexivity. Qed.

(** Rounding keeps a positive value positive: a float of magnitude at least
    2^53 has a mantissa of at least 2^52. *)
Lemma float64_pos v : 0 < v -> 0 < float64 v.
Proof.
  intros Hv. unfold float64.
  rewrite (Z.abs_eq v) by lia.
  destruct (Z.ltb_spec v (2 ^ 53)) as [Hlt | Hge]; [exact Hv |].
  rewrite Z.sgn_pos by exact Hv.
  set (e := Z.log2 v - 52).
  assert (He : 0 <= e).
  { unfold e. assert (53 <= Z.log2 v); [| lia].
    apply Z.log2_le_pow2; lia. }
  assert (Hpow : 0 < 2 ^ e) by (apply Z.pow_pos_nonneg; lia).
  assert (Hq : 0 < v / 2 ^ e).
  { apply Z.div_str_pos. split; [exact Hpow |].
    transitivity (2 ^ Z.log2 v).
    - apply Z.pow_le_mono_r; unfold e; lia.
    - apply Z.log2_spec; lia. }
  destruct (_ || _); nia.
Qed.

Lemma float64_nonneg v : 0 <= v -> 0 <= float64 v.
Proof.
  intros Hv. destruct (Z.eq_dec v 0) as [-> | Hne].
  - rewrite float64_0. lia.
  - pose proof (float64_pos v). lia.
Qed.

Lemma float64_opp v : float64 (- v) = - float64 v.
Proof.
  unfold float64. rewrite Z.abs_opp, Z.sgn_opp.
  destruct (Z.abs v <? 2 ^ 53); [reflexivity |].
  destruct (_ || _); ring.
Qed.

Lemma float64_eq_0 v : float64 v = 0 -> v = 0.
Proof.
  intros Hv. destruct (Z.lt_trichotomy v 0) as [Hneg | [-> | Hpos]].
  - pose proof (float64_pos (- v) ltac:(lia)) as H.
    rewrite float64_opp in H. lia.
  - reflexivity.
  - pose proof (float64_pos v Hpos). lia.
Qed.

End MachineFacts.

(** ** The k-d tree: construction *)

Section KDBuild.
Import KD.

Lemma shiftDown_perm axis key rp : shiftDown axis key rp ≡ₚ key :: rp.
Proof.
  induction rp as [| p rest IH]; simpl; [reflexivity |].
  destruct (coord axis p <=? coord axis key); [reflexivity |].
  rewrite IH. apply Permutation_swap.
Qed.

Lemma shiftDown_sorted axis key rp :
  StronglySorted (axis_ge axis) rp ->
  StronglySorted (axis_ge axis) (shiftDown axis key rp).
Proof.
  induction rp as [| p rest IH]; simpl; intros Hs.
  - repeat constructor.
  - apply StronglySorted_inv in Hs as [Hrest Hall].
    destruct (Z.leb_spec (coord axis p) (coord axis key)) as [Hle | Hgt].
    + constructor; [constructor; assumption |].
      constructor; [exact Hle |].
      eapply Forall_impl; [exact Hall |].
      unfold axis_ge. intros q Hq. lia.
    + constructor; [apply IH; exact Hrest |].
      rewrite shiftDown_perm. constructor; [unfold axis_ge; lia | exact Hall].
Qed.

Lemma sortLoop_perm axis todo : ∀ rp, sortLoop axis rp todo ≡ₚ rp ++ todo.
Proof.
  induction todo as [| key todo IH]; intros rp; simpl.
  - by rewrite app_nil_r.
  - rewrite IH, shiftDown_perm. simpl. apply Permutation_middle.
Qed.

Lemma sortLoop_sorted axis todo : ∀ rp,
  StronglySorted (axis_ge axis) rp ->
  StronglySorted (axis_ge axis) (sortLoop axis rp todo).
Proof.
  induction todo as [| key todo IH]; intros rp Hs; simpl; [exact Hs |].
  apply IH, shiftDown_sorted, Hs.
Qed.

Lemma StronglySorted_rev_flip axis l :
  StronglySorted (axis_ge axis) l -> StronglySorted (axis_le axis) (rev l).
Proof.
  induction 1 as [| p l Hs IH Hall]; simpl; [constructor |].
  apply StronglySorted_app_2; [| exact IH | repeat constructor].
  intros a b Ha Hb. apply list_elem_of_singleton in Hb as ->.
  apply list_elem_of_In, in_rev in Ha. rewrite List.Forall_forall in Hall.
  by apply Hall.
Qed.

Lemma sortPointsByAxis_perm points axis : sortPointsByAxis points axis ≡ₚ points.
Proof.
  destruct points as [| p0 todo]; simpl; [reflexivity |].
  rewrite <- Permutation_rev, sortLoop_perm. reflexivity.
Qed.

Lemma sortPointsByAxis_length points axis :
  length (sortPointsByAxis points axis) = length points.
Proof. apply Permutation_length, sortPointsByAxis_perm. Qed.

Lemma sortPointsByAxis_sorted points axis :
  StronglySorted (axis_le axis) (sortPointsByAxis points axis).
Proof.
  destruct points as [| p0 todo]; simpl; [constructor |].
  apply StronglySorted_rev_flip, sortLoop_sorted. repeat constructor.
Qed.

(** Around the median of a sorted slice. *)
Lemma sorted_split axis sorted m p :
  StronglySorted (axis_le axis) sorted ->
  sorted !! m = Some p ->
  Forall (λ q, coord axis q <= coord axis p) (take m sorted)
  ∧ Forall (λ q, coord axis p <= coord axis q) (drop (S m) sorted).
Proof.
  intros Hs Hm.
  rewrite <- (take_drop_middle sorted m p Hm) in Hs.
  split; apply Forall_forall; intros q Hq.
  - eapply (StronglySorted_app_1_elem_of (axis_le axis)); [exact Hs | exact Hq | left].
  - apply StronglySorted_app_1_r, StronglySorted_inv in Hs as [_ Hall].
    rewrite Forall_forall in Hall. by apply Hall.
Qed.

Lemma buildKDTree_rec_spec fuel : ∀ points depth,
  (length points <= fuel)%nat ->
  kd_inv depth (buildKDTree_rec fuel points depth)
  ∧ elems (buildKDTree_rec fuel points depth) ≡ₚ points.
Proof.
  induction fuel as [| fuel IH]; intros points depth Hlen.
  - destruct points; simpl in *; [done | lia].
  - destruct points as [| p1 [| p2 rest]].
    + done.
    + simpl. repeat split; try done; constructor.
    + set (points := p1 :: p2 :: rest) in *.
      cbn [buildKDTree_rec]. fold points.
      set (axis := Z.of_nat (depth mod 2)).
      set (sorted := sortPointsByAxis points axis).
      assert (Hslen : length sorted = length points)
        by apply sortPointsByAxis_length.
      assert (Hm : (length sorted / 2 < length sorted)%nat).
      { apply Nat.div_lt; [| lia]. rewrite Hslen. simpl. lia. }
      destruct (lookup_lt_is_Some_2 sorted _ Hm) as [p Hp].
      rewrite Hp.
      destruct (sorted_split axis sorted _ p
                  (sortPointsByAxis_sorted points axis) Hp) as [Hl Hr].
      destruct (IH (take (length sorted / 2) sorted) (S depth)) as [Hil Hel].
      { rewrite length_take. lia. }
      destruct (IH (drop (S (length sorted / 2)) sorted) (S depth)) as [Hir Her].
      { rewrite length_drop. lia. }
      split.
      * cbn [kd_inv]. repeat split; try done.
        -- eapply Permutation_Forall; [symmetry; exact Hel | exact Hl].
        -- eapply Permutation_Forall; [symmetry; exact Her | exact Hr].
      * cbn [elems].
        etransitivity; [| apply (sortPointsByAxis_perm points axis)].
        fold sorted.
        etransitivity;
          [apply perm_skip, Permutation_app; [exact Hel | exact Her] |].
        etransitivity; [apply Permutation_middle |].
        by rewrite (take_drop_middle sorted _ p Hp).
Qed.

Lemma NewKDTree_elems points : elems (root (NewKDTree points)) ≡ₚ points.
Proof.
  destruct points as [| p rest]; [reflexivity |].
  apply (buildKDTree_rec_spec _ (p :: rest) 0%nat). lia.
Qed.

Lemma NewKDTree_kd_inv points : kd_inv 0 (root (NewKDTree points)).
Proof.
  destruct points as [| p rest]; [exact I |].
  apply (buildKDTree_rec_spec _ (p :: rest) 0%nat). lia.
Qed.

(** C8: every tree built by [NewKDTree] satisfies the k-d invariant -- the
    left subtree of a node lies at or below the node's coordinate on the
    node's split axis, the right subtree at or above it, and the split axis
    is x at even depth and y at odd depth -- and the tree holds exactly the
    seeds it was built from. *)
Theorem NewKDTree_invariant (points : list Point) :
  kd_inv 0 (root (NewKDTree points))
  ∧ elems (root (NewKDTree points)) ≡ₚ points.
Proof. split; [apply NewKDTree_kd_inv | apply NewKDTree_elems]. Qed.

End KDBuild.

(** ** The k-d tree: nearest-seed search *)

Section KDSearch.
Import KD Voronoi.

(** Whatever the distances are, the best seed is the initial one or a seed of
    the subtree. *)
Lemma findNearestHelper_in t x y : ∀ best,
  (findNearestHelper t x y best).1 = best.1
  ∨ (findNearestHelper t x y best).1 ∈ elems t.
Proof.
  induction t as [| p l IHl r IHr axis]; intros best; [by left |].
  cbn [findNearestHelper elems].
  set (dist := distanceSquared x y (X p) (Y p)).
  set (diff := if axis =? 0 then wrap64 (x - X p) else wrap64 (y - Y p)).
  set (b1 := if dist <? best.2 then (p, dist) else best).
  assert (H1 : b1.1 = best.1 ∨ b1.1 = p)
    by (unfold b1; destruct (dist <? best.2); auto).
  assert (Hstep : ∀ (t' : kdNode) b,
             (b.1 = best.1 ∨ b.1 ∈ p :: elems l ++ elems r) ->
             (t' = l ∨ t' = r) ->
             (findNearestHelper t' x y b).1 = best.1
             ∨ (findNearestHelper t' x y b).1 ∈ p :: elems l ++ elems r).
  { intros t' b Hb [-> | ->].
    - destruct (IHl b) as [-> | Hin]; [exact Hb | right].
      apply elem_of_cons; right. apply elem_of_app; by left.
    - destruct (IHr b) as [-> | Hin]; [exact Hb | right].
      apply elem_of_cons; right. apply elem_of_app; by right. }
  assert (Hb1 : b1.1 = best.1 ∨ b1.1 ∈ p :: elems l ++ elems r).
  { destruct H1 as [-> | ->]; [by left | right; left]. }
  destruct (diff <? 0).
  - pose proof (Hstep l b1 Hb1 (or_introl eq_refl)) as Hb2.
    destruct (float64 (wrap64 (diff * diff)) <? _); [| exact Hb2].
    apply Hstep; [exact Hb2 | by right].
  - pose proof (Hstep r b1 Hb1 (or_intror eq_refl)) as Hb2.
    destruct (float64 (wrap64 (diff * diff)) <? _); [| exact Hb2].
    apply Hstep; [exact Hb2 | by left].
Qed.

Lemma FindNearest_is_seed_index points x y :
  points ≠ [] ->
  ∃ p, p ∈ points ∧ FindNearest (NewKDTree points) x y = Index p.
Proof.
  intros Hne.
  pose proof (NewKDTree_elems points) as Hperm.
  unfold FindNearest.
  destruct (root (NewKDTree points)) as [| p l r axis] eqn:Hroot.
  - simpl in Hperm. apply Permutation_nil in Hperm. congruence.
  - eexists. split; [| reflexivity].
    rewrite <- Hperm.
    destruct (findNearestHelper_in (Node p l r axis) x y
                (p, distanceSquared x y (X p) (Y p))) as [-> | Hin].
    + left.
    + exact Hin.
Qed.

(** C9: when every seed of a list of length [N >= 1] carries an index in
    [0 .. N-1], [FindNearest] on the tree built from the list returns an
    integer in [0 .. N-1] at every query point, so the rasterizer's lookup
    [points[nearestIdx]] is in bounds. *)
Theorem FindNearest_in_bounds (points : list Point) (x y : Z) :
  points ≠ [] ->
  Forall (λ p, 0 <= Index p < Z.of_nat (length points)) points ->
  0 <= FindNearest (NewKDTree points) x y < Z.of_nat (length points)
  ∧ is_Some (points !! Z.to_nat (FindNearest (NewKDTree points) x y)).
Proof.
  intros Hne Hidx.
  destruct (FindNearest_is_seed_index points x y Hne) as (p & Hin & ->).
  rewrite Forall_forall in Hidx. specialize (Hidx p Hin).
  split; [exact Hidx |].
  apply lookup_lt_is_Some_2. lia.
Qed.

Lemma FindNearest_in_bounds_witness :
  let points := [mkPoint 5 1 (RGBA8 0 0 0 255) 0; mkPoint 2 7 (RGBA8 9 9 9 255) 1] in
  0 <= FindNearest (NewKDTree points) 3 3 < 2
  ∧ is_Some (points !! Z.to_nat (FindNearest (NewKDTree points) 3 3)).
Proof.
  intros points.
  apply (FindNearest_in_bounds points 3 3).
  - discriminate.
  - repeat constructor; simpl; lia.
Defined.

End KDSearch.

(** ** The k-d tree against the brute-force scan *)

Section KDNearest.
Import KD Voronoi.

Lemma square_bound d : - 2 ^ 26 <= d <= 2 ^ 26 -> 0 <= d * d <= 2 ^ 52.
Proof. intros Hd. nia. Qed.

(** In range, the float64 distance of the code is the squared distance. *)
Lemma distanceSquared_exact x y p :
  coord_ok x -> coord_ok y -> seed_ok p ->
  distanceSquared x y (X p) (Y p) = sqdist x y p.
Proof.
  unfold seed_ok, coord_ok, distanceSquared, sqdist, fadd, fmul. cbv zeta.
  intros Hx Hy [HX HY].
  rewrite !wrap64_small by lia.
  rewrite (float64_exact (x - X p)), (float64_exact (y - Y p)) by lia.
  pose proof (square_bound (x - X p) ltac:(lia)).
  pose proof (square_bound (y - Y p) ltac:(lia)).
  rewrite (float64_exact ((x - X p) * (x - X p))) by lia.
  rewrite (float64_exact ((y - Y p) * (y - Y p))) by lia.
  rewrite float64_exact by lia. lia.
Qed.

Lemma plane_distance_exact d :
  - 2 ^ 26 <= d <= 2 ^ 26 -> float64 (wrap64 (d * d)) = d * d.
Proof.
  intros Hd. pose proof (square_bound d Hd).
  rewrite wrap64_small, float64_exact; lia.
Qed.

Lemma sqdist_nonneg x y p : 0 <= sqdist x y p.
Proof.
  unfold sqdist. rewrite !Z.pow_2_r.
  pose proof (Z.square_nonneg (x - X p)).
  pose proof (Z.square_nonneg (y - Y p)). lia.
Qed.

(** The pruning argument: a seed beyond the splitting plane is at least as
    far as the plane. *)
Lemma beyond_plane x y axis p q :
  let d := (if axis =? 0 then x - X p else y - Y p) in
  (d < 0 -> coord axis p <= coord axis q) ->
  (0 <= d -> coord axis q <= coord axis p) ->
  d * d <= sqdist x y q.
Proof.
  assert (Hsq : ∀ a b, a < 0 ∧ b <= a ∨ 0 <= a ∧ a <= b -> a * a <= b * b).
  { intros a b [[Ha Hab] | [Ha Hab]].
    - pose proof (Z.mul_le_mono_nonneg (- a) (- b) (- a) (- b)). lia.
    - pose proof (Z.mul_le_mono_nonneg a b a b). lia. }
  unfold coord, sqdist. rewrite !Z.pow_2_r.
  destruct (axis =? 0); cbv zeta; intros H1 H2.
  - pose proof (Hsq (x - X p) (x - X q)).
    pose proof (Z.square_nonneg (y - Y q)). lia.
  - pose proof (Hsq (y - Y p) (y - Y q)).
    pose proof (Z.square_nonneg (x - X q)). lia.
Qed.

Lemma findNearestHelper_spec x y (Hx : coord_ok x) (Hy : coord_ok y) t :
  ∀ depth best,
    kd_inv depth t -> Forall seed_ok (elems t) -> best_ok x y best ->
    let res := findNearestHelper t x y best in
    best_ok x y res ∧ res.2 <= best.2
    ∧ Forall (λ q, res.2 <= sqdist x y q) (elems t).
Proof.
  induction t as [| p l IHl r IHr axis]; intros depth best Hinv Hok Hbest.
  { simpl. repeat split; [exact Hbest | lia | constructor]. }
  cbn [kd_inv] in Hinv. destruct Hinv as (_ & Hleft & Hright & Hil & Hir).
  cbn [elems] in Hok. apply Forall_cons in Hok as [Hp Hok].
  apply Forall_app in Hok as [Hokl Hokr].
  cbn [findNearestHelper elems]. cbv zeta.
  rewrite (distanceSquared_exact x y p Hx Hy Hp).
  set (b1 := if sqdist x y p <? best.2 then (p, sqdist x y p) else best).
  assert (Hb1 : best_ok x y b1 ∧ b1.2 <= best.2 ∧ b1.2 <= sqdist x y p).
  { unfold b1. destruct (Z.ltb_spec (sqdist x y p) best.2);
      repeat split; simpl; try done; lia. }
  destruct Hb1 as (Hb1ok & Hb1le & Hb1p).
  set (d := if axis =? 0 then x - X p else y - Y p).
  assert (Hd : - 2 ^ 26 <= d <= 2 ^ 26).
  { unfold d, seed_ok, coord_ok in *. destruct (axis =? 0); lia. }
  replace (if axis =? 0 then wrap64 (x - X p) else wrap64 (y - Y p)) with d
    by (unfold d, seed_ok, coord_ok in *;
        destruct (axis =? 0); rewrite wrap64_small; lia).
  rewrite (plane_distance_exact d Hd).
  assert (Hfar : ∀ q, (d < 0 -> q ∈ elems r) -> (0 <= d -> q ∈ elems l) ->
                      d * d <= sqdist x y q).
  { intros q Hq1 Hq2. apply (beyond_plane x y axis p q); fold d; intros Hsgn.
    - rewrite Forall_forall in Hright. apply Hright, Hq1, Hsgn.
    - rewrite Forall_forall in Hleft. apply Hleft, Hq2, Hsgn. }
  destruct (Z.ltb_spec d 0) as [Hneg | Hpos].
  - destruct (IHl (S depth) b1 Hil Hokl Hb1ok) as (H2ok & H2le & H2all).
    set (b2 := findNearestHelper l x y b1) in *.
    destruct (Z.ltb_spec (d * d) b2.2) as [Hsearch | Hprune].
    + destruct (IHr (S depth) b2 Hir Hokr H2ok) as (H3ok & H3le & H3all).
      repeat split; [exact H3ok | lia |].
      constructor; [lia |]. apply Forall_app; split; [| exact H3all].
      eapply Forall_impl; [exact H2all |]. simpl. intros; lia.
    + repeat split; [exact H2ok | lia |].
      constructor; [lia |]. apply Forall_app; split; [exact H2all |].
      apply Forall_forall. intros q Hq.
      specialize (Hfar q (λ _, Hq) ltac:(lia)). lia.
  - destruct (IHr (S depth) b1 Hir Hokr Hb1ok) as (H2ok & H2le & H2all).
    set (b2 := findNearestHelper r x y b1) in *.
    destruct (Z.ltb_spec (d * d) b2.2) as [Hsearch | Hprune].
    + destruct (IHl (S depth) b2 Hil Hokl H2ok) as (H3ok & H3le & H3all).
      repeat split; [exact H3ok | lia |].
      constructor; [lia |]. apply Forall_app; split; [exact H3all |].
      eapply Forall_impl; [exact H2all |]. simpl. intros; lia.
    + repeat split; [exact H2ok | lia |].
      constructor; [lia |]. apply Forall_app; split; [| exact H2all].
      apply Forall_forall. intros q Hq.
      specialize (Hfar q ltac:(lia) (λ _, Hq)). lia.
Qed.

(** The brute-force loop: after the scan of [done ++ rest] the recorded
    position holds a seed at the least distance. *)
Lemma findNearestPoint_loop_spec x y (Hx : coord_ok x) (Hy : coord_ok y) rest :
  ∀ done minDist nearest,
    Forall seed_ok rest ->
    (done = [] ∧ minDist = MaxFloat64
     ∨ ∃ b, done !! nearest = Some b ∧ minDist = sqdist x y b
            ∧ Forall (λ q, minDist <= sqdist x y q) done) ->
    done ++ rest ≠ [] ->
    ∃ b, (done ++ rest) !! findNearestPoint_loop x y rest (length done) minDist nearest
         = Some b
         ∧ Forall (λ q, sqdist x y b <= sqdist x y q) (done ++ rest).
Proof.
  induction rest as [| p rest IH]; intros done minDist nearest Hok Hstate Hne.
  - rewrite app_nil_r in *. simpl.
    destruct Hstate as [[-> _] | (b & Hb & -> & Hall)]; [done |].
    exists b. split; [exact Hb | exact Hall].
  - apply Forall_cons in Hok as [Hp Hok].
    cbn [findNearestPoint_loop]. cbv zeta.
    change (fadd (fmul (float64 (wrap64 (x - X p))) (float64 (wrap64 (x - X p))))
                 (fmul (float64 (wrap64 (y - Y p))) (float64 (wrap64 (y - Y p)))))
      with (distanceSquared x y (X p) (Y p)).
    rewrite (distanceSquared_exact x y p Hx Hy Hp).
    assert (Hsmall : sqdist x y p < MaxFloat64).
    { unfold sqdist, seed_ok, coord_ok in *.
      pose proof (square_bound (x - X p) ltac:(lia)).
      pose proof (square_bound (y - Y p) ltac:(lia)).
      assert (2 ^ 53 < MaxFloat64) by (vm_compute; reflexivity). lia. }
    replace (done ++ p :: rest) with ((done ++ [p]) ++ rest)
      by (by rewrite <- app_assoc).
    replace (S (length done)) with (length (done ++ [p]))
      by (rewrite length_app; simpl; lia).
    destruct (Z.ltb_spec (sqdist x y p) minDist) as [Hlt | Hge].
    + apply IH; [exact Hok | | by destruct done].
      right. exists p. split; [| split; [reflexivity |]].
      * rewrite lookup_app_r by lia. by rewrite Nat.sub_diag.
      * apply Forall_app; split; [| repeat constructor; lia].
        destruct Hstate as [[-> _] | (b & _ & -> & Hall)]; [constructor |].
        eapply Forall_impl; [exact Hall |]. simpl. intros; lia.
    + apply IH; [exact Hok | | by destruct done].
      destruct Hstate as [[_ ->] | (b & Hb & -> & Hall)]; [lia |].
      right. exists b. split; [| split; [reflexivity |]].
      * apply lookup_app_l_Some. exact Hb.
      * apply Forall_app; split; [exact Hall | repeat constructor; lia].
Qed.

Lemma findNearestPoint_spec x y points :
  coord_ok x -> coord_ok y -> Forall seed_ok points -> points ≠ [] ->
  ∃ b, points !! findNearestPoint x y points = Some b
       ∧ Forall (λ q, sqdist x y b <= sqdist x y q) points.
Proof.
  intros Hx Hy Hok Hne.
  apply (findNearestPoint_loop_spec x y Hx Hy points [] MaxFloat64 0%nat);
    [exact Hok | by left | exact Hne].
Qed.

(** C1 (in the exact range): for a non-empty seed list and a query point,
    all with coordinates of magnitude at most 2^25, [FindNearest] returns the
    index of a seed whose squared Euclidean distance to the query is the
    minimum over the list, and the seed found by the brute-force scan
    [findNearestPoint] lies at that same distance. *)
Theorem FindNearest_minimal (points : list Point) (x y : Z) :
  points ≠ [] -> coord_ok x -> coord_ok y -> Forall seed_ok points ->
  ∃ p, p ∈ points
       ∧ FindNearest (NewKDTree points) x y = Index p
       ∧ Forall (λ q, sqdist x y p <= sqdist x y q) points
       ∧ ∃ b, points !! findNearestPoint x y points = Some b
              ∧ sqdist x y b = sqdist x y p.
Proof.
  intros Hne Hx Hy Hok.
  pose proof (NewKDTree_kd_inv points) as Hinv.
  pose proof (NewKDTree_elems points) as Hperm.
  unfold FindNearest.
  destruct (root (NewKDTree points)) as [| p0 l r axis] eqn:Hroot.
  { simpl in Hperm. apply Permutation_nil in Hperm. congruence. }
  set (t := Node p0 l r axis) in *.
  assert (Hokt : Forall seed_ok (elems t))
    by (eapply Permutation_Forall; [symmetry; exact Hperm | exact Hok]).
  assert (Hp0 : seed_ok p0) by (by apply Forall_cons in Hokt as [? _]).
  set (best := (p0, distanceSquared x y (X p0) (Y p0))).
  assert (Hbest : best_ok x y best)
    by (unfold best_ok, best; simpl; by apply distanceSquared_exact).
  destruct (findNearestHelper_spec x y Hx Hy t 0%nat best Hinv Hokt Hbest)
    as (Hres & _ & Hall).
  set (res := findNearestHelper t x y best) in *.
  assert (Hin : res.1 ∈ elems t).
  { destruct (findNearestHelper_in t x y best) as [Heq | Hin]; [| exact Hin].
    fold res in Heq. rewrite Heq. left. }
  assert (Hmin : Forall (λ q, sqdist x y res.1 <= sqdist x y q) points).
  { eapply Permutation_Forall; [exact Hperm |].
    eapply Forall_impl; [exact Hall |]. simpl. unfold best_ok in Hres.
    intros q Hq. lia. }
  exists res.1. split; [by rewrite <- Hperm |].
  split; [reflexivity |]. split; [exact Hmin |].
  destruct (findNearestPoint_spec x y points Hx Hy Hok Hne) as (b & Hb & Hbmin).
  exists b. split; [exact Hb |].
  rewrite Forall_forall in Hmin, Hbmin.
  assert (Hbin : b ∈ points) by (eapply list_elem_of_lookup_2; exact Hb).
  assert (Hrin : res.1 ∈ points) by (by rewrite <- Hperm).
  pose proof (Hmin b Hbin). pose proof (Hbmin res.1 Hrin). lia.
Qed.

Lemma FindNearest_minimal_witness :
  let points := [mkPoint 5 1 (RGBA8 0 0 0 255) 0; mkPoint 2 7 (RGBA8 9 9 9 255) 1;
                 mkPoint (-4) 3 (RGBA8 1 2 3 255) 2] in
  ∃ p, p ∈ points
       ∧ FindNearest (NewKDTree points) 3 3 = Index p
       ∧ Forall (λ q, sqdist 3 3 p <= sqdist 3 3 q) points
       ∧ ∃ b, points !! findNearestPoint 3 3 points = Some b
              ∧ sqdist 3 3 b = sqdist 3 3 p.
Proof.
  intros points.
  apply (FindNearest_minimal points 3 3).
  - discriminate.
  - unfold coord_ok. lia.
  - unfold coord_ok. lia.
  - repeat constructor; simpl; lia.
Defined.

(** C1 fails outside that range.  With the seeds (0,0) and (2^62,0) and the
    query (-2^63, 0), the [int] subtraction [x - 2^62] wraps to [2^62]: the
    far seed is measured at 2^124, the near one at 2^126, and [FindNearest]
    answers with the far seed. *)
Lemma FindNearest_wraps :
  let near := mkPoint 0 0 (RGBA8 0 0 0 255) 0 in
  let far := mkPoint (2 ^ 62) 0 (RGBA8 0 0 0 255) 1 in
  let x := - 2 ^ 63 in
  FindNearest (NewKDTree [near; far]) x 0 = Index far
  ∧ sqdist x 0 near < sqdist x 0 far
  ∧ ¬ ∃ p, p ∈ [near; far]
           ∧ FindNearest (NewKDTree [near; far]) x 0 = Index p
           ∧ Forall (λ q, sqdist x 0 p <= sqdist x 0 q) [near; far].
Proof.
  intros near far x.
  assert (Hres : FindNearest (NewKDTree [near; far]) x 0 = 1)
    by (vm_compute; reflexivity).
  assert (Hlt : sqdist x 0 near < sqdist x 0 far) by (vm_compute; reflexivity).
  split; [exact Hres |]. split; [exact Hlt |].
  intros (p & Hin & Hidx & Hall).
  rewrite Hres in Hidx.
  assert (p = far) as ->.
  { apply elem_of_cons in Hin as [-> | Hin]; [discriminate Hidx |].
    by apply list_elem_of_singleton in Hin. }
  apply Forall_cons in Hall as [Hle _]. lia.
Qed.

End KDNearest.

(** ** Quantizer *)

Section Quantizer.
Import Palette.

Lemma fmul_square_nonneg d : 0 <= fmul d d.
Proof. apply float64_nonneg, Z.square_nonneg. Qed.

Lemma fmul_square_eq_0 d : fmul d d = 0 -> d = 0.
Proof. intros H. apply float64_eq_0 in H. nia. Qed.

Lemma fadd_nonneg a b : 0 <= a -> 0 <= b -> 0 <= fadd a b.
Proof. intros. apply float64_nonneg. lia. Qed.

Lemma fadd_eq_0 a b : 0 <= a -> 0 <= b -> fadd a b = 0 -> a = 0 ∧ b = 0.
Proof. intros Ha Hb H. apply float64_eq_0 in H. lia. Qed.

Lemma colorDistanceSquared_nonneg c p : 0 <= colorDistanceSquared c p.
Proof.
  unfold colorDistanceSquared.
  destruct (RGBA c) as [[[r1 g1] b1] a1], (RGBA p) as [[[r2 g2] b2] a2].
  repeat apply fadd_nonneg; apply fmul_square_nonneg.
Qed.

Lemma colorDistanceSquared_self c : colorDistanceSquared c c = 0.
Proof.
  unfold colorDistanceSquared, fsub.
  destruct (RGBA c) as [[[r g] b] a].
  by rewrite !Z.sub_diag.
Qed.

(** Two palette entries at distance zero are at the same distance from any
    colour: they agree on the three channels the distance reads. *)
Lemma colorDistanceSquared_zero p q c :
  colorDistanceSquared p q = 0 ->
  colorDistanceSquared c p = colorDistanceSquared c q.
Proof.
  unfold colorDistanceSquared.
  destruct (RGBA c) as [[[r g] b] a], (RGBA p) as [[[r1 g1] b1] a1],
           (RGBA q) as [[[r2 g2] b2] a2].
  intros H.
  apply fadd_eq_0 in H as [H Hb];
    [| apply fadd_nonneg; apply fmul_square_nonneg | apply fmul_square_nonneg].
  apply fadd_eq_0 in H as [Hr Hg]; [| apply fmul_square_nonneg ..].
  apply fmul_square_eq_0, float64_eq_0 in Hr, Hg, Hb.
  assert (float64 r1 = float64 r2) as -> by lia.
  assert (float64 g1 = float64 g2) as -> by lia.
  assert (float64 b1 = float64 b2) as -> by lia.
  reflexivity.
Qed.

Lemma findNearestColor_loop_spec c rest : ∀ done minDist nearest,
  (nearest = 0%nat ∧ minDist = MaxFloat64
   ∧ (∀ j q, done !! j = Some q -> MaxFloat64 <= colorDistanceSquared c q)
   ∨ ∃ p, done !! nearest = Some p ∧ minDist = colorDistanceSquared c p
          ∧ (∀ j q, done !! j = Some q -> minDist <= colorDistanceSquared c q)
          ∧ (∀ j q, (j < nearest)%nat -> done !! j = Some q ->
                    minDist < colorDistanceSquared c q)) ->
  first_min c (done ++ rest)
    (findNearestColor_loop c rest (length done) minDist nearest).
Proof.
  induction rest as [| p rest IH]; intros done minDist nearest Hstate.
  - rewrite app_nil_r. simpl.
    destruct Hstate as [(-> & -> & Hall) | (b & Hb & -> & Hall & Hfirst)].
    + right. by split.
    + left. exists b. by repeat split.
  - cbn [findNearestColor_loop]. cbv zeta.
    replace (done ++ p :: rest) with ((done ++ [p]) ++ rest)
      by (by rewrite <- app_assoc).
    replace (S (length done)) with (length (done ++ [p]))
      by (rewrite length_app; simpl; lia).
    assert (Hsnoc : ∀ j q, (done ++ [p]) !! j = Some q ->
                           done !! j = Some q ∨ (j = length done ∧ q = p)).
    { intros j q Hj. apply lookup_app_Some in Hj as [Hj | [Hlen Hj]]; [by left |].
      right. apply list_lookup_singleton_Some in Hj as [Hj ->]. split; [lia | done]. }
    destruct (Z.ltb_spec (colorDistanceSquared c p) minDist) as [Hlt | Hge];
      apply IH.
    + right. exists p. split; [| split; [reflexivity | split]].
      * rewrite lookup_app_r by lia. by rewrite Nat.sub_diag.
      * intros j q Hj. apply Hsnoc in Hj as [Hj | [_ ->]]; [| lia].
        destruct Hstate as [(_ & -> & Hall) | (b & _ & -> & Hall & _)];
          specialize (Hall j q Hj); lia.
      * intros j q Hlen Hj. apply Hsnoc in Hj as [Hj | [-> _]]; [| lia].
        destruct Hstate as [(_ & -> & Hall) | (b & _ & -> & Hall & _)];
          specialize (Hall j q Hj); lia.
    + destruct Hstate as [(-> & -> & Hall) | (b & Hb & -> & Hall & Hfirst)].
      * left. repeat split; try done.
        intros j q Hj. apply Hsnoc in Hj as [Hj | [_ ->]]; [by eapply Hall | lia].
      * right. exists b. split; [by apply lookup_app_l_Some |].
        split; [reflexivity | split].
        -- intros j q Hj. apply Hsnoc in Hj as [Hj | [_ ->]]; [by eapply Hall | lia].
        -- intros j q Hlt Hj. apply Hsnoc in Hj as [Hj | [-> ->]];
             [by eapply Hfirst |].
           apply lookup_lt_Some in Hb. lia.
Qed.

Lemma findNearestColor_spec c palette :
  first_min c palette (findNearestColor c palette).
Proof.
  apply (findNearestColor_loop_spec c palette [] MaxFloat64 0%nat).
  left. repeat split. intros j q Hj. by rewrite lookup_nil in Hj.
Qed.

Lemma MaxFloat64_pos : 0 < MaxFloat64.
Proof. reflexivity. Qed.

(** The entry chosen for a colour is its own nearest entry. *)
Lemma findNearestColor_fixed c palette p :
  palette !! findNearestColor c palette = Some p ->
  findNearestColor p palette = findNearestColor c palette.
Proof.
  intros Hp.
  set (r := findNearestColor c palette) in *.
  pose proof (findNearestColor_spec p palette) as Hr'.
  set (r' := findNearestColor p palette) in *.
  pose proof MaxFloat64_pos as HM.
  pose proof (colorDistanceSquared_self p) as Hself.
  destruct Hr' as [(p' & Hp' & Hmin' & Hfirst') | [_ Hall]].
  2: { specialize (Hall r p Hp). lia. }
  assert (Hzero : colorDistanceSquared p p' = 0).
  { specialize (Hmin' r p Hp). pose proof (colorDistanceSquared_nonneg p p'). lia. }
  assert (Hle : (r' <= r)%nat).
  { destruct (Nat.le_gt_cases r' r) as [? | Hgt]; [done |].
    specialize (Hfirst' r p Hgt Hp). lia. }
  destruct (Nat.eq_dec r' r) as [? | Hne]; [done | exfalso].
  assert (Hlt : (r' < r)%nat) by lia.
  pose proof (colorDistanceSquared_zero p p' c Hzero) as Hsame.
  destruct (findNearestColor_spec c palette) as [(q & Hq & _ & Hfirst) | [Hr0 _]];
    fold r in Hq, Hfirst || fold r in Hr0.
  - rewrite Hp in Hq. injection Hq as <-.
    specialize (Hfirst r' p' Hlt Hp'). lia.
  - lia.
Qed.

Lemma findNearestColor_in_range c palette :
  palette ≠ [] -> is_Some (palette !! findNearestColor c palette).
Proof.
  intros Hne.
  destruct (findNearestColor_spec c palette) as [(p & Hp & _) | [-> _]]; [by eexists |].
  destruct palette; [done | by eexists].
Qed.

Lemma quantizePoints_total palette points :
  palette ≠ [] -> ∃ quantized, quantizePoints points palette = Done quantized.
Proof.
  intros Hne. induction points as [| p rest [quantized IH]]; [by eexists |].
  destruct (findNearestColor_in_range (PColor p) palette Hne) as [c Hc].
  cbn [quantizePoints]. unfold index. rewrite Hc. cbn [obind]. rewrite IH.
  by eexists.
Qed.

Lemma quantizePoints_fixed palette : ∀ points quantized,
  quantizePoints points palette = Done quantized ->
  quantizePoints quantized palette = Done quantized
  ∧ map X quantized = map X points
  ∧ map Y quantized = map Y points
  ∧ map Index quantized = map Index points
  ∧ Forall (λ q, PColor q ∈ palette) quantized.
Proof.
  induction points as [| p rest IH]; intros quantized Hq.
  - injection Hq as <-. repeat split; constructor.
  - cbn [quantizePoints] in Hq. unfold index in Hq.
    destruct (palette !! findNearestColor (PColor p) palette) as [c |] eqn:Hc;
      [| discriminate].
    cbn [obind] in Hq.
    destruct (quantizePoints rest palette) as [qrest | |]; try discriminate.
    injection Hq as <-.
    destruct (IH qrest eq_refl) as (Hfix & HX & HY & HI & Hin).
    repeat split.
    + cbn [quantizePoints PColor X Y Index]. unfold index.
      rewrite (findNearestColor_fixed _ _ _ Hc), Hc. cbn [obind].
      by rewrite Hfix.
    + simpl. by rewrite HX.
    + simpl. by rewrite HY.
    + simpl. by rewrite HI.
    + constructor; [| exact Hin]. simpl. by eapply list_elem_of_lookup_2.
Qed.

(** C4: quantization is idempotent.  For every palette and seed list,
    quantizing the result of a quantization against the same palette returns
    it unchanged, seed by seed; each pass keeps coordinates and indices and
    installs palette entries as colours; and a pass returns whenever the
    palette is non-empty. *)
Theorem quantizePoints_idempotent (palette : list Color) (points : list Point) :
  (palette ≠ [] -> ∃ quantized, quantizePoints points palette = Done quantized)
  ∧ obind (quantizePoints points palette) (λ q, quantizePoints q palette)
    = quantizePoints points palette
  ∧ ∀ quantized, quantizePoints points palette = Done quantized ->
      quantizePoints quantized palette = Done quantized
      ∧ map X quantized = map X points
      ∧ map Y quantized = map Y points
      ∧ map Index quantized = map Index points
      ∧ Forall (λ q, PColor q ∈ palette) quantized.
Proof.
  split; [apply quantizePoints_total |].
  split; [| apply quantizePoints_fixed].
  destruct (quantizePoints points palette) as [quantized | |] eqn:Hq; try done.
  simpl. by apply quantizePoints_fixed in Hq as [-> _].
Qed.

End Quantizer.

(** ** Palette builder on a single repeated colour *)

Section SingleColor.
Import Palette.

Variable c : Color.














End SingleColor.

Section Slate.
Import Palette.






End Slate.

(** ** Border renderer *)

Section BorderWidth.
Import Border.

(** The renderer does paint: on a 4x1 strip split between two seeds, width 1
    blackens the two pixels that face the other region. *)
Example borders_width_one :
  let red := RGBA8 255 0 0 255 in
  let blue := RGBA8 0 0 255 255 in
  let strip := mkRect 0 0 4 1 in
  let seeds := [mkPoint 0 0 red 0; mkPoint 3 0 blue 1] in
  let raster := fold_left (λ im '(x, y), SetPixel im x y (if x <? 2 then red else blue))
                          (pixels strip) (NewRGBA strip) in
  map (λ '(x, y), At (addVoronoiBordersWithWidth raster seeds 1) x y) (pixels strip)
  = [red; RGBA8 0 0 0 255; RGBA8 0 0 0 255; blue].
Proof. vm_compute. reflexivity. Qed.

(** C7: with width 0 the border renderer returns its input image: the
    result is the very image passed in, so every pixel reads as before and
    no black pixel is added. *)
Theorem borders_width_zero (img : RGBAImage) (points : list Point) :
  addVoronoiBordersWithWidth img points 0 = img
  ∧ ∀ x y, At (addVoronoiBordersWithWidth img points 0) x y = At img x y.
Proof. split; [reflexivity | intros x y; reflexivity]. Qed.

End BorderWidth.

(** ** Entry point *)

Section Validation.
Import Entry.

Variable pipeline : Request -> outcome ProcessResult.

Ltac run_validation :=
  unfold processImage, call, points_ok, colors_ok, width_ok, dimension_ok in *;
  cbn [length Nat.ltb Nat.leb index lookup list_lookup obind Int Bool];
  repeat match goal with
         | |- context [?a <? ?b] => destruct (Z.ltb_spec a b)
         | |- context [?a >? ?b] => rewrite (Z.gtb_ltb a b)
         end;
  cbn [orb]; try reflexivity; try lia.

(** C2 (with the bounds of the code): [processImage] hands a request to the
    pipeline when the point count is in 50..50000, the palette size in
    2..64, the border width in 0..5 and the maximum dimension in 256..4096;
    otherwise it returns, without entering the pipeline, the error result
    whose message names the first violated bound. *)
Theorem processImage_validation (data : list Z) (N K W D : Z) (colors voronoi : bool) :
  let args := call data N K W D colors voronoi in
  let reject msg := processImage pipeline args = Done (createErrorResult msg) in
  (points_ok N -> colors_ok K -> width_ok W -> dimension_ok D ->
   processImage pipeline args
   = pipeline (mkRequest (JSBytes data) N K W D colors voronoi))
  ∧ (¬ points_ok N -> reject "Points must be between 50 and 50000"%string)
  ∧ (points_ok N -> ¬ colors_ok K -> reject "Colors must be between 2 and 64"%string)
  ∧ (points_ok N -> colors_ok K -> ¬ width_ok W ->
     reject "Line width must be between 0 and 5"%string)
  ∧ (points_ok N -> colors_ok K -> width_ok W -> ¬ dimension_ok D ->
     reject "Max dimension must be between 256 and 4096"%string).
Proof.
  intros args reject. subst args reject. cbv beta.
  repeat split; intros; run_validation.
Qed.

End Validation.

Section ValidationCases.
Import Entry.

(** C2 as stated fails: a request for 10 points, inside 1..50000, is turned
    down with the message for the point count and never reaches the
    pipeline. *)
Lemma processImage_rejects_ten_points :
  let pipeline := λ _ : Request, Done (mkResult "png"%string [] ""%string) in
  let args := call [137; 80; 78; 71] 10 12 1 2048 true true in
  processImage pipeline args
  = Done (createErrorResult "Points must be between 50 and 50000"%string)
  ∧ processImage pipeline args
    ≠ pipeline (mkRequest (JSBytes [137; 80; 78; 71]) 10 12 1 2048 true true).
Proof. split; [reflexivity | discriminate]. Qed.

(** The same request with 50 points is served. *)
Example processImage_accepts_fifty_points :
  let pipeline := λ _ : Request, Done (mkResult "png"%string [] ""%string) in
  processImage pipeline (call [137; 80; 78; 71] 50 12 1 2048 true true)
  = Done (mkResult "png"%string [] ""%string).
Proof. reflexivity. Qed.

End ValidationCases.

(** ** Adaptive sampler *)

Section Loops.
Import Sampler.

Lemma elem_of_zrange lo hi a : a ∈ zrange lo hi ↔ lo <= a < hi.
Proof.
  unfold zrange. rewrite list_elem_of_In, in_map_iff. split.
  - intros (i & <- & Hi). apply in_seq in Hi. lia.
  - intros Ha. exists (Z.to_nat (a - lo)). split; [lia |].
    apply in_seq. lia.
Qed.


Lemma zrange_length lo hi : length (zrange lo hi) = Z.to_nat (hi - lo).
Proof. unfold zrange. by rewrite length_map, length_seq. Qed.

(** A loop whose body keeps an invariant and never panics returns, with the
    invariant. *)
Lemma foldM_invariant {A St : Type} (P : St -> Prop) (f : St -> A -> outcome St) l :
  ∀ s, P s ->
    (∀ s a, a ∈ l -> P s -> ∃ s', f s a = Done s' ∧ P s') ->
    ∃ s', foldM f l s = Done s' ∧ P s'.
Proof.
  induction l as [| a rest IH]; intros s Hs Hstep; [by exists s |].
  destruct (Hstep s a ltac:(left) Hs) as (s1 & Hf & Hs1).
  cbn [foldM]. rewrite Hf. cbn [obind].
  apply IH; [exact Hs1 |].
  intros s2 b Hb. apply Hstep. by right.
Qed.


Lemma store_spec {A : Type} (s : list A) i v :
  0 <= i < Z.of_nat (length s) ->
  store s i v = Done (<[Z.to_nat i := v]> s).
Proof.
  intros Hi. unfold store.
  destruct (Z.leb_spec 0 i); [| lia].
  destruct (Z.ltb_spec i (Z.of_nat (length s))); [reflexivity | lia].
Qed.


Lemma make_spec {A : Type} (z : A) n :
  0 <= n -> make z n = Done (replicate (Z.to_nat n) z).
Proof. intros Hn. unfold make. destruct (Z.ltb_spec n 0); [lia | reflexivity]. Qed.

(** Row-major indexing stays inside a [width * height] slice. *)
Lemma row_major_bound w h x y :
  0 <= x < w -> 0 <= y < h -> 0 <= y * w + x < w * h.
Proof. intros Hx Hy. nia. Qed.

End Loops.

Section SamplerFacts.
Import Sampler.
Context {F : Type} {ops : FloatOps F}.
Variable rand : nat -> F.






End SamplerFacts.

Section SamplerCases.
Import Sampler.



End SamplerCases.

(** ** The k-d tree built in place *)

Section InPlaceFacts.
Import KD.

Implicit Types (mem : gmap nat (list Point)) (s : InPlace.Slice).

Lemma read_at mem s i arr v :
  mem !! InPlace.base s = Some arr -> (i < InPlace.len s)%nat ->
  arr !! (InPlace.off s + i)%nat = Some v ->
  InPlace.read mem s i = Done v.
Proof.
  intros Harr Hi Hv. unfold InPlace.read, index.
  destruct (Nat.ltb_spec i (InPlace.len s)); [| lia].
  by rewrite Harr, Hv.
Qed.

Lemma write_at mem s i arr v :
  mem !! InPlace.base s = Some arr -> (i < InPlace.len s)%nat ->
  (InPlace.off s + i < length arr)%nat ->
  InPlace.write mem s i v
  = Done (<[InPlace.base s := <[(InPlace.off s + i)%nat := v]> arr]> mem).
Proof.
  intros Harr Hi Hlen. unfold InPlace.write.
  destruct (Nat.ltb_spec i (InPlace.len s)); [| lia].
  rewrite Harr.
  by destruct (Nat.ltb_spec (InPlace.off s + i) (length arr)); [| lia].
Qed.

(** Element [|front| + |lo|] of [front ++ lo ++ x :: rest]. *)
Lemma lookup_middle (front lo : list Point) x rest :
  (front ++ lo ++ x :: rest) !! (length front + length lo)%nat = Some x.
Proof.
  rewrite lookup_app_r by lia.
  rewrite lookup_app_r by lia.
  replace (length front + length lo - length front - length lo)%nat with 0%nat by lia.
  reflexivity.
Qed.

Lemma insert_middle (front lo : list Point) x y rest :
  <[(length front + length lo)%nat := y]> (front ++ lo ++ x :: rest)
  = front ++ lo ++ y :: rest.
Proof.
  rewrite insert_app_r_alt by lia.
  rewrite insert_app_r_alt by lia.
  replace (length front + length lo - length front - length lo)%nat with 0%nat by lia.
  reflexivity.
Qed.

(** The functional walk, read on the unreversed prefix [lo ++ hi]: it
    passes the larger elements [hi] and stops at the end of [lo]. *)
Lemma shiftDown_split axis key lo hi :
  Forall (λ p, coord axis key < coord axis p) hi ->
  (lo = [] ∨ ∃ lo' p, lo = lo' ++ [p] ∧ coord axis p <= coord axis key) ->
  shiftDown axis key (rev (lo ++ hi)) = rev hi ++ key :: rev lo.
Proof.
  intros Hhi Hlo. rewrite rev_app_distr.
  assert (Hrev : Forall (λ p, coord axis key < coord axis p) (rev hi)).
  { apply Forall_forall. intros p Hp. rewrite Forall_forall in Hhi.
    apply Hhi. apply list_elem_of_In. apply list_elem_of_In, in_rev in Hp.
    exact Hp. }
  induction Hrev as [| p rest Hp _ IH]; simpl.
  - destruct Hlo as [-> | (lo' & p & -> & Hp)]; [reflexivity |].
    rewrite rev_app_distr. simpl.
    by destruct (Z.leb_spec (coord axis p) (coord axis key)); [| lia].
  - destruct (Z.leb_spec (coord axis p) (coord axis key)); [lia |].
    by rewrite IH.
Qed.

(** The in-place inner loop.  The slice shows [lo ++ hole :: hi ++ post]:
    slot [|lo|] is free, [hi] has been moved up.  The loop moves the tail
    [mid] of [lo] up as well and stops with the free slot at [|lo'|]. *)
Lemma shiftLoop_spec axis s key front post back : ∀ lo hi hole mem,
  mem !! InPlace.base s = Some (front ++ lo ++ hole :: hi ++ post ++ back) ->
  InPlace.off s = length front ->
  InPlace.len s = (length lo + 1 + length hi + length post)%nat ->
  Forall (λ p, coord axis key < coord axis p) hi ->
  ∃ lo' mid hole',
    lo = lo' ++ mid
    ∧ InPlace.shiftLoop axis s key (length lo) mem
      = Done (length lo',
              <[InPlace.base s := front ++ lo' ++ hole' :: (mid ++ hi) ++ post ++ back]> mem)
    ∧ Forall (λ p, coord axis key < coord axis p) (mid ++ hi)
    ∧ (lo' = [] ∨ ∃ lo'' p, lo' = lo'' ++ [p] ∧ coord axis p <= coord axis key).
Proof.
  induction lo as [| p lo IH] using rev_ind; intros hi hole mem Hmem Hoff Hlen Hhi.
  - exists [], [], hole. repeat split; try done; [| by left].
    simpl. by rewrite insert_id.
  - rewrite length_app in *. simpl in Hlen |- *.
    rewrite Nat.add_1_r. cbn [InPlace.shiftLoop].
    rewrite <- app_assoc in Hmem. simpl in Hmem.
    rewrite (read_at mem s (length lo) _ p Hmem) by
      (try lia; rewrite Hoff; apply lookup_middle).
    cbn [obind].
    destruct (Z.leb_spec (coord axis p) (coord axis key)) as [Hle | Hgt].
    + exists (lo ++ [p]), [], hole. rewrite app_nil_r. repeat split; try done.
      * rewrite length_app. simpl. rewrite Nat.add_1_r.
        f_equal. f_equal. rewrite <- app_assoc. simpl. by rewrite insert_id.
      * right. by exists lo, p.
    + rewrite (write_at mem s (S (length lo)) _ p Hmem); [| lia |].
      2: { rewrite Hoff, !length_app. simpl. rewrite !length_app. simpl. lia. }
      cbn [obind].
      assert (Hshift :
        <[(InPlace.off s + S (length lo))%nat := p]>
          (front ++ lo ++ p :: hole :: hi ++ post ++ back)
        = front ++ lo ++ p :: (p :: hi) ++ post ++ back).
      { rewrite Hoff.
        replace (length front + S (length lo))%nat
          with (length front + length (lo ++ [p]))%nat
          by (rewrite length_app; simpl; lia).
        pose proof (insert_middle front (lo ++ [p]) hole p (hi ++ post ++ back)) as E.
        rewrite <- !app_assoc in E. simpl in E. exact E. }
      rewrite Hshift.
      destruct (IH (p :: hi) p
                  (<[InPlace.base s := front ++ lo ++ p :: (p :: hi) ++ post ++ back]> mem))
        as (lo' & mid & hole' & -> & Hrun & Hall & Hstop).
      * by rewrite lookup_insert_eq.
      * exact Hoff.
      * simpl. lia.
      * constructor; [exact Hgt | exact Hhi].
      * exists lo', (mid ++ [p]), hole'.
        rewrite Hrun, insert_insert_eq.
        repeat split.
        -- by rewrite <- app_assoc.
        -- by rewrite <- !app_assoc.
        -- by rewrite <- app_assoc.
        -- exact Hstop.
Qed.

(** The outer loop, against [sortLoop]: the slice shows the sorted prefix
    [rev rp] followed by the elements still to insert. *)
Lemma sortFrom_spec axis s front back : ∀ todo rp mem,
  mem !! InPlace.base s = Some (front ++ rev rp ++ todo ++ back) ->
  InPlace.off s = length front ->
  InPlace.len s = (length rp + length todo)%nat ->
  InPlace.sortFrom axis s (length rp) (length todo) mem
  = Done (<[InPlace.base s := front ++ rev (sortLoop axis rp todo) ++ back]> mem).
Proof.
  induction todo as [| key todo IH]; intros rp mem Hmem Hoff Hlen.
  - simpl. simpl in Hmem. by rewrite insert_id.
  - cbn [length InPlace.sortFrom sortLoop]. simpl in Hlen, Hmem.
    assert (Hrp : length (rev rp) = length rp) by apply length_rev.
    rewrite (read_at mem s (length rp) _ key Hmem);
      [| lia | rewrite Hoff, <- Hrp; apply lookup_middle].
    cbn [obind].
    destruct (shiftLoop_spec axis s key front todo back (rev rp) [] key mem)
      as (lo' & mid & hole' & Hsplit & Hrun & Hall & Hstop).
    { exact Hmem. }
    { exact Hoff. }
    { simpl. lia. }
    { constructor. }
    rewrite Hrp in Hrun. rewrite Hrun. cbn [obind].
    rewrite app_nil_r in Hall, Hrun |- *.
    set (arr1 := front ++ lo' ++ hole' :: mid ++ todo ++ back).
    assert (Hlo : (length lo' + length mid = length rp)%nat).
    { rewrite <- Hrp, Hsplit, length_app. lia. }
    rewrite (write_at _ s (length lo') arr1 key);
      [| by rewrite lookup_insert_eq | lia |].
    2: { unfold arr1. rewrite Hoff, !length_app. simpl. rewrite !length_app. lia. }
    cbn [obind]. rewrite insert_insert_eq.
    unfold arr1. rewrite Hoff, insert_middle.
    assert (Hnew : shiftDown axis key rp = rev (lo' ++ key :: mid)).
    { rewrite <- (rev_involutive rp), Hsplit.
      rewrite (shiftDown_split axis key lo' mid Hall Hstop).
      rewrite rev_app_distr. simpl. by rewrite <- app_assoc. }
    specialize (IH (shiftDown axis key rp)
                   (<[InPlace.base s := front ++ lo' ++ key :: mid ++ todo ++ back]> mem)).
    assert (Hlen' : length (shiftDown axis key rp) = S (length rp)).
    { rewrite Hnew, length_rev, length_app. simpl. lia. }
    rewrite Hlen' in IH. rewrite IH.
    + by rewrite insert_insert_eq.
    + rewrite lookup_insert_eq. f_equal. f_equal.
      rewrite Hnew, rev_involutive. by rewrite <- app_assoc.
    + exact Hoff.
    + lia.
Qed.

(** [sortPointsByAxis] in place leaves the slice showing what the
    functional sort returns, and the rest of its array as it was. *)
Lemma sortPointsByAxis_in_place axis s front l back mem :
  mem !! InPlace.base s = Some (front ++ l ++ back) ->
  InPlace.off s = length front -> InPlace.len s = length l ->
  InPlace.sortPointsByAxis mem s axis
  = Done (<[InPlace.base s := front ++ sortPointsByAxis l axis ++ back]> mem).
Proof.
  intros Hmem Hoff Hlen. unfold InPlace.sortPointsByAxis.
  destruct l as [| p0 todo].
  - simpl in Hlen. rewrite Hlen. simpl. by rewrite insert_id.
  - simpl in Hlen. rewrite Hlen. simpl Nat.sub. rewrite Nat.sub_0_r.
    apply (sortFrom_spec axis s front back todo [p0] mem);
      [exact Hmem | exact Hoff | simpl; lia].
Qed.

(** The functional build does not depend on spare fuel. *)
Lemma buildKDTree_rec_fuel_any fuel1 : ∀ fuel2 points depth,
  (length points <= fuel1)%nat -> (length points <= fuel2)%nat ->
  buildKDTree_rec fuel1 points depth = buildKDTree_rec fuel2 points depth.
Proof.
  induction fuel1 as [| fuel1 IH]; intros fuel2 points depth H1 H2.
  { destruct points; [by destruct fuel2 | simpl in H1; lia]. }
  destruct fuel2 as [| fuel2].
  { destruct points; [reflexivity | simpl in H2; lia]. }
  destruct points as [| p1 [| p2 rest]]; [reflexivity | reflexivity |].
  set (points := p1 :: p2 :: rest) in *.
  cbn [buildKDTree_rec]. fold points.
  set (sorted := sortPointsByAxis points (Z.of_nat (depth mod 2))).
  assert (Hslen : length sorted = S (S (length rest)))
    by apply sortPointsByAxis_length.
  assert (Hm : (length sorted / 2 < length sorted)%nat)
    by (apply Nat.div_lt; lia).
  destruct (sorted !! (length sorted / 2)%nat); [| reflexivity].
  simpl in H1, H2.
  f_equal; apply IH; rewrite ?length_take, ?length_drop; lia.
Qed.

Lemma buildKDTree_rec_fuel fuel points depth :
  (length points <= fuel)%nat ->
  buildKDTree_rec fuel points depth = buildKDTree points depth.
Proof. intros Hlen. by apply buildKDTree_rec_fuel_any. Qed.

(** One round of the functional build on two or more seeds. *)
Lemma buildKDTree_rec_step fuel p1 p2 rest depth :
  buildKDTree_rec (S fuel) (p1 :: p2 :: rest) depth
  = let axis := Z.of_nat (depth mod 2) in
    let sorted := sortPointsByAxis (p1 :: p2 :: rest) axis in
    let median := (length sorted / 2)%nat in
    match sorted !! median with
    | Some p =>
        Node p (buildKDTree_rec fuel (take median sorted) (S depth))
               (buildKDTree_rec fuel (drop (S median) sorted) (S depth)) axis
    | None => Nil
    end.
Proof. reflexivity. Qed.

(** One level of the functional build, for a slice of two or more. *)
Lemma buildKDTree_unfold l depth p :
  (2 <= length l)%nat ->
  sortPointsByAxis l (Z.of_nat (depth mod 2)) !! (length l / 2)%nat = Some p ->
  buildKDTree l depth
  = Node p
      (buildKDTree (take (length l / 2) (sortPointsByAxis l (Z.of_nat (depth mod 2))))
                   (S depth))
      (buildKDTree (drop (S (length l / 2)) (sortPointsByAxis l (Z.of_nat (depth mod 2))))
                   (S depth))
      (Z.of_nat (depth mod 2)).
Proof.
  intros Hlen Hp.
  destruct l as [| p1 [| p2 rest]]; [simpl in Hlen; lia | simpl in Hlen; lia |].
  pose proof (sortPointsByAxis_length (p1 :: p2 :: rest) (Z.of_nat (depth mod 2)))
    as Hslen.
  unfold buildKDTree at 1.
  change (length (p1 :: p2 :: rest)) with (S (S (length rest))) in *.
  rewrite buildKDTree_rec_step. cbv zeta.
  rewrite Hslen, Hp.
  assert (Hm : (S (S (length rest)) / 2 < S (S (length rest)))%nat)
    by (apply Nat.div_lt; lia).
  rewrite !buildKDTree_rec_fuel; [reflexivity | |].
  - rewrite length_drop, Hslen. lia.
  - rewrite length_take, Hslen. lia.
Qed.

(** The in-place build returns the tree of the functional build and only
    rearranges the elements the slice shows. *)
Lemma buildKDTree_in_place fuel : ∀ mem s depth front l back,
  mem !! InPlace.base s = Some (front ++ l ++ back) ->
  InPlace.off s = length front -> InPlace.len s = length l ->
  (length l < fuel)%nat ->
  ∃ l', length l' = length l
        ∧ InPlace.buildKDTree_rec fuel mem s depth
          = Done (buildKDTree l depth,
                  <[InPlace.base s := front ++ l' ++ back]> mem).
Proof.
  induction fuel as [| fuel IH]; intros mem s depth front l back Hmem Hoff Hlen Hfuel;
    [lia |].
  cbn [InPlace.buildKDTree_rec]. rewrite Hlen.
  destruct l as [| p1 [| p2 rest]].
  - exists []. split; [reflexivity |]. simpl. by rewrite insert_id.
  - exists [p1]. split; [reflexivity |]. simpl.
    rewrite (read_at mem s 0 _ p1 Hmem);
      [| rewrite Hlen; simpl; lia
       | rewrite Hoff, Nat.add_0_r, lookup_app_r, Nat.sub_diag by lia; reflexivity].
    cbn [obind]. by rewrite insert_id.
  - set (l := p1 :: p2 :: rest) in *.
    change (length l =? 0)%nat with false. change (length l =? 1)%nat with false.
    cbv iota.
    set (axis := Z.of_nat (depth mod 2)).
    rewrite (sortPointsByAxis_in_place axis s front l back mem Hmem Hoff Hlen).
    cbn [obind].
    set (sorted := sortPointsByAxis l axis).
    assert (Hslen : length sorted = length l) by apply sortPointsByAxis_length.
    set (median := (length l / 2)%nat).
    assert (Hm : (median < length l)%nat)
      by (apply Nat.div_lt; simpl; lia).
    destruct (lookup_lt_is_Some_2 sorted median ltac:(lia)) as [p Hp].
    pose proof (take_drop_middle sorted median p Hp) as Hsorted.
    set (lo := take median sorted) in *.
    set (hi := drop (S median) sorted) in *.
    assert (Hlo : length lo = median) by (unfold lo; rewrite length_take; lia).
    set (mem1 := <[InPlace.base s := front ++ sorted ++ back]> mem).
    assert (Hmem1 : mem1 !! InPlace.base s = Some (front ++ sorted ++ back))
      by apply lookup_insert_eq.
    rewrite (read_at mem1 s median _ p Hmem1); [| lia |].
    2: { rewrite Hoff, lookup_app_r, lookup_app_l by lia.
         by replace (length front + median - length front)%nat with median by lia. }
    cbn [obind]. unfold InPlace.subslice at 1.
    destruct (Nat.leb_spec median (InPlace.len s)); [| lia].
    cbn [Nat.leb andb obind]. rewrite Nat.sub_0_r, Nat.add_0_r.
    (* left half *)
    destruct (IH mem1 (InPlace.mkSlice (InPlace.base s) (InPlace.off s) median)
                (S depth) front lo ((p :: hi) ++ back))
      as (lo' & Hlo' & ->).
    { cbn [InPlace.base]. rewrite Hmem1, <- Hsorted.
      by rewrite <- !app_assoc. }
    { exact Hoff. }
    { by rewrite Hlo. }
    { lia. }
    cbn [obind]. unfold InPlace.subslice.
    destruct (Nat.leb_spec (S median) (length l)); [| lia].
    destruct (Nat.leb_spec (length l) (InPlace.len s)); [| lia].
    cbn [andb obind]. cbn [InPlace.base].
    unfold mem1. rewrite insert_insert_eq.
    (* right half *)
    destruct (IH (<[InPlace.base s := front ++ lo' ++ (p :: hi) ++ back]> mem)
                (InPlace.mkSlice (InPlace.base s) (InPlace.off s + S median)
                                 (length l - S median))
                (S depth) (front ++ lo' ++ [p]) hi back)
      as (hi' & Hhi' & ->).
    { cbn [InPlace.base]. rewrite lookup_insert_eq.
      by rewrite <- !app_assoc. }
    { cbn [InPlace.off]. rewrite !length_app. simpl. lia. }
    { cbn [InPlace.len]. unfold hi. rewrite length_drop. lia. }
    { unfold hi. rewrite length_drop. lia. }
    cbn [obind InPlace.base]. rewrite insert_insert_eq.
    exists (lo' ++ p :: hi'). split.
    { rewrite length_app. change (length (p :: hi')) with (S (length hi')).
      rewrite Hlo', Hhi', <- Hslen, <- Hsorted, length_app. reflexivity. }
    f_equal. f_equal.
    + symmetry. apply (buildKDTree_unfold l depth p); [simpl; lia | exact Hp].
    + by rewrite <- !app_assoc.
Qed.

(** [copy] fills the destination array with what the source shows. *)
Lemma copyFrom_spec s b n front l back : ∀ k i rest mem,
  (i + k = n)%nat -> length l = n -> InPlace.len s = n ->
  InPlace.off s = length front -> b ≠ InPlace.base s ->
  mem !! InPlace.base s = Some (front ++ l ++ back) ->
  mem !! b = Some (take i l ++ rest) -> length rest = k ->
  InPlace.copyFrom mem (InPlace.mkSlice b 0 n) s i k = Done (<[b := l]> mem).
Proof.
  induction k as [| k IH]; intros i rest mem Hik Hl Hlen Hoff Hb Hsrc Hdst Hrest.
  - destruct rest; [| discriminate]. rewrite app_nil_r in Hdst.
    rewrite take_ge in Hdst by lia. simpl. by rewrite insert_id.
  - destruct rest as [| hole rest]; [discriminate |].
    destruct (lookup_lt_is_Some_2 l i ltac:(lia)) as [v Hv].
    cbn [InPlace.copyFrom].
    rewrite (read_at mem s i _ v Hsrc); [| lia |].
    2: { rewrite Hoff, lookup_app_r, lookup_app_l by lia.
         by replace (length front + i - length front)%nat with i by lia. }
    cbn [obind].
    assert (Hti : length (take i l) = i) by (rewrite length_take; lia).
    rewrite (write_at mem (InPlace.mkSlice b 0 n) i _ v Hdst); cbn [InPlace.len InPlace.off];
      [| lia | rewrite length_app, Hti; simpl; lia].
    cbn [obind InPlace.base]. rewrite Nat.add_0_l.
    assert (Hins : <[i := v]> (take i l ++ hole :: rest) = take (S i) l ++ rest).
    { rewrite insert_app_r_alt by lia. rewrite Hti, Nat.sub_diag. simpl.
      rewrite (take_S_r l i v Hv). by rewrite <- app_assoc. }
    rewrite Hins.
    rewrite (IH (S i) rest (<[b := take (S i) l ++ rest]> mem)); try done; try lia.
    + by rewrite insert_insert_eq.
    + by rewrite lookup_insert_ne.
    + by rewrite lookup_insert_eq.
    + simpl in Hrest. lia.
Qed.

(** What a slice shows sits between a front and a back part of its array. *)
Lemma contents_split mem s l :
  InPlace.contents mem s = Some l ->
  ∃ front back,
    mem !! InPlace.base s = Some (front ++ l ++ back)
    ∧ InPlace.off s = length front ∧ InPlace.len s = length l.
Proof.
  unfold InPlace.contents. intros H.
  destruct (mem !! InPlace.base s) as [arr |]; [| discriminate].
  destruct (Nat.leb_spec (InPlace.off s + InPlace.len s) (length arr)); [| discriminate].
  injection H as <-.
  exists (take (InPlace.off s) arr), (drop (InPlace.len s) (drop (InPlace.off s) arr)).
  split; [| split].
  - by rewrite !take_drop.
  - rewrite length_take. lia.
  - rewrite length_take, length_drop. lia.
Qed.

(** C10: [NewKDTree] does not mutate its argument.  Called on a slice that
    shows [seeds], it returns (it sorts a fresh copy in place); afterwards
    the slice shows the same seeds in the same order, and indeed every array
    that existed before the call is unchanged.  The tree it returns is the
    tree of the functional model. *)
Theorem NewKDTree_leaves_argument (mem : gmap nat (list Point))
    (points : InPlace.Slice) (seeds : list Point) :
  InPlace.contents mem points = Some seeds ->
  ∃ tree mem',
    InPlace.NewKDTree mem points = Done (tree, mem')
    ∧ tree = NewKDTree seeds
    ∧ InPlace.contents mem' points = Some seeds
    ∧ ∀ b arr, mem !! b = Some arr -> mem' !! b = Some arr.
Proof.
  intros Hcontents.
  destruct (contents_split mem points seeds Hcontents) as (front & back & Hsrc & Hoff & Hlen).
  unfold InPlace.NewKDTree. rewrite Hlen.
  destruct seeds as [| p0 rest].
  { exists (mkTree Nil), mem. by repeat split. }
  set (seeds := p0 :: rest) in *.
  change (length seeds =? 0)%nat with false. cbv iota.
  unfold InPlace.makePoints.
  set (b := fresh (dom mem)).
  assert (Hfresh : mem !! b = None) by (apply not_elem_of_dom, is_fresh).
  assert (Hb : b ≠ InPlace.base points) by (intros ->; congruence).
  unfold InPlace.copy. cbn [InPlace.len]. rewrite Hlen, Nat.min_id.
  rewrite (copyFrom_spec points b (length seeds) front seeds back (length seeds) 0
             (replicate (length seeds) (mkPoint 0 0 (RGBA8 0 0 0 0) 0)));
    try done; try lia.
  2: { by rewrite lookup_insert_ne. }
  2: { by rewrite lookup_insert_eq. }
  2: { by rewrite length_replicate. }
  cbn [obind]. rewrite insert_insert_eq.
  unfold InPlace.buildKDTree. cbn [InPlace.len].
  destruct (buildKDTree_in_place (S (length seeds)) (<[b := seeds]> mem)
              (InPlace.mkSlice b 0 (length seeds)) 0 [] seeds [])
    as (seeds' & Hlen' & ->).
  { cbn [InPlace.base]. rewrite lookup_insert_eq. by rewrite app_nil_r. }
  { reflexivity. }
  { reflexivity. }
  { lia. }
  cbn [obind InPlace.base]. rewrite insert_insert_eq.
  eexists _, _. split; [reflexivity |].
  assert (Hframe : ∀ b' arr, mem !! b' = Some arr ->
                             <[b := [] ++ seeds' ++ []]> mem !! b' = Some arr).
  { intros b' arr Harr. rewrite lookup_insert_ne; [exact Harr |].
    intros ->. congruence. }
  split; [reflexivity |]. split; [| exact Hframe].
  unfold InPlace.contents in *.
  destruct (mem !! InPlace.base points) as [arr |] eqn:Harr; [| discriminate].
  by rewrite (Hframe _ _ Harr).
Qed.

End InPlaceFacts.

Section InPlaceCases.

Lemma NewKDTree_leaves_argument_witness :
  let shade := RGBA8 0 0 0 255 in
  let seeds := [mkPoint 5 1 shade 0; mkPoint 2 7 shade 1; mkPoint 9 3 shade 2;
                mkPoint 2 2 shade 3; mkPoint 7 7 shade 4] in
  let mem : gmap nat (list Point) := {[ 0%nat := seeds ]} in
  let points := InPlace.mkSlice 0 1 3 in
  ∃ tree mem',
    InPlace.NewKDTree mem points = Done (tree, mem')
    ∧ tree = KD.NewKDTree (take 3 (drop 1 seeds))
    ∧ InPlace.contents mem' points = Some (take 3 (drop 1 seeds))
    ∧ ∀ b arr, mem !! b = Some arr -> mem' !! b = Some arr.
Proof.
  intros shade seeds mem points.
  apply (NewKDTree_leaves_argument mem points (take 3 (drop 1 seeds))).
  reflexivity.
Defined.

End InPlaceCases.

(** ** Region labeler: geometry *)

Section RegionGeometry.
Import Labeler.

Variable bounds : Rectangle.
Hypothesis Hok : image_ok bounds.

Lemma Dx_exact : Dx bounds = MaxX bounds - MinX bounds ∧ 0 < Dx bounds.
Proof.
  destruct Hok as [(? & ? & ? & ?) _]. unfold Dx.
  rewrite wrap64_small by lia. lia.
Qed.

Lemma Dy_exact : Dy bounds = MaxY bounds - MinY bounds ∧ 0 < Dy bounds.
Proof.
  destruct Hok as [_ (? & ? & ? & ?)]. unfold Dy.
  rewrite wrap64_small by lia. lia.
Qed.

Lemma inside_iff q :
  inside bounds q
  ↔ MinX bounds <= q.1 < MaxX bounds ∧ MinY bounds <= q.2 < MaxY bounds.
Proof.
  unfold inside, inRect. rewrite !andb_true_iff.
  rewrite !Z.leb_le, !Z.ltb_lt. lia.
Qed.

Lemma inside_dec q : inside bounds q ∨ ¬ inside bounds q.
Proof. unfold inside. destruct (inRect bounds q.1 q.2); [by left | by right]. Qed.

Lemma pixelIndex_range q :
  inside bounds q -> 0 <= pixelIndex bounds q.1 q.2 < Dx bounds * Dy bounds.
Proof.
  intros Hq. apply inside_iff in Hq.
  destruct Dx_exact as [Hw ?], Dy_exact as [Hh ?].
  unfold pixelIndex.
  pose proof (row_major_bound (Dx bounds) (Dy bounds)
                (q.1 - MinX bounds) (q.2 - MinY bounds)).
  lia.
Qed.

Lemma pixelIndex_inj p q :
  inside bounds p -> inside bounds q ->
  pixelIndex bounds p.1 p.2 = pixelIndex bounds q.1 q.2 -> p = q.
Proof.
  intros Hp Hq. apply inside_iff in Hp, Hq.
  destruct Dx_exact as [Hw ?]. unfold pixelIndex. intros Heq.
  assert (Hy : p.2 = q.2) by nia.
  assert (Hx : p.1 = q.1) by nia.
  destruct p, q. simpl in *. congruence.
Qed.

(** Among pixels of the image, the points the fill queues are the adjacent
    pixels. *)
Lemma neighbours_adjacent p q :
  inside bounds p -> inside bounds q -> (q ∈ neighbours p ↔ adjacent p q).
Proof.
  intros Hp Hq. apply inside_iff in Hp, Hq.
  destruct Hok as [(? & ? & ? & ?) (? & ? & ? & ?)].
  destruct p as [x y], q as [x' y']. unfold neighbours, adjacent. simpl in *.
  rewrite !elem_of_cons, elem_of_nil.
  assert (Hxm : wrap64 (x - 1) = x - 1 ∨ x = - 2 ^ 63 ∧ wrap64 (x - 1) = 2 ^ 63 - 1).
  { destruct (Z.eq_dec x (- 2 ^ 63)) as [-> | ?]; [right; by split |].
    left. apply wrap64_small. lia. }
  assert (Hym : wrap64 (y - 1) = y - 1 ∨ y = - 2 ^ 63 ∧ wrap64 (y - 1) = 2 ^ 63 - 1).
  { destruct (Z.eq_dec y (- 2 ^ 63)) as [-> | ?]; [right; by split |].
    left. apply wrap64_small. lia. }
  rewrite (wrap64_small (x + 1)), (wrap64_small (y + 1)) by lia.
  split.
  - intros [Heq | [Heq | [Heq | [Heq | []]]]]; injection Heq as -> ->; lia.
  - intros [[-> [-> | ->]] | [-> [-> | ->]]].
    + do 3 right. by left.
    + do 2 right. left. f_equal. lia.
    + right. by left.
    + left. f_equal. lia.
Qed.

Lemma elem_of_pixels q : q ∈ pixels bounds ↔ inside bounds q.
Proof.
  rewrite inside_iff. unfold pixels. rewrite list_elem_of_bind. split.
  - intros (y & Hx & Hy). apply list_elem_of_bind in Hx as (x & Hq & Hx).
    apply list_elem_of_singleton in Hq as ->.
    apply elem_of_zrange in Hx, Hy. simpl. lia.
  - intros [Hx Hy]. exists q.2. split; [| by apply elem_of_zrange].
    apply list_elem_of_bind. exists q.1. split; [| by apply elem_of_zrange].
    destruct q. simpl. by apply list_elem_of_singleton.
Qed.

Lemma adjacent_sym p q : adjacent p q -> adjacent q p.
Proof. unfold adjacent. lia. Qed.

End RegionGeometry.

Section RegionConnectivity.
Import Labeler.

Variable bounds : Rectangle.
Variable label : Z -> Z -> Z.

Lemma rtc_step_sym c p q :
  rtc (step bounds label c) p q -> rtc (step bounds label c) q p.
Proof.
  induction 1 as [| p r q Hstep _ IH]; [reflexivity |].
  eapply rtc_r; [exact IH |].
  destruct Hstep as (Hp & Hr & Hadj).
  split; [exact Hr | split; [exact Hp | by apply adjacent_sym]].
Qed.

Lemma rtc_step_member c p q :
  member bounds label c p -> rtc (step bounds label c) p q ->
  member bounds label c q.
Proof.
  intros Hp Hrtc. induction Hrtc as [| p r q Hstep _ IH]; [exact Hp |].
  apply IH. by destruct Hstep as (_ & Hr & _).
Qed.

Lemma connected_member p q :
  connected bounds label p q -> member bounds label (label p.1 p.2) q.
Proof. intros [Hp Hrtc]. by eapply rtc_step_member. Qed.

Lemma connected_label p q : connected bounds label p q -> label q.1 q.2 = label p.1 p.2.
Proof. intros H. by apply connected_member in H as [_ ?]. Qed.

Lemma connected_refl p : inside bounds p -> connected bounds label p p.
Proof. intros Hp. split; [by split | reflexivity]. Qed.

Lemma connected_sym p q : connected bounds label p q -> connected bounds label q p.
Proof.
  intros H. pose proof (connected_member p q H) as Hq.
  pose proof (connected_label p q H) as Hl.
  destruct H as [Hp Hrtc]. split; rewrite Hl; [exact Hq |].
  by apply rtc_step_sym.
Qed.

Lemma connected_trans p q r :
  connected bounds label p q -> connected bounds label q r ->
  connected bounds label p r.
Proof.
  intros Hpq Hqr. pose proof (connected_label p q Hpq) as Hl.
  destruct Hpq as [Hp Hrtc1], Hqr as [_ Hrtc2]. rewrite Hl in Hrtc2.
  split; [exact Hp |]. by etransitivity.
Qed.

Lemma connected_step p q r :
  connected bounds label p q -> adjacent q r ->
  member bounds label (label p.1 p.2) r ->
  connected bounds label p r.
Proof.
  intros Hpq Hadj Hr. pose proof (connected_member p q Hpq) as Hq.
  destruct Hpq as [Hp Hrtc]. split; [exact Hp |].
  eapply rtc_r; [exact Hrtc |]. split; [exact Hq | split; [exact Hr | exact Hadj]].
Qed.

(** A set of pixels that holds [p] and is closed under moves holds the
    region of [p]. *)
Lemma connected_closed (P : Z * Z -> Prop) p :
  P p ->
  (∀ a b, P a -> adjacent a b -> member bounds label (label p.1 p.2) a ->
          member bounds label (label p.1 p.2) b -> P b) ->
  ∀ q, connected bounds label p q -> P q.
Proof.
  intros Hp Hclosed q [_ Hrtc].
  revert Hp. generalize (label p.1 p.2) Hclosed Hrtc. clear.
  intros c Hclosed Hrtc.
  induction Hrtc as [| a b q Hstep _ IH]; intros Ha; [exact Ha |].
  destruct Hstep as (Hma & Hmb & Hadj).
  apply IH. by apply (Hclosed a b).
Qed.

End RegionConnectivity.

(** ** Region labeler: the flood fill *)

Section FloodFill.
Import KD Labeler.

Variable kdtree : KDTree.
Variable bounds : Rectangle.
Hypothesis Hok : image_ok bounds.

Local Abbreviation label := (FindNearest kdtree).

Lemma unseen_mark V : ∀ i,
  V !! i = Some false -> (unseen (<[i := true]> V) + 1 = unseen V)%nat.
Proof.
  induction V as [| b V IH]; intros i Hi; [done |].
  destruct i as [| i]; simpl in *.
  - injection Hi as ->. lia.
  - rewrite <- (IH i Hi). lia.
Qed.

Lemma unseen_le V : (unseen V <= length V)%nat.
Proof. induction V as [| [] V IH]; simpl; lia. Qed.

Lemma load_lookup {A} (V : list A) idx b :
  0 <= idx -> V !! Z.to_nat idx = Some b -> load V idx = Done b.
Proof.
  intros Hidx Hb. unfold load, index.
  destruct (Z.leb_spec 0 idx); [| lia]. by rewrite Hb.
Qed.

Lemma seen_mark V p q :
  inside bounds p -> inside bounds q ->
  Z.of_nat (length V) = Dx bounds * Dy bounds ->
  (seen bounds (<[Z.to_nat (pixelIndex bounds p.1 p.2) := true]> V) q
   ↔ seen bounds V q ∨ q = p).
Proof.
  intros Hp Hq Hlen. unfold seen.
  pose proof (pixelIndex_range bounds Hok p Hp).
  pose proof (pixelIndex_range bounds Hok q Hq).
  destruct (decide (q = p)) as [-> | Hne].
  - rewrite list_lookup_insert_eq by lia. split; [by right | done].
  - rewrite list_lookup_insert_ne.
    + split; [by left | by intros [? | ?]].
    + intros Heq. apply Hne. symmetry.
      apply (pixelIndex_inj bounds Hok); [done | done | lia].
Qed.

Section Loop.

Variable start : Z * Z.
Variable V0 : list bool.
Hypothesis Hlen0 : Z.of_nat (length V0) = Dx bounds * Dy bounds.
Hypothesis Hstart : inside bounds start.
Hypothesis Hfresh : ∀ q, connected bounds label start q -> ¬ seen bounds V0 q.

Local Abbreviation c := (label start.1 start.2).

(** A point taken from the queue that is a pixel of seed [c] lies in the
    region of [start]. *)
Lemma queued_connected queue collected V p :
  fill_inv bounds label start V0 queue collected V ->
  p ∈ queue -> member bounds label c p ->
  connected bounds label start p.
Proof.
  intros Hinv Hp Hmem.
  destruct (fill_queue _ _ _ _ _ _ _ Hinv p Hp) as [-> | (p' & Hp' & Hnb)].
  - by apply connected_refl.
  - pose proof (fill_connected _ _ _ _ _ _ _ Hinv p' Hp') as Hconn.
    eapply connected_step; [exact Hconn | | exact Hmem].
    apply (neighbours_adjacent bounds Hok); [| by destruct Hmem | exact Hnb].
    by destruct (connected_member _ _ _ _ Hconn).
Qed.

(** Dropping a queued point that is outside the image, already marked, or
    of another seed keeps the state. *)
Lemma fill_inv_skip p queue collected V :
  fill_inv bounds label start V0 (p :: queue) collected V ->
  (member bounds label c p -> seen bounds V p) ->
  fill_inv bounds label start V0 queue collected V.
Proof.
  intros Hinv Hskip.
  assert (Hdone : member bounds label c p -> p ∈ collected).
  { intros Hmem.
    pose proof (queued_connected _ _ _ p Hinv ltac:(left) Hmem) as Hconn.
    destruct Hmem as [Hin Hlab].
    apply (fill_seen _ _ _ _ _ _ _ Hinv p Hin) in Hskip as [Hold | Hnew];
      [| exact Hnew | by split].
    by destruct (Hfresh p Hconn). }
  destruct Hinv as [H1 H2 H3 H4 H5 H6 H7].
  split; try done.
  - intros q Hq. apply H5. by right.
  - destruct H6 as [Hq | Hq]; [| by right].
    apply elem_of_cons in Hq as [<- | Hq]; [| by left].
    right. apply Hdone. by split.
  - intros p' q Hp' Hnb Hmem.
    destruct (H7 p' q Hp' Hnb Hmem) as [Hq | Hq]; [| by right].
    apply elem_of_cons in Hq as [-> | Hq]; [| by left].
    right. by apply Hdone.
Qed.

(** Marking a queued pixel of the region and queueing its neighbours keeps
    the state. *)
Lemma fill_inv_mark p queue collected V :
  fill_inv bounds label start V0 (p :: queue) collected V ->
  member bounds label c p -> ¬ seen bounds V p ->
  fill_inv bounds label start V0 (queue ++ neighbours p) (collected ++ [p])
           (<[Z.to_nat (pixelIndex bounds p.1 p.2) := true]> V).
Proof.
  intros Hinv Hmem Hnew.
  pose proof (queued_connected _ _ _ p Hinv ltac:(left) Hmem) as Hconn.
  destruct Hmem as [Hin Hlab].
  destruct Hinv as [H1 H2 H3 H4 H5 H6 H7].
  assert (Hnotin : p ∉ collected).
  { intros Hp. apply Hnew, H4; [exact Hin | by right]. }
  split.
  - by rewrite length_insert.
  - apply NoDup_app. split; [exact H2 |]. split; [| apply NoDup_singleton].
    intros q Hq Hq'. apply list_elem_of_singleton in Hq' as ->. done.
  - intros q Hq. apply elem_of_app in Hq as [Hq | Hq]; [by apply H3 |].
    by apply list_elem_of_singleton in Hq as ->.
  - intros q Hq. rewrite (seen_mark V p q Hin Hq) by lia.
    rewrite (H4 q Hq), elem_of_app, list_elem_of_singleton. tauto.
  - intros q Hq. apply elem_of_app in Hq as [Hq | Hq].
    + destruct (H5 q ltac:(by right)) as [-> | (p' & Hp' & Hnb)]; [by left |].
      right. exists p'. split; [apply elem_of_app; by left | exact Hnb].
    + right. exists p. split; [| exact Hq].
      apply elem_of_app. right. by apply list_elem_of_singleton.
  - destruct H6 as [Hq | Hq].
    + apply elem_of_cons in Hq as [-> | Hq].
      * right. apply elem_of_app. right. by apply list_elem_of_singleton.
      * left. apply elem_of_app. by left.
    + right. apply elem_of_app. by left.
  - intros p' q Hp' Hnb Hmem. apply elem_of_app in Hp' as [Hp' | Hp'].
    + destruct (H7 p' q Hp' Hnb Hmem) as [Hq | Hq].
      * apply elem_of_cons in Hq as [-> | Hq].
        -- right. apply elem_of_app. right. by apply list_elem_of_singleton.
        -- left. apply elem_of_app. by left.
      * right. apply elem_of_app. by left.
    + apply list_elem_of_singleton in Hp' as ->.
      left. apply elem_of_app. by right.
Qed.

Lemma floodFill_loop_spec fuel : ∀ queue collected V,
  fill_inv bounds label start V0 queue collected V ->
  (4 * unseen V + length queue <= fuel)%nat ->
  ∃ collected' V',
    floodFill_loop fuel kdtree bounds c queue collected V = Done (collected', V')
    ∧ fill_inv bounds label start V0 [] collected' V'.
Proof.
  induction fuel as [| fuel IH]; intros queue collected V Hinv Hfuel.
  { destruct queue; [| simpl in Hfuel; lia]. by exists collected, V. }
  destruct queue as [| p queue]; [by exists collected, V |].
  cbn [floodFill_loop]. simpl in Hfuel.
  pose proof (fill_length _ _ _ _ _ _ _ Hinv) as HlenV.
  destruct (inRect bounds p.1 p.2) eqn:Hin; cbn [negb].
  2: { apply IH; [| lia]. apply (fill_inv_skip p); [exact Hinv |].
       intros [Hp _]. unfold inside in Hp. congruence. }
  pose proof (pixelIndex_range bounds Hok p Hin) as Hidx.
  destruct (lookup_lt_is_Some_2 V (Z.to_nat (pixelIndex bounds p.1 p.2)) ltac:(lia))
    as [b Hb].
  rewrite (load_lookup V _ b) by (lia || done). cbn [obind].
  destruct b.
  { apply IH; [| lia]. by apply (fill_inv_skip p). }
  assert (Hunseen : ¬ seen bounds V p) by (unfold seen; congruence).
  destruct (Z.eqb_spec (label p.1 p.2) c) as [Hlab | Hlab]; cbn [negb].
  2: { apply IH; [| lia]. apply (fill_inv_skip p); [exact Hinv |].
       by intros [_ ?]. }
  rewrite store_spec by lia. cbn [obind].
  apply IH; [by apply fill_inv_mark |].
  pose proof (unseen_mark V _ Hb) as Hless. rewrite length_app.
  assert (length (neighbours p) = 4%nat) as -> by (by destruct p).
  lia.
Qed.

(** [floodFill] from an unmarked pixel returns the region of that pixel,
    each pixel once, and marks exactly its pixels. *)
Lemma floodFill_spec :
  ¬ seen bounds V0 start ->
  ∃ region V',
    floodFill start.1 start.2 c V0 kdtree bounds = Done (region, V')
    ∧ ColorIndex region = c
    ∧ NoDup (Pixels region)
    ∧ (∀ q, q ∈ Pixels region ↔ connected bounds label start q)
    ∧ length V' = length V0
    ∧ ∀ q, inside bounds q -> (seen bounds V' q ↔ seen bounds V0 q ∨ q ∈ Pixels region).
Proof.
  intros Hunseen. unfold floodFill.
  destruct (floodFill_loop_spec (S (4 * length V0)) [start] [] V0)
    as (collected & V' & Hrun & Hinv).
  { split; try done.
    - apply NoDup_nil_2.
    - intros q Hq. by apply elem_of_nil in Hq.
    - intros q _. rewrite elem_of_nil. tauto.
    - intros q Hq. left. by apply list_elem_of_singleton in Hq.
    - left. by apply list_elem_of_singleton.
    - intros p q Hp. by apply elem_of_nil in Hp. }
  { pose proof (unseen_le V0). simpl. lia. }
  destruct start as [sx sy] eqn:Estart. cbn [fst snd] in *.
  rewrite Hrun. cbn [obind].
  destruct Hinv as [H1 H2 H3 H4 H5 H6 H7].
  eexists _, _. split; [reflexivity |]. cbn [ColorIndex Pixels].
  split; [reflexivity |]. split; [exact H2 |].
  split; [| split; [exact H1 | exact H4]].
  intros q. split; [apply H3 |].
  apply (connected_closed bounds label (λ q, q ∈ collected)).
  - destruct H6 as [H6 | H6]; [by apply elem_of_nil in H6 | exact H6].
  - intros a b Ha Hadj Hma Hmb.
    destruct (H7 a b Ha) as [Hb | Hb]; [| exact Hmb | by apply elem_of_nil in Hb | exact Hb].
    apply (neighbours_adjacent bounds Hok); [by destruct Hma | by destruct Hmb | exact Hadj].
Qed.

End Loop.

End FloodFill.

(** ** Region labeler: the scan *)

Section Centroid.
Import Labeler.









End Centroid.

Section Scan.
Import KD Labeler.

Variable kdtree : KDTree.
Variable bounds : Rectangle.
Hypothesis Hok : image_ok bounds.

Local Abbreviation label := (FindNearest kdtree).

Variable p0 : Z * Z.
Variable ps : list (Z * Z).
Hypothesis Hregion : is_region bounds label p0 ps.

Lemma seen_dec V q : seen bounds V q ∨ ¬ seen bounds V q.
Proof.
  unfold seen. destruct (V !! _) as [[] |]; [by left | by right | by right].
Qed.


End Scan.

Section Labeling.
Import KD Labeler.

Lemma seen_replicate bounds n q : ¬ seen bounds (replicate n false) q.
Proof.
  unfold seen. intros H. apply lookup_replicate in H as [H _]. discriminate.
Qed.





End Labeling.

Section LabelingCases.
Import KD Labeler.


(** The 150-pixel region is found once, with centroid (7, 4), the truncated
    mean of x = 0..14 and y = 0..9, and seed 0; a 99-pixel image has no
    entry. *)
Example findRegions_150 :
  let seed := mkPoint 3 3 (RGBA8 9 9 9 255) 0 in
  (λ r, (ColorIndex r, Centroid r, Area r))
    <$> default [] (match findRegions (NewRGBA (mkRect 0 0 15 10)) [seed]
                                      (NewKDTree [seed]) with
                    | Done regions => Some regions
                    | _ => None
                    end)
  = [(0, (7, 4), 150)].
Proof. vm_compute. reflexivity. Qed.

Example findRegions_99 :
  let seed := mkPoint 3 3 (RGBA8 9 9 9 255) 0 in
  findRegions (NewRGBA (mkRect 0 0 11 9)) [seed] (NewKDTree [seed]) = Done [].
Proof. vm_compute. reflexivity. Qed.

End LabelingCases.

(** * Further properties of the code *)

(** ** kdtree.go: the insertion sort is stable *)

Section SortStable.
Import KD.

Variable axis : Z.
Variable v : Z.

Local Abbreviation at_v := (λ p : Point, coord axis p = v).

Lemma filter_rev {A} (P : A -> Prop) `{!∀ a, Decision (P a)} (l : list A) :
  filter P (rev l) = rev (filter P l).
Proof.
  induction l as [| a l IH]; [reflexivity |].
  simpl. rewrite filter_app, IH, filter_cons.
  destruct (decide (P a)); simpl.
  - rewrite filter_cons_True, filter_nil by done. reflexivity.
  - rewrite filter_cons_False, filter_nil, app_nil_r by done. reflexivity.
Qed.

Lemma shiftDown_filter key rp :
  filter at_v (shiftDown axis key rp) = filter at_v (key :: rp).
Proof.
  induction rp as [| p rest IH]; [reflexivity |].
  simpl. destruct (Z.leb_spec (coord axis p) (coord axis key)) as [Hle | Hgt];
    [reflexivity |].
  rewrite (filter_cons _ p (shiftDown _ _ _)), IH.
  rewrite (filter_cons _ key (p :: rest)), (filter_cons _ p rest).
  rewrite (filter_cons _ key rest).
  destruct (decide (coord axis p = v)), (decide (coord axis key = v));
    try reflexivity; lia.
Qed.

Lemma sortLoop_filter todo : ∀ rp,
  filter at_v (rev (sortLoop axis rp todo))
  = filter at_v (rev rp) ++ filter at_v todo.
Proof.
  induction todo as [| key todo IH]; intros rp; simpl.
  - by rewrite filter_nil, app_nil_r.
  - rewrite IH, !filter_rev, shiftDown_filter, <- !filter_rev. simpl.
    rewrite filter_app, <- app_assoc. f_equal.
    by rewrite <- filter_app.
Qed.

End SortStable.

Section SortPoints.
Import KD.

(** X1: [sortPointsByAxis] is a stable sort.  Its result is in ascending
    order of the coordinate on the given axis, holds the same seeds as its
    argument, and keeps seeds with equal coordinates in the order they had. *)
Theorem sortPointsByAxis_stable (points : list Point) (axis : Z) :
  StronglySorted (axis_le axis) (sortPointsByAxis points axis)
  ∧ sortPointsByAxis points axis ≡ₚ points
  ∧ ∀ v, filter (λ p, coord axis p = v) (sortPointsByAxis points axis)
         = filter (λ p, coord axis p = v) points.
Proof.
  split; [apply sortPointsByAxis_sorted |].
  split; [apply sortPointsByAxis_perm |].
  intros v. destruct points as [| p0 todo]; [reflexivity |].
  unfold sortPointsByAxis. rewrite sortLoop_filter. simpl.
  by rewrite <- filter_app.
Qed.

End SortPoints.

(** ** kdtree.go: sorting a slice of a shared array *)

Section SortWindow.
Import KD.

(** X2: sorting a slice in place never panics, leaves in the slice's window
    of the backing array the stable sort of what the window held, and changes
    nothing else: the elements of the array before and after the window and
    every other array stay as they were. *)
Theorem sortPointsByAxis_in_window (mem : gmap nat (list Point))
    (s : InPlace.Slice) (axis : Z) (front l back : list Point) :
  mem !! InPlace.base s = Some (front ++ l ++ back) ->
  InPlace.off s = length front -> InPlace.len s = length l ->
  ∃ mem',
    InPlace.sortPointsByAxis mem s axis = Done mem'
    ∧ mem' !! InPlace.base s = Some (front ++ sortPointsByAxis l axis ++ back)
    ∧ InPlace.contents mem' s = Some (sortPointsByAxis l axis)
    ∧ ∀ b, b ≠ InPlace.base s -> mem' !! b = mem !! b.
Proof.
  intros Hmem Hoff Hlen.
  eexists. split; [by apply (sortPointsByAxis_in_place axis s front l back) |].
  split; [by rewrite lookup_insert_eq |].
  split; [| by intros b Hb; rewrite lookup_insert_ne].
  unfold InPlace.contents. rewrite lookup_insert_eq, Hoff, Hlen.
  pose proof (sortPointsByAxis_length l axis) as Hsl.
  rewrite !length_app, Hsl.
  destruct (Nat.leb_spec (length front + length l)
              (length front + (length l + length back))) as [_ | Hbad]; [| lia].
  rewrite drop_app_length. rewrite <- Hsl at 1. by rewrite take_app_length.
Qed.

Lemma sortPointsByAxis_in_window_witness :
  let shade := RGBA8 0 0 0 255 in
  let seeds := [mkPoint 5 1 shade 0; mkPoint 2 7 shade 1; mkPoint 9 3 shade 2;
                mkPoint 2 2 shade 3; mkPoint 7 7 shade 4] in
  let mem : gmap nat (list Point) := {[ 0%nat := seeds ]} in
  let s := InPlace.mkSlice 0 1 3 in
  ∃ mem',
    InPlace.sortPointsByAxis mem s 0 = Done mem'
    ∧ mem' !! 0%nat
      = Some ([mkPoint 5 1 shade 0]
              ++ sortPointsByAxis [mkPoint 2 7 shade 1; mkPoint 9 3 shade 2;
                                   mkPoint 2 2 shade 3] 0
              ++ [mkPoint 7 7 shade 4])
    ∧ InPlace.contents mem' s
      = Some (sortPointsByAxis [mkPoint 2 7 shade 1; mkPoint 9 3 shade 2;
                                mkPoint 2 2 shade 3] 0)
    ∧ ∀ b, b ≠ 0%nat -> mem' !! b = mem !! b.
Proof.
  intros shade seeds mem s.
  apply (sortPointsByAxis_in_window mem s 0 [mkPoint 5 1 shade 0]
           [mkPoint 2 7 shade 1; mkPoint 9 3 shade 2; mkPoint 2 2 shade 3]
           [mkPoint 7 7 shade 4]); reflexivity.
Defined.

End SortWindow.

(** ** kdtree.go: the tree is balanced *)

Section KDShape.
Import KD Shape.

Lemma levels_half n : (2 <= n)%nat -> levels n = S (levels (n / 2)).
Proof.
  intros Hn.
  pose proof (Nat.div_mod_eq n 2) as Hdm.
  pose proof (Nat.mod_upper_bound n 2 ltac:(lia)) as Hmod.
  assert (Hpos : (0 < n / 2)%nat) by lia.
  assert (Hlog : Nat.log2 n = S (Nat.log2 (n / 2))).
  { destruct (n mod 2)%nat as [| [| r]] eqn:Hr; [| | lia].
    - rewrite Hdm at 1. rewrite Nat.add_0_r. by apply Nat.log2_double.
    - rewrite Hdm at 1. by apply Nat.log2_succ_double. }
  unfold levels. destruct n as [| n']; [lia |].
  destruct (S n' / 2)%nat as [| h]; [lia |]. by rewrite Hlog.
Qed.

Lemma levels_mono n m : (n <= m)%nat -> (levels n <= levels m)%nat.
Proof.
  intros Hnm. unfold levels. destruct n, m; try lia.
  apply le_n_S, Nat.log2_le_mono. lia.
Qed.

Lemma buildKDTree_rec_shape fuel : ∀ points depth,
  (length points <= fuel)%nat ->
  balanced (buildKDTree_rec fuel points depth)
  ∧ height (buildKDTree_rec fuel points depth) = levels (length points).
Proof.
  induction fuel as [| fuel IH]; intros points depth Hlen.
  - destruct points; simpl in *; [done | lia].
  - destruct points as [| p1 [| p2 rest]].
    + done.
    + simpl. done.
    + rewrite buildKDTree_rec_step. cbv zeta.
      set (points := p1 :: p2 :: rest) in *.
      set (axis := Z.of_nat (depth mod 2)).
      set (sorted := sortPointsByAxis points axis).
      assert (Hslen : length sorted = length points)
        by apply sortPointsByAxis_length.
      assert (H2 : (2 <= length points)%nat) by (simpl; lia).
      pose proof (Nat.div_mod_eq (length points) 2) as Hdm.
      pose proof (Nat.mod_upper_bound (length points) 2 ltac:(lia)) as Hmod.
      assert (Hm : (length sorted / 2 < length sorted)%nat)
        by (apply Nat.div_lt; lia).
      destruct (lookup_lt_is_Some_2 sorted _ Hm) as [p Hp].
      rewrite Hp.
      set (lo := take (length sorted / 2) sorted).
      set (hi := drop (S (length sorted / 2)) sorted).
      assert (Hlo : length lo = (length points / 2)%nat)
        by (unfold lo; rewrite length_take, Hslen;
            apply Nat.min_l, Nat.lt_le_incl; rewrite <- Hslen; exact Hm).
      assert (Hhi : length hi = (length points - S (length points / 2))%nat)
        by (unfold hi; rewrite length_drop, Hslen; lia).
      destruct (IH lo (S depth)) as [Hbl Hhl]; [lia |].
      destruct (IH hi (S depth)) as [Hbr Hhr]; [lia |].
      pose proof (proj2 (buildKDTree_rec_spec fuel lo (S depth) ltac:(lia))) as Hel.
      pose proof (proj2 (buildKDTree_rec_spec fuel hi (S depth) ltac:(lia))) as Her.
      apply Permutation_length in Hel, Her.
      split.
      * cbn [balanced]. rewrite Hel, Her, Hlo, Hhi.
        split; [| done]. f_equal. lia.
      * cbn [height]. rewrite Hhl, Hhr, Hlo, Hhi.
        rewrite (levels_half (length points)) by exact H2. f_equal.
        apply Nat.max_l, levels_mono. lia.
Qed.

(** X3: the tree [NewKDTree] builds is balanced.  Below every node the left
    subtree holds half of the seeds (rounded down) and the right subtree the
    rest, and a tree of [n >= 1] seeds has exactly [1 + floor (log2 n)]
    levels; the tree of no seeds has none. *)
Theorem NewKDTree_balanced (points : list Point) :
  balanced (root (NewKDTree points))
  ∧ height (root (NewKDTree points)) = levels (length points)
  ∧ (points ≠ [] ->
     height (root (NewKDTree points)) = S (Nat.log2 (length points))).
Proof.
  destruct points as [| p rest]; [by repeat split |].
  destruct (buildKDTree_rec_shape (length (p :: rest)) (p :: rest) 0%nat)
    as [Hb Hh]; [lia |].
  repeat split; [exact Hb | exact Hh |].
  intros _. exact Hh.
Qed.

End KDShape.

(** ** voronoi.go: the scan returns the first nearest seed *)

Section ScanFirst.
Import KD Voronoi.

Variables x y : Z.
Hypothesis Hx : coord_ok x.
Hypothesis Hy : coord_ok y.

Lemma sqdist_below_max p : seed_ok p -> sqdist x y p < MaxFloat64.
Proof.
  intros Hp. unfold sqdist, seed_ok, coord_ok in *.
  pose proof (square_bound (x - X p) ltac:(lia)).
  pose proof (square_bound (y - Y p) ltac:(lia)).
  assert (2 ^ 53 < MaxFloat64) by (vm_compute; reflexivity). lia.
Qed.

(** The distance as the scan computes it. *)
Lemma scan_distance_exact p :
  seed_ok p ->
  fadd (fmul (float64 (wrap64 (x - X p))) (float64 (wrap64 (x - X p))))
       (fmul (float64 (wrap64 (y - Y p))) (float64 (wrap64 (y - Y p))))
  = sqdist x y p.
Proof.
  unfold seed_ok, coord_ok, sqdist, fadd, fmul in *. intros [HX HY].
  rewrite !wrap64_small by lia.
  rewrite (float64_exact (x - X p)), (float64_exact (y - Y p)) by lia.
  pose proof (square_bound (x - X p) ltac:(lia)).
  pose proof (square_bound (y - Y p) ltac:(lia)).
  rewrite (float64_exact ((x - X p) * (x - X p))) by lia.
  rewrite (float64_exact ((y - Y p) * (y - Y p))) by lia.
  rewrite float64_exact by lia. lia.
Qed.

Lemma findNearestPoint_loop_first rest : ∀ done minDist nearest,
  Forall seed_ok rest ->
  (done = [] ∧ minDist = MaxFloat64
   ∨ ∃ b, done !! nearest = Some b ∧ minDist = sqdist x y b
          ∧ (∀ j q, done !! j = Some q -> minDist <= sqdist x y q)
          ∧ (∀ j q, (j < nearest)%nat -> done !! j = Some q ->
                    minDist < sqdist x y q)) ->
  done ++ rest ≠ [] ->
  ∃ b, (done ++ rest) !! findNearestPoint_loop x y rest (length done) minDist nearest
       = Some b
       ∧ (∀ j q, (done ++ rest) !! j = Some q -> sqdist x y b <= sqdist x y q)
       ∧ (∀ j q, (j < findNearestPoint_loop x y rest (length done) minDist nearest)%nat ->
                 (done ++ rest) !! j = Some q -> sqdist x y b < sqdist x y q).
Proof.
  induction rest as [| p rest IH]; intros done minDist nearest Hok Hstate Hne.
  - rewrite app_nil_r in *. simpl.
    destruct Hstate as [[-> _] | (b & Hb & -> & Hall & Hfirst)]; [done |].
    exists b. split; [exact Hb |]. split; [exact Hall | exact Hfirst].
  - apply Forall_cons in Hok as [Hp Hok].
    cbn [findNearestPoint_loop]. cbv zeta.
    rewrite (scan_distance_exact p Hp).
    pose proof (sqdist_below_max p Hp) as Hsmall.
    replace (done ++ p :: rest) with ((done ++ [p]) ++ rest)
      by (by rewrite <- app_assoc).
    replace (S (length done)) with (length (done ++ [p]))
      by (rewrite length_app; simpl; lia).
    assert (Hlast : ∀ j q, (done ++ [p]) !! j = Some q ->
              done !! j = Some q ∨ (j = length done ∧ q = p)).
    { intros j q Hj. apply lookup_app_Some in Hj as [Hj | [Hge Hj]]; [by left |].
      right. destruct (j - length done)%nat as [| k] eqn:Hk; [| done].
      simpl in Hj. split; [lia | congruence]. }
    destruct (Z.ltb_spec (sqdist x y p) minDist) as [Hlt | Hge].
    + apply IH; [exact Hok | | by destruct done].
      right. exists p. split; [| split; [reflexivity | split]].
      * rewrite lookup_app_r by lia. by rewrite Nat.sub_diag.
      * intros j q Hj. destruct (Hlast j q Hj) as [Hd | [_ ->]]; [| lia].
        destruct Hstate as [[-> _] | (b & _ & -> & Hall & _)]; [done |].
        specialize (Hall j q Hd). lia.
      * intros j q Hlt' Hj. destruct (Hlast j q Hj) as [Hd | [-> _]]; [| lia].
        destruct Hstate as [[-> _] | (b & _ & -> & Hall & _)]; [done |].
        specialize (Hall j q Hd). lia.
    + apply IH; [exact Hok | | by destruct done].
      destruct Hstate as [[_ ->] | (b & Hb & -> & Hall & Hfirst)]; [lia |].
      right. exists b. split; [| split; [reflexivity | split]].
      * apply lookup_app_l_Some. exact Hb.
      * intros j q Hj. destruct (Hlast j q Hj) as [Hd | [_ ->]]; [| lia].
        by apply (Hall j).
      * intros j q Hlt' Hj. destruct (Hlast j q Hj) as [Hd | [-> _]].
        -- by apply (Hfirst j).
        -- apply lookup_lt_Some in Hb. lia.
Qed.

End ScanFirst.

Section ScanFirstResult.
Import KD Voronoi.

(** X4: on coordinates of magnitude at most 2^25 the scan [findNearestPoint]
    returns the position of a seed at the least squared distance from the
    pixel, and among several such seeds the one that comes first in the
    slice: every seed before the returned position is strictly farther. *)
Theorem findNearestPoint_first (points : list Point) (x y : Z) :
  points ≠ [] -> coord_ok x -> coord_ok y -> Forall seed_ok points ->
  ∃ b, points !! findNearestPoint x y points = Some b
       ∧ (∀ j q, points !! j = Some q -> sqdist x y b <= sqdist x y q)
       ∧ (∀ j q, (j < findNearestPoint x y points)%nat -> points !! j = Some q ->
                 sqdist x y b < sqdist x y q).
Proof.
  intros Hne Hx Hy Hok.
  apply (findNearestPoint_loop_first x y Hx Hy points [] MaxFloat64 0%nat);
    [exact Hok | by left | exact Hne].
Qed.

Lemma findNearestPoint_first_witness :
  let shade := RGBA8 0 0 0 255 in
  let points := [mkPoint 9 9 shade 0; mkPoint 0 0 shade 1; mkPoint 2 0 shade 2] in
  ∃ b, points !! findNearestPoint 1 0 points = Some b
       ∧ (∀ j q, points !! j = Some q -> sqdist 1 0 b <= sqdist 1 0 q)
       ∧ (∀ j q, (j < findNearestPoint 1 0 points)%nat -> points !! j = Some q ->
                 sqdist 1 0 b < sqdist 1 0 q).
Proof.
  intros shade points.
  apply (findNearestPoint_first points 1 0).
  - discriminate.
  - unfold coord_ok. lia.
  - unfold coord_ok. lia.
  - repeat constructor; simpl; lia.
Defined.

(** The seed [FindNearest] reports is at the least distance. *)
Lemma FindNearest_nearest points x y :
  points ≠ [] -> coord_ok x -> coord_ok y -> Forall seed_ok points ->
  ∃ p, p ∈ points
       ∧ FindNearest (NewKDTree points) x y = Index p
       ∧ Forall (λ q, sqdist x y p <= sqdist x y q) points.
Proof.
  intros Hne Hx Hy Hok.
  pose proof (NewKDTree_kd_inv points) as Hinv.
  pose proof (NewKDTree_elems points) as Hperm.
  unfold FindNearest.
  destruct (root (NewKDTree points)) as [| p0 l r axis] eqn:Hroot.
  { simpl in Hperm. apply Permutation_nil in Hperm. congruence. }
  set (t := Node p0 l r axis) in *.
  assert (Hokt : Forall seed_ok (elems t))
    by (eapply Permutation_Forall; [symmetry; exact Hperm | exact Hok]).
  set (best := (p0, distanceSquared x y (X p0) (Y p0))).
  assert (Hbest : best_ok x y best).
  { unfold best_ok, best; simpl. apply distanceSquared_exact; try done.
    by apply Forall_cons in Hokt as [? _]. }
  destruct (findNearestHelper_spec x y Hx Hy t 0%nat best Hinv Hokt Hbest)
    as (Hres & _ & Hall).
  set (res := findNearestHelper t x y best) in *.
  exists res.1. split; [| split; [reflexivity |]].
  - rewrite <- Hperm.
    destruct (findNearestHelper_in t x y best) as [Heq | Hin]; [| exact Hin].
    fold res in Heq. rewrite Heq. left.
  - eapply Permutation_Forall; [exact Hperm |].
    eapply Forall_impl; [exact Hall |]. simpl. unfold best_ok in Hres.
    intros q Hq. lia.
Qed.

(** X5: the k-d tree search and the scan name the same seed wherever the
    nearest seed is unique.  When every seed carries its position as its
    index and only one seed lies at the least distance from the pixel,
    [FindNearest] on the tree returns the position [findNearestPoint]
    returns, so the rasterizer and the border detector agree there. *)
Theorem FindNearest_agrees_with_scan (points : list Point) (x y : Z) :
  points ≠ [] -> coord_ok x -> coord_ok y -> Forall seed_ok points ->
  (∀ i p, points !! i = Some p -> Index p = Z.of_nat i) ->
  unique_nearest x y points ->
  FindNearest (NewKDTree points) x y = Z.of_nat (findNearestPoint x y points).
Proof.
  intros Hne Hx Hy Hok Hidx Huniq.
  destruct (FindNearest_nearest points x y Hne Hx Hy Hok) as (p & Hin & -> & Hmin).
  destruct (findNearestPoint_spec x y points Hx Hy Hok Hne) as (b & Hb & Hbmin).
  apply list_elem_of_lookup_1 in Hin as [i Hi].
  rewrite (Hidx i p Hi). f_equal.
  exact (Huniq i _ p b Hi Hb Hmin Hbmin).
Qed.

Lemma FindNearest_agrees_with_scan_witness :
  let shade := RGBA8 0 0 0 255 in
  let points := [mkPoint 9 9 shade 0; mkPoint 0 0 shade 1; mkPoint 3 0 shade 2] in
  FindNearest (NewKDTree points) 1 0 = Z.of_nat (findNearestPoint 1 0 points).
Proof.
  intros shade points.
  apply (FindNearest_agrees_with_scan points 1 0).
  - discriminate.
  - unfold coord_ok. lia.
  - unfold coord_ok. lia.
  - repeat constructor; simpl; lia.
  - intros [| [| [| i]]] p Hp; simpl in Hp; try discriminate;
      injection Hp as <-; reflexivity.
  - intros i j p q Hi Hj Hp Hq.
    rewrite Forall_forall in Hp, Hq.
    assert (Hp1 : sqdist 1 0 p <= 1)
      by (apply (Hp (mkPoint 0 0 shade 1)); right; left).
    assert (Hq1 : sqdist 1 0 q <= 1)
      by (apply (Hq (mkPoint 0 0 shade 1)); right; left).
    destruct i as [| [| [| i]]]; simpl in Hi; try discriminate;
      injection Hi as <-; vm_compute in Hp1; try (exfalso; apply Hp1; reflexivity);
      destruct j as [| [| [| j]]]; simpl in Hj; try discriminate;
      injection Hj as <-; vm_compute in Hq1; try (exfalso; apply Hq1; reflexivity);
      reflexivity.
Defined.

(** With two seeds at the same distance the two searches can differ: the
    scan keeps the first, the tree the one it meets first on its way down. *)
Example searches_differ_on_a_tie :
  let shade := RGBA8 0 0 0 255 in
  let points := [mkPoint 0 0 shade 0; mkPoint 2 0 shade 1] in
  findNearestPoint 1 0 points = 0%nat
  ∧ FindNearest (NewKDTree points) 1 0 = 1.
Proof. split; reflexivity. Qed.

End ScanFirstResult.

(** ** voronoi.go: the binary search *)

Section BinarySearch.
Import Sampler.
Context {F : Type} {ops : FloatOps F}.

Variable arr : list F.
Variable value : F.

(** The entries below [value] come first. *)
Hypothesis Hmono : ∀ i j a b,
  (i <= j)%nat -> arr !! i = Some a -> arr !! j = Some b ->
  f_lt b value = true -> f_lt a value = true.

Lemma binarySearch_loop_lower fuel : ∀ left right,
  0 <= left <= right -> right < Z.of_nat (length arr) ->
  right - left <= Z.of_nat fuel ->
  (∀ i a, Z.of_nat i < left -> arr !! i = Some a -> f_lt a value = true) ->
  (right < Z.of_nat (length arr) - 1 ->
   ∃ a, arr !! Z.to_nat right = Some a ∧ f_lt a value = false) ->
  ∃ r, binarySearch_loop fuel arr value left right = Done r
       ∧ left <= r <= right
       ∧ (∀ i a, Z.of_nat i < r -> arr !! i = Some a -> f_lt a value = true)
       ∧ (r < Z.of_nat (length arr) - 1 ->
          ∃ a, arr !! Z.to_nat r = Some a ∧ f_lt a value = false).
Proof.
  induction fuel as [| fuel IH]; intros left right Hlr Hlen Hfuel Hbelow Hat.
  - assert (left = right) as -> by lia.
    exists right. cbn [binarySearch_loop].
    rewrite Z.ltb_irrefl. repeat split; try done; lia.
  - cbn [binarySearch_loop].
    destruct (Z.ltb_spec left right) as [Hlt | Hge].
    2: { assert (left = right) as -> by lia.
         exists right. repeat split; try done; lia. }
    assert (Hmid : left <= Z.quot (left + right) 2 < right).
    { rewrite Z.quot_div_nonneg by lia.
      pose proof (Z.div_le_lower_bound (left + right) 2 left).
      pose proof (Z.div_lt_upper_bound (left + right) 2 right). lia. }
    set (mid := Z.quot (left + right) 2) in *.
    destruct (lookup_lt_is_Some_2 arr (Z.to_nat mid) ltac:(lia)) as [a Ha].
    rewrite (load_lookup arr mid a ltac:(lia) Ha). cbn [obind].
    destruct (f_lt a value) eqn:Hcmp.
    + destruct (IH (mid + 1) right ltac:(lia) Hlen ltac:(lia))
        as (r & -> & Hr & Hrb & Hra); [| exact Hat |].
      { intros i b Hi Hb.
        apply (Hmono i (Z.to_nat mid) b a); [lia | exact Hb | exact Ha | exact Hcmp]. }
      exists r. repeat split; try done; lia.
    + destruct (IH left mid ltac:(lia) ltac:(lia) ltac:(lia) Hbelow)
        as (r & -> & Hr & Hrb & Hra); [by intros _; exists a |].
      exists r. repeat split; try done; lia.
Qed.

End BinarySearch.

Section BinarySearchResult.
Import Sampler.
Context {F : Type} {ops : FloatOps F}.

(** X6: on a non-empty slice in which the entries below [value] come first
    (as in a non-decreasing slice), [binarySearch] returns a position [r] of
    the slice such that every entry before [r] is below [value] and, unless
    [r] is the last position, the entry at [r] is not: the first position
    whose entry reaches [value], or the last position when none before it
    does.  On the empty slice it returns 0. *)
Theorem binarySearch_lower_bound (arr : list F) (value : F) :
  arr ≠ [] ->
  (∀ i j a b, (i <= j)%nat -> arr !! i = Some a -> arr !! j = Some b ->
              f_lt b value = true -> f_lt a value = true) ->
  binarySearch [] value = Done 0
  ∧ ∃ r, binarySearch arr value = Done r
         ∧ 0 <= r < Z.of_nat (length arr)
         ∧ (∀ i a, Z.of_nat i < r -> arr !! i = Some a -> f_lt a value = true)
         ∧ (r < Z.of_nat (length arr) - 1 ->
            ∃ a, arr !! Z.to_nat r = Some a ∧ f_lt a value = false).
Proof.
  intros Hne Hmono. split; [reflexivity |]. unfold binarySearch.
  assert (0 < length arr)%nat by (destruct arr; [done | simpl; lia]).
  destruct (binarySearch_loop_lower arr value Hmono (length arr) 0
              (Z.of_nat (length arr) - 1))
    as (r & Hr & Hrange & Hbelow & Hat); try lia.
  exists r. repeat split; try done; lia.
Qed.

End BinarySearchResult.

Section BinarySearchCases.
Import Sampler.

Lemma binarySearch_lower_bound_witness :
  let arr : list PrimFloat.float := [f_lit 1 1; f_lit 5 2; f_lit 5 2; f_lit 7 1] in
  let value : PrimFloat.float := f_lit 2 1 in
  binarySearch [] value = Done 0
  ∧ ∃ r, binarySearch arr value = Done r
         ∧ 0 <= r < Z.of_nat (length arr)
         ∧ (∀ i a, Z.of_nat i < r -> arr !! i = Some a -> f_lt a value = true)
         ∧ (r < Z.of_nat (length arr) - 1 ->
            ∃ a, arr !! Z.to_nat r = Some a ∧ f_lt a value = false).
Proof.
  intros arr value.
  apply (binarySearch_lower_bound arr value); [discriminate |].
  intros [| [| [| [| i]]]] [| [| [| [| j]]]] a b Hij Ha Hb;
    simpl in Ha, Hb; try discriminate; try lia;
    injection Ha as <-; injection Hb as <-;
    vm_compute; intros Hlt; first [exact Hlt | reflexivity].
Defined.

Example binarySearch_finds_second :
  binarySearch (F := PrimFloat.float)
    [f_lit 1 1; f_lit 5 2; f_lit 5 2; f_lit 7 1] (f_lit 2 1) = Done 1.
Proof. vm_compute. reflexivity. Qed.

End BinarySearchCases.

(** ** voronoi.go: the edge map *)

Section EdgeMapFacts.
Import Sampler EdgeMap.
Context {F : Type} {ops : FloatOps F}.





End EdgeMapFacts.

Section EdgeMapCases.
Import Sampler EdgeMap.


End EdgeMapCases.

(** ** Pixels of an image under [Set] *)

Section PixelFacts.

Lemma Bounds_SetPixel img x y c : Bounds (SetPixel img x y c) = Bounds img.
Proof. unfold SetPixel. by destruct (inRect (Bounds img) x y). Qed.

Lemma At_SetPixel_eq img x y c :
  inRect (Bounds img) x y = true -> At (SetPixel img x y c) x y = toRGBA8 c.
Proof.
  intros Hin. unfold SetPixel, At. rewrite Hin. simpl. rewrite Hin.
  by rewrite lookup_insert_eq.
Qed.

Lemma At_SetPixel_ne img x y c x' y' :
  (x', y') ≠ (x, y) -> At (SetPixel img x y c) x' y' = At img x' y'.
Proof.
  intros Hne. unfold SetPixel, At.
  destruct (inRect (Bounds img) x y); [| reflexivity]. simpl.
  by rewrite lookup_insert_ne.
Qed.

Lemma At_outside img x y : inRect (Bounds img) x y = false -> At img x y = RGBA8 0 0 0 0.
Proof. intros Hout. unfold At. by rewrite Hout. Qed.


(** A loop over pixels that sets some of them, each to a colour that
    depends on the pixel only. *)
Lemma fold_paint (f : RGBAImage -> Z * Z -> RGBAImage)
    (paint : Z -> Z -> option Color) :
  (∀ r x y, f r (x, y) = match paint x y with
                         | Some c => SetPixel r x y c
                         | None => r
                         end) ->
  ∀ l img,
    Bounds (fold_left f l img) = Bounds img
    ∧ ∀ x y, At (fold_left f l img) x y
             = match paint x y with
               | Some c =>
                   if bool_decide ((x, y) ∈ l) && inRect (Bounds img) x y
                   then toRGBA8 c else At img x y
               | None => At img x y
               end.
Proof.
  intros Hf. induction l as [| [px py] l IH]; intros img.
  - split; [reflexivity |]. intros x y. simpl. by destruct (paint x y).
  - cbn [fold_left]. destruct (IH (f img (px, py))) as [Hb Hat].
    assert (Hb1 : Bounds (f img (px, py)) = Bounds img).
    { rewrite Hf. destruct (paint px py); [apply Bounds_SetPixel | reflexivity]. }
    split; [by rewrite Hb |].
    intros x y. rewrite Hat, Hb1.
    destruct (decide ((x, y) = (px, py))) as [Heq | Hne].
    + injection Heq as -> ->.
      destruct (paint px py) as [c |] eqn:Hp.
      * rewrite (bool_decide_eq_true_2 ((px, py) ∈ (px, py) :: l)) by left.
        destruct (inRect (Bounds img) px py) eqn:Hin.
        -- rewrite andb_true_r. simpl.
           rewrite Hf, Hp, At_SetPixel_eq by done.
           by destruct (bool_decide _).
        -- rewrite andb_false_r. simpl.
           rewrite Hf, Hp. unfold SetPixel. by rewrite Hin.
      * by rewrite Hf, Hp.
    + assert (Hsame : At (f img (px, py)) x y = At img x y).
      { rewrite Hf. destruct (paint px py); [by apply At_SetPixel_ne | reflexivity]. }
      rewrite Hsame.
      destruct (paint x y) as [c |]; [| reflexivity].
      assert (Hmem : bool_decide ((x, y) ∈ (px, py) :: l) = bool_decide ((x, y) ∈ l)).
      { apply bool_decide_ext. rewrite elem_of_cons.
        split; [intros [Heq | Hl]; [congruence | exact Hl] | by right]. }
      by rewrite Hmem.
Qed.

Lemma inRect_pixels r x y : inRect r x y = true -> (x, y) ∈ pixels r.
Proof. intros Hin. by apply elem_of_pixels. Qed.

(** The copy loop [result.Set(x, y, img.At(x, y))] over the whole image. *)
Lemma copy_pixels img :
  let copied := fold_left (λ result '(x, y), SetPixel result x y (At img x y))
                          (pixels (Bounds img)) (NewRGBA (Bounds img)) in
  Bounds copied = Bounds img ∧ ∀ x y, At copied x y = toRGBA8 (At img x y).
Proof.
  destruct (fold_paint (λ result '(x, y), SetPixel result x y (At img x y))
              (λ x y, Some (At img x y)) ltac:(reflexivity)
              (pixels (Bounds img)) (NewRGBA (Bounds img))) as [Hb Hat].
  split; [exact Hb |]. intros x y. rewrite Hat. simpl.
  destruct (inRect (Bounds img) x y) eqn:Hin.
  - by rewrite (bool_decide_eq_true_2 _ (inRect_pixels _ _ _ Hin)).
  - rewrite andb_false_r. rewrite (At_outside img x y Hin).
    unfold At. simpl. by rewrite Hin.
Qed.

End PixelFacts.

(** ** wasm/wasm_helpers.go and wasm/paintbynumbers.go: the borders *)

Section Borders.
Import Voronoi Border PlainBorder.

Lemma bordersWithWidth_pixels (img : RGBAImage) (points : list Point)
    (width : Z) :
  width ≠ 0 ->
  Bounds (addVoronoiBordersWithWidth img points width) = Bounds img
  ∧ ∀ x y, inRect (Bounds img) x y = true ->
      At (addVoronoiBordersWithWidth img points width) x y
      = if isBorderPixelWithWidth x y img points width
        then RGBA8 0 0 0 255 else toRGBA8 (At img x y).
Proof.
  intros Hw. unfold addVoronoiBordersWithWidth.
  destruct (Z.eqb_spec width 0) as [| _]; [done |].
  destruct (copy_pixels img) as [Hcb Hcat]. cbv zeta in Hcb, Hcat.
  set (copied := fold_left _ (pixels (Bounds img)) (NewRGBA (Bounds img))) in *.
  destruct (fold_paint
              (λ result '(x, y),
                 if isBorderPixelWithWidth x y img points width
                 then SetPixel result x y (RGBA8 0 0 0 255) else result)
              (λ x y, if isBorderPixelWithWidth x y img points width
                      then Some (RGBA8 0 0 0 255) else None)
              ltac:(intros r x' y'; simpl;
                    by destruct (isBorderPixelWithWidth x' y' img points width))
              (pixels (Bounds img)) copied) as [Hb Hat].
  split; [by rewrite Hb |].
  intros x y Hin. rewrite Hat, Hcb, Hin, Hcat.
  rewrite (bool_decide_eq_true_2 _ (inRect_pixels _ _ _ Hin)).
  by destruct (isBorderPixelWithWidth x y img points width).
Qed.

(** X8: for a non-zero width [addVoronoiBordersWithWidth] returns an image
    with the bounds of its argument in which a pixel is black exactly where
    [isBorderPixelWithWidth] holds and shows the argument's colour
    everywhere else: no pixel off a border is changed. *)
Theorem addVoronoiBordersWithWidth_pixels (img : RGBAImage) (points : list Point)
    (width : Z) :
  width ≠ 0 ->
  Bounds (addVoronoiBordersWithWidth img points width) = Bounds img
  ∧ ∀ x y, inRect (Bounds img) x y = true ->
      At (addVoronoiBordersWithWidth img points width) x y
      = if isBorderPixelWithWidth x y img points width
        then RGBA8 0 0 0 255 else toRGBA8 (At img x y).
Proof. apply bordersWithWidth_pixels. Qed.

Lemma addVoronoiBordersWithWidth_pixels_witness :
  let red := RGBA8 255 0 0 255 in
  let blue := RGBA8 0 0 255 255 in
  let strip := mkRect 0 0 4 1 in
  let seeds := [mkPoint 0 0 red 0; mkPoint 3 0 blue 1] in
  let img := fold_left (λ im '(x, y), SetPixel im x y (if x <? 2 then red else blue))
                       (pixels strip) (NewRGBA strip) in
  Bounds (addVoronoiBordersWithWidth img seeds 3) = Bounds img
  ∧ ∀ x y, inRect (Bounds img) x y = true ->
      At (addVoronoiBordersWithWidth img seeds 3) x y
      = if isBorderPixelWithWidth x y img seeds 3
        then RGBA8 0 0 0 255 else toRGBA8 (At img x y).
Proof.
  intros red blue strip seeds img.
  apply (addVoronoiBordersWithWidth_pixels img seeds 3). lia.
Defined.

Lemma isBorderPixel_within_width x y img points width :
  1 <= width < 2 ^ 31 ->
  - 2 ^ 62 <= x < 2 ^ 62 -> - 2 ^ 62 <= y < 2 ^ 62 ->
  isBorderPixel x y img points = true ->
  isBorderPixelWithWidth x y img points width = true.
Proof.
  intros Hw Hx Hy. unfold isBorderPixel, isBorderPixelWithWidth. cbv zeta.
  rewrite (wrap64_small (width + 1)) by lia.
  set (radius := Z.quot (width + 1) 2).
  assert (Hr : 1 <= radius < 2 ^ 31).
  { unfold radius. rewrite Z.quot_div_nonneg by lia.
    pose proof (Z.div_le_lower_bound (width + 1) 2 1).
    pose proof (Z.div_lt_upper_bound (width + 1) 2 (2 ^ 31)). lia. }
  assert (Hrr : 1 <= radius * radius < 2 ^ 62) by nia.
  rewrite (wrap64_small (x + 1)), (wrap64_small (y + 1)) by lia.
  cbn [existsb]. rewrite orb_false_r.
  intros Hnb. apply existsb_exists.
  apply orb_true_iff in Hnb as [Hright | Hdown].
  - exists 0. split; [apply list_elem_of_In, elem_of_zrange; lia |].
    apply existsb_exists. exists 1.
    split; [apply list_elem_of_In, elem_of_zrange; lia |].
    simpl ((1 =? 0) && (0 =? 0)). cbv iota.
    replace (wrap64 (wrap64 (1 * 1) + wrap64 (0 * 0))) with 1 by reflexivity.
    rewrite (wrap64_small (radius * radius)) by lia.
    destruct (Z.gtb_spec 1 (radius * radius)); [lia |].
    rewrite (wrap64_small (x + 1)) by lia.
    replace (wrap64 (y + 0)) with y by (rewrite Z.add_0_r, wrap64_small; lia).
    exact Hright.
  - exists 1. split; [apply list_elem_of_In, elem_of_zrange; lia |].
    apply existsb_exists. exists 0.
    split; [apply list_elem_of_In, elem_of_zrange; lia |].
    simpl ((0 =? 0) && (1 =? 0)). cbv iota.
    replace (wrap64 (wrap64 (0 * 0) + wrap64 (1 * 1))) with 1 by reflexivity.
    rewrite (wrap64_small (radius * radius)) by lia.
    destruct (Z.gtb_spec 1 (radius * radius)); [lia |].
    rewrite (wrap64_small (y + 1)) by lia.
    replace (wrap64 (x + 0)) with x by (rewrite Z.add_0_r, wrap64_small; lia).
    exact Hdown.
Qed.

(** X9: the one-pixel border renderer [addVoronoiBorders] paints black
    exactly the pixels whose right or lower neighbour belongs to another
    seed and copies every other pixel, and each pixel it paints is also
    painted by [addVoronoiBordersWithWidth] for every width from 1 on: the
    plain borders are a subset of the borders of any width. *)
Theorem addVoronoiBorders_pixels (img : RGBAImage) (points : list Point)
    (width x y : Z) :
  inRect (Bounds img) x y = true ->
  1 <= width < 2 ^ 31 ->
  - 2 ^ 62 <= x < 2 ^ 62 -> - 2 ^ 62 <= y < 2 ^ 62 ->
  Bounds (addVoronoiBorders img points) = Bounds img
  ∧ At (addVoronoiBorders img points) x y
    = (if isBorderPixel x y img points
       then RGBA8 0 0 0 255 else toRGBA8 (At img x y))
  ∧ (isBorderPixel x y img points = true ->
     At (addVoronoiBordersWithWidth img points width) x y = RGBA8 0 0 0 255).
Proof.
  intros Hin Hw Hx Hy. unfold addVoronoiBorders.
  destruct (copy_pixels img) as [Hcb Hcat]. cbv zeta in Hcb, Hcat.
  set (copied := fold_left _ (pixels (Bounds img)) (NewRGBA (Bounds img))) in *.
  destruct (fold_paint
              (λ result '(x, y),
                 if isBorderPixel x y img points
                 then SetPixel result x y (RGBA8 0 0 0 255) else result)
              (λ x y, if isBorderPixel x y img points
                      then Some (RGBA8 0 0 0 255) else None)
              ltac:(intros r x' y'; simpl;
                    by destruct (isBorderPixel x' y' img points))
              (pixels (Bounds img)) copied) as [Hb Hat].
  split; [by rewrite Hb |]. split.
  - rewrite Hat, Hcb, Hin, Hcat.
    rewrite (bool_decide_eq_true_2 _ (inRect_pixels _ _ _ Hin)).
    by destruct (isBorderPixel x y img points).
  - intros Hborder.
    destruct (bordersWithWidth_pixels img points width ltac:(lia))
      as [_ Hwat].
    rewrite (Hwat x y Hin).
    by rewrite (isBorderPixel_within_width x y img points width Hw Hx Hy Hborder).
Qed.

End Borders.

Section BorderCases.
Import Voronoi Border PlainBorder.

Lemma addVoronoiBorders_pixels_witness :
  let red := RGBA8 255 0 0 255 in
  let blue := RGBA8 0 0 255 255 in
  let strip := mkRect 0 0 4 1 in
  let seeds := [mkPoint 0 0 red 0; mkPoint 3 0 blue 1] in
  let img := fold_left (λ im '(x, y), SetPixel im x y (if x <? 2 then red else blue))
                       (pixels strip) (NewRGBA strip) in
  Bounds (addVoronoiBorders img seeds) = Bounds img
  ∧ At (addVoronoiBorders img seeds) 1 0
    = (if isBorderPixel 1 0 img seeds
       then RGBA8 0 0 0 255 else toRGBA8 (At img 1 0))
  ∧ (isBorderPixel 1 0 img seeds = true ->
     At (addVoronoiBordersWithWidth img seeds 2) 1 0 = RGBA8 0 0 0 255).
Proof.
  intros red blue strip seeds img.
  apply (addVoronoiBorders_pixels img seeds 2 1 0); [reflexivity | lia | lia | lia].
Defined.

(** The plain border is one-sided: of the two pixels that face each other
    across the boundary only the left one is painted, the border of width 1
    paints both. *)
Example plain_border_is_one_sided :
  let red := RGBA8 255 0 0 255 in
  let blue := RGBA8 0 0 255 255 in
  let strip := mkRect 0 0 4 1 in
  let seeds := [mkPoint 0 0 red 0; mkPoint 3 0 blue 1] in
  let img := fold_left (λ im '(x, y), SetPixel im x y (if x <? 2 then red else blue))
                       (pixels strip) (NewRGBA strip) in
  map (λ '(x, y), At (addVoronoiBorders img seeds) x y) (pixels strip)
  = [red; RGBA8 0 0 0 255; blue; blue]
  ∧ map (λ '(x, y), At (addVoronoiBordersWithWidth img seeds 1) x y) (pixels strip)
    = [red; RGBA8 0 0 0 255; RGBA8 0 0 0 255; blue].
Proof. split; vm_compute; reflexivity. Qed.

End BorderCases.

(** ** textdraw.go: the numerals *)

Section Numerals.
Import KD Labeler Canvas.

(** X10: the stamp of a seed whose index is 99 or more loses its leading
    digits.  [drawNumber] draws two digits at most; for a number of 100 or
    more the tens digit it computes is above 9 and is skipped by
    [drawDigit], so only the last digit of [ColorIndex + 1] is drawn, three
    pixels right of the centroid. *)
Theorem stamp_drops_leading_digits (img : RGBAImage) (region : Region) :
  99 <= ColorIndex region < 2 ^ 63 - 1 ->
  stamp img region
  = drawDigit img (Z.rem (ColorIndex region + 1) 10)
              (wrap64 ((Centroid region).1 + 3)) (Centroid region).2.
Proof.
  intros Hidx. unfold stamp, drawNumber.
  rewrite (wrap64_small (ColorIndex region + 1)) by lia.
  set (num := ColorIndex region + 1).
  destruct (Z.leb_spec 10 num) as [_ | Hsmall]; [| lia].
  assert (Htens : 10 <= Z.quot num 10).
  { rewrite Z.quot_div_nonneg by lia.
    apply Z.div_le_lower_bound; lia. }
  unfold drawDigit at 2.
  destruct (Z.ltb_spec (Z.quot num 10) 0) as [Hneg | _]; [lia |].
  destruct (Z.gtb_spec (Z.quot num 10) 9) as [_ | Hle]; [| lia].
  reflexivity.
Qed.

Lemma stamp_drops_leading_digits_witness :
  let img := NewRGBA (mkRect 0 0 20 20) in
  let region := mkRegion 122 [] (10, 10) 0 in
  stamp img region = drawDigit img (Z.rem (122 + 1) 10) (wrap64 (10 + 3)) 10.
Proof.
  intros img region.
  apply (stamp_drops_leading_digits img region). simpl. lia.
Defined.

Lemma painted_refl ink img : painted_from ink img img.
Proof. split; [reflexivity | by left]. Qed.

Lemma painted_trans ink img1 img2 img3 :
  painted_from ink img1 img2 -> painted_from ink img2 img3 ->
  painted_from ink img1 img3.
Proof.
  intros [Hb1 H1] [Hb2 H2]. split; [congruence |].
  intros x y. destruct (H2 x y) as [Heq | Hink]; [| by right].
  rewrite Heq. destruct (H1 x y) as [Heq1 | Hink1]; [by left | by right].
Qed.

Lemma painted_mono (ink1 ink2 : Color -> Prop) img res :
  (∀ c, ink1 c -> ink2 c) -> painted_from ink1 img res -> painted_from ink2 img res.
Proof.
  intros Hsub [Hb H1]. split; [exact Hb |].
  intros x y. destruct (H1 x y); [by left | right; by apply Hsub].
Qed.

Lemma painted_SetPixel (ink : Color -> Prop) img x y c :
  ink (toRGBA8 c) -> painted_from ink img (SetPixel img x y c).
Proof.
  intros Hink. split; [apply Bounds_SetPixel |].
  intros x' y'. destruct (decide ((x', y') = (x, y))) as [Heq | Hne].
  - injection Heq as -> ->.
    destruct (inRect (Bounds img) x y) eqn:Hin.
    + right. by rewrite At_SetPixel_eq.
    + left. unfold SetPixel. by rewrite Hin.
  - left. by apply At_SetPixel_ne.
Qed.

Lemma painted_fold {A} (ink : Color -> Prop) (f : RGBAImage -> A -> RGBAImage) l :
  (∀ r a, painted_from ink r (f r a)) ->
  ∀ img, painted_from ink img (fold_left f l img).
Proof.
  intros Hf. induction l as [| a l IH]; intros img; [apply painted_refl |].
  simpl. eapply painted_trans; [apply Hf | apply IH].
Qed.

Lemma painted_drawBitmap img bitmap startX startY c :
  painted_from (λ k, k = toRGBA8 c) img (drawBitmap img bitmap startX startY c).
Proof.
  unfold drawBitmap. apply painted_fold. intros r [x y].
  destruct (inRect (Bounds r) _ _); [by apply painted_SetPixel | apply painted_refl].
Qed.

Lemma painted_drawDigit img digit centerX centerY :
  painted_from numeral_ink img (drawDigit img digit centerX centerY).
Proof.
  unfold drawDigit.
  destruct ((digit <? 0) || (digit >? 9)); [apply painted_refl |].
  match goal with
  | |- painted_from _ _ (drawBitmap ?outlined _ _ _ _) =>
      apply (painted_trans _ _ outlined)
  end.
  - apply painted_fold. intros r [dx dy].
    destruct ((dx =? 0) && (dy =? 0)); [apply painted_refl |].
    eapply painted_mono; [| apply painted_drawBitmap].
    intros c ->. by left.
  - eapply painted_mono; [| apply painted_drawBitmap].
    intros c ->. by right.
Qed.

Lemma painted_stamp img region : painted_from numeral_ink img (stamp img region).
Proof.
  unfold stamp, drawNumber. destruct (10 <=? _).
  - match goal with
    | |- painted_from _ _ (drawDigit ?first _ _ _) =>
        apply (painted_trans _ _ first)
    end; apply painted_drawDigit.
  - apply painted_drawDigit.
Qed.

End Numerals.

(** ** textdraw.go: the regions reported *)

Section Reports.
Import KD Labeler Regions.

Variable kdtree : KDTree.
Variable bounds : Rectangle.
Hypothesis Hok : image_ok bounds.

Local Abbreviation label := (FindNearest kdtree).

Lemma closed_fresh V q0 :
  closed bounds label V -> ¬ seen bounds V q0 ->
  ∀ q, connected bounds label q0 q -> ¬ seen bounds V q.
Proof.
  intros Hclosed Hunseen q Hc Hs. apply Hunseen.
  apply (Hclosed q q0); [| exact Hs | by apply connected_sym].
  by destruct (connected_member _ _ _ _ Hc).
Qed.

Lemma region_ok_inside r q :
  region_ok bounds label r -> q ∈ Pixels r -> inside bounds q.
Proof.
  intros (_ & _ & _ & p0 & (_ & _ & Hiff) & _) Hq.
  apply Hiff in Hq. by destruct (connected_member _ _ _ _ Hq).
Qed.

Lemma report_step V regions q0 :
  report_inv bounds label V regions ->
  inside bounds q0 ->
  ∃ V' regions',
    (let idx := pixelIndex bounds q0.1 q0.2 in
     let* seen := load V idx in
     if seen : bool then Done (V, regions)
     else
       let colorIdx := label q0.1 q0.2 in
       let* (region, visited) := floodFill q0.1 q0.2 colorIdx V kdtree bounds in
       if (100 <=? length (Pixels region))%nat then
         Done (visited,
               regions ++ [mkRegion (ColorIndex region) (Pixels region)
                                    (centroidOf (Pixels region))
                                    (Z.of_nat (length (Pixels region)))])
       else Done (visited, regions))%outcome
    = Done (V', regions')
    ∧ report_inv bounds label V' regions'.
Proof.
  intros [Hlen Hclosed Hrok Hseen Hnd] Hin.
  pose proof (pixelIndex_range bounds Hok q0 Hin) as Hidx.
  destruct (lookup_lt_is_Some_2 V (Z.to_nat (pixelIndex bounds q0.1 q0.2))
              ltac:(lia)) as [b Hb].
  cbv zeta. rewrite (load_lookup V _ b) by (lia || done). cbn [obind].
  destruct b.
  { exists V, regions. split; [reflexivity | by split]. }
  assert (Hunseen : ¬ seen bounds V q0) by (unfold seen; congruence).
  pose proof (closed_fresh V q0 Hclosed Hunseen) as Hfresh.
  destruct (floodFill_spec kdtree bounds Hok q0 V Hlen Hin Hfresh Hunseen)
    as (region & V' & Hrun & Hci & Hrnd & Hpix & Hlen' & Hseen').
  rewrite Hrun. cbn [obind].
  assert (Hlength' : Z.of_nat (length V') = Dx bounds * Dy bounds) by congruence.
  assert (Hclosed' : closed bounds label V').
  { intros p q Hp Hsp Hc.
    assert (Hq : inside bounds q) by (by destruct (connected_member _ _ _ _ Hc)).
    apply (Hseen' q Hq). apply (Hseen' p Hp) in Hsp as [Hsp | Hsp].
    - left. by apply (Hclosed p q).
    - right. apply Hpix. apply Hpix in Hsp.
      by apply (connected_trans _ _ q0 p q). }
  assert (Hkeep : ∀ r q, r ∈ regions -> q ∈ Pixels r -> seen bounds V' q).
  { intros r q Hr Hq. rewrite Forall_forall in Hrok.
    apply Hseen'; [by apply (region_ok_inside r), Hq; apply Hrok |].
    left. by apply (Hseen r). }
  destruct (Nat.leb_spec 100 (length (Pixels region))) as [Hbig | Hsmall].
  - eexists V', _. split; [reflexivity |]. split; try done.
    + apply Forall_app. split; [exact Hrok |]. constructor; [| constructor].
      repeat split; cbn [Pixels Area Centroid ColorIndex]; try done.
      exists q0. split; [| exact Hci]. by split.
    + intros r q Hr Hq. apply elem_of_app in Hr as [Hr | Hr]; [by apply (Hkeep r) |].
      apply list_elem_of_singleton in Hr as ->. cbn [Pixels] in Hq.
      apply Hseen'; [| by right].
      apply Hpix in Hq. by destruct (connected_member _ _ _ _ Hq).
    + rewrite bind_app. apply NoDup_app. split; [exact Hnd |]. split.
      * intros q Hq Hq'. simpl in Hq'. rewrite app_nil_r in Hq'.
        apply list_elem_of_bind in Hq as (r & Hqr & Hr).
        apply (Hfresh q); [by apply Hpix | by apply (Hseen r)].
      * simpl. by rewrite app_nil_r.
  - exists V', regions. split; [reflexivity |]. by split.
Qed.

Lemma findRegions_report img points :
  Bounds img = bounds ->
  ∃ regions,
    findRegions img points kdtree = Done regions
    ∧ Forall (region_ok bounds label) regions
    ∧ NoDup (regions ≫= Pixels).
Proof.
  intros Hb. unfold findRegions. rewrite Hb.
  destruct (Dx_exact bounds Hok) as [_ Hw], (Dy_exact bounds Hok) as [_ Hh].
  rewrite make_spec by nia. cbn [obind].
  match goal with
  | |- context [foldM ?f ?l ?s] =>
      destruct (foldM_invariant
                  (λ st, report_inv bounds label st.1 st.2) f l s)
        as ([V regions] & -> & Hfinal)
  end.
  - simpl. split.
    + rewrite length_replicate. nia.
    + intros p q _ Hp. by apply seen_replicate in Hp.
    + constructor.
    + intros r q Hr. by apply elem_of_nil in Hr.
    + constructor.
  - intros [V regions] [x y] Hxy Hinv.
    assert (Hin : inside bounds (x, y)) by (by apply (elem_of_pixels bounds)).
    destruct (report_step V regions (x, y) Hinv Hin) as (V' & regions' & Hrun & Hinv').
    by exists (V', regions').
  - cbn [obind]. exists regions. split; [reflexivity |].
    destruct Hfinal as [_ _ Hrok _ Hnd]. by split.
Qed.

End Reports.

Section ReportResults.
Import KD Labeler Regions Canvas.

(** X11: every region [findRegions] reports is a whole cell.  On an image
    with at least one pixel the call returns, and each entry of its result
    lists, each pixel once, exactly the pixels of one 4-connected set of
    pixels assigned to one seed, has at least 100 pixels, carries that seed's
    index, the number of its pixels as area and their centroid; and no pixel
    belongs to two entries. *)
Theorem findRegions_reports_cells (img : RGBAImage) (points : list Point)
    (kdtree : KDTree) :
  image_ok (Bounds img) ->
  ∃ regions,
    findRegions img points kdtree = Done regions
    ∧ Forall (region_ok (Bounds img) (FindNearest kdtree)) regions
    ∧ NoDup (regions ≫= Pixels).
Proof. intros Hok. by apply findRegions_report. Qed.

Lemma findRegions_reports_cells_witness :
  let seed := mkPoint 3 3 (RGBA8 9 9 9 255) 0 in
  let img := NewRGBA (mkRect 0 0 15 10) in
  ∃ regions,
    findRegions img [seed] (NewKDTree [seed]) = Done regions
    ∧ Forall (region_ok (Bounds img) (FindNearest (NewKDTree [seed]))) regions
    ∧ NoDup (regions ≫= Pixels).
Proof.
  intros seed img.
  apply (findRegions_reports_cells img [seed] (NewKDTree [seed])).
  unfold image_ok. simpl. lia.
Defined.

Lemma addRegionNumbers_painted (img : RGBAImage)
    (points : list Point) (kdtree : KDTree) :
  image_ok (Bounds img) ->
  ∃ result,
    addRegionNumbers img points kdtree = Done result
    ∧ Bounds result = Bounds img
    ∧ ∀ x y, At result x y = At img x y
             ∨ At result x y = RGBA8 0 0 0 255
             ∨ At result x y = RGBA8 255 255 255 255.
Proof.
  intros Hok.
  destruct (findRegions_report kdtree (Bounds img) Hok img points eq_refl)
    as (regions & Hrun & _).
  unfold addRegionNumbers. rewrite Hrun. cbn [obind].
  eexists. split; [reflexivity |].
  replace (mkImage (Bounds img) (Pix img)) with img by (by destruct img).
  destruct (painted_fold numeral_ink stamp regions painted_stamp img) as [Hb Hat].
  split; [exact Hb | exact Hat].
Qed.

(** X12: [addRegionNumbers] only adds numerals.  On an image with at least
    one pixel it returns an image with the same bounds in which every pixel
    either shows what the argument shows there or is black or white, the two
    colours of a numeral. *)
Theorem addRegionNumbers_only_draws_numerals (img : RGBAImage)
    (points : list Point) (kdtree : KDTree) :
  image_ok (Bounds img) ->
  ∃ result,
    addRegionNumbers img points kdtree = Done result
    ∧ Bounds result = Bounds img
    ∧ ∀ x y, At result x y = At img x y
             ∨ At result x y = RGBA8 0 0 0 255
             ∨ At result x y = RGBA8 255 255 255 255.
Proof. apply addRegionNumbers_painted. Qed.

Lemma addRegionNumbers_only_draws_numerals_witness :
  let seed := mkPoint 3 3 (RGBA8 9 9 9 255) 0 in
  let img := NewRGBA (mkRect 0 0 15 10) in
  ∃ result,
    addRegionNumbers img [seed] (NewKDTree [seed]) = Done result
    ∧ Bounds result = Bounds img
    ∧ ∀ x y, At result x y = At img x y
             ∨ At result x y = RGBA8 0 0 0 255
             ∨ At result x y = RGBA8 255 255 255 255.
Proof.
  intros seed img.
  apply (addRegionNumbers_only_draws_numerals img [seed] (NewKDTree [seed])).
  unfold image_ok. simpl. lia.
Defined.

End ReportResults.

(** ** textdraw.go: one flood fill *)

Section FillResult.
Import KD Labeler Regions.

(** X13: [floodFill] collects one cell.  Started on an unmarked pixel of an
    image whose marks are a union of whole cells, with the seed of that
    pixel as target, it returns; the region it returns lists, each once,
    exactly the pixels 4-connected to the start through pixels of the same
    seed; and it marks exactly those pixels in addition to the old marks. *)
Theorem floodFill_collects_cell (kdtree : KDTree) (bounds : Rectangle)
    (start : Z * Z) (visited : list bool) :
  image_ok bounds ->
  Z.of_nat (length visited) = Dx bounds * Dy bounds ->
  inside bounds start ->
  closed bounds (FindNearest kdtree) visited ->
  ¬ seen bounds visited start ->
  ∃ region visited',
    floodFill start.1 start.2 (FindNearest kdtree start.1 start.2)
              visited kdtree bounds = Done (region, visited')
    ∧ ColorIndex region = FindNearest kdtree start.1 start.2
    ∧ NoDup (Pixels region)
    ∧ (∀ q, q ∈ Pixels region ↔ connected bounds (FindNearest kdtree) start q)
    ∧ length visited' = length visited
    ∧ ∀ q, inside bounds q ->
        (seen bounds visited' q ↔ seen bounds visited q ∨ q ∈ Pixels region).
Proof.
  intros Hok Hlen Hstart Hclosed Hunseen.
  apply (floodFill_spec kdtree bounds Hok start visited Hlen Hstart); [| exact Hunseen].
  by apply closed_fresh.
Qed.

Lemma floodFill_collects_cell_witness :
  let seed := mkPoint 1 1 (RGBA8 9 9 9 255) 0 in
  let kdtree := NewKDTree [seed] in
  let bounds := mkRect 0 0 3 2 in
  let visited := replicate 6 false in
  ∃ region visited',
    floodFill 0 0 (FindNearest kdtree 0 0) visited kdtree bounds
    = Done (region, visited')
    ∧ ColorIndex region = FindNearest kdtree 0 0
    ∧ NoDup (Pixels region)
    ∧ (∀ q, q ∈ Pixels region ↔ connected bounds (FindNearest kdtree) (0, 0) q)
    ∧ length visited' = length visited
    ∧ ∀ q, inside bounds q ->
        (seen bounds visited' q ↔ seen bounds visited q ∨ q ∈ Pixels region).
Proof.
  intros seed kdtree bounds visited.
  apply (floodFill_collects_cell kdtree bounds (0, 0) visited).
  - unfold image_ok. simpl. lia.
  - reflexivity.
  - reflexivity.
  - intros p q _ Hp. by apply seen_replicate in Hp.
  - apply seen_replicate.
Defined.

End FillResult.

(** ** voronoi.go: the rasterizer *)

Section ZRange.

Lemma zrange_nil lo hi : hi <= lo -> zrange lo hi = [].
Proof. intros Hle. unfold zrange. by replace (Z.to_nat (hi - lo)) with 0%nat by lia. Qed.

Lemma zrange_cons lo hi : lo < hi -> zrange lo hi = lo :: zrange (lo + 1) hi.
Proof.
  intros Hlt. unfold zrange.
  replace (Z.to_nat (hi - lo)) with (S (Z.to_nat (hi - (lo + 1)))) by lia.
  cbn [seq map]. f_equal; [lia |].
  rewrite <- seq_shift, map_map. apply map_ext. intros i. lia.
Qed.

Lemma zrange_app lo mid hi :
  lo <= mid <= hi -> zrange lo mid ++ zrange mid hi = zrange lo hi.
Proof.
  intros Hm. remember (Z.to_nat (mid - lo)) as n eqn:Hn.
  revert lo Hm Hn. induction n as [| n IH]; intros lo Hm Hn.
  - assert (lo = mid) as -> by lia. by rewrite (zrange_nil mid mid) by lia.
  - rewrite (zrange_cons lo mid), (zrange_cons lo hi) by lia.
    simpl. f_equal. apply IH; lia.
Qed.

Lemma zrange_lookup_lt lo hi j :
  (j < Z.to_nat (hi - lo))%nat -> zrange lo hi !! j = Some (lo + Z.of_nat j).
Proof.
  intros Hj. unfold zrange. change (map ?f ?l) with (f <$> l).
  rewrite list_lookup_fmap, lookup_seq_lt by exact Hj. reflexivity.
Qed.

End ZRange.

Section Rasterizer.
Import KD Raster.

Lemma rows_per_worker height :
  0 <= height < 2 ^ 62 ->
  let r := Z.quot (wrap64 (wrap64 (height + numWorkers) - 1)) numWorkers in
  0 <= r ∧ height <= 8 * r ∧ 8 * r <= height + 7.
Proof.
  intros Hh. unfold numWorkers. cbv zeta.
  rewrite (wrap64_small (height + 8)), (wrap64_small (height + 8 - 1)) by lia.
  rewrite Z.quot_div_nonneg by lia.
  pose proof (Z.div_mod (height + 8 - 1) 8 ltac:(lia)).
  pose proof (Z.mod_pos_bound (height + 8 - 1) 8 ltac:(lia)). lia.
Qed.

Lemma workerRows_range height w :
  0 <= height < 2 ^ 62 -> 0 <= w < 8 ->
  let r := Z.quot (wrap64 (wrap64 (height + numWorkers) - 1)) numWorkers in
  zrange (workerRows height w).1 (workerRows height w).2
  = zrange (Z.min (w * r) height) (Z.min ((w + 1) * r) height).
Proof.
  intros Hh Hw. cbv zeta.
  destruct (rows_per_worker height Hh) as (Hr0 & Hr1 & Hr2). cbv zeta in *.
  unfold workerRows. cbv zeta.
  set (r := Z.quot (wrap64 (wrap64 (height + numWorkers) - 1)) numWorkers) in *.
  cbn [fst snd].
  rewrite (wrap64_small (w + 1)) by lia.
  rewrite (wrap64_small (w * r)), (wrap64_small ((w + 1) * r)) by nia.
  destruct (Z.gtb_spec ((w + 1) * r) height) as [Hgt | Hle].
  - rewrite (Z.min_r ((w + 1) * r) height) by lia.
    destruct (Z.le_gt_cases (w * r) height) as [Hs | Hs].
    + by rewrite Z.min_l by lia.
    + rewrite Z.min_r by lia. by rewrite !zrange_nil by lia.
  - rewrite !Z.min_l by nia. reflexivity.
Qed.

Lemma rows_partition height :
  0 <= height < 2 ^ 62 ->
  concat (map (λ w, zrange (workerRows height w).1 (workerRows height w).2)
              (zrange 0 numWorkers))
  = zrange 0 height.
Proof.
  intros Hh.
  destruct (rows_per_worker height Hh) as (Hr0 & Hr1 & Hr2). cbv zeta in *.
  change (zrange 0 numWorkers) with [0; 1; 2; 3; 4; 5; 6; 7].
  cbn [map concat].
  rewrite !workerRows_range by lia. cbv zeta.
  set (r := Z.quot (wrap64 (wrap64 (height + numWorkers) - 1)) numWorkers) in *.
  rewrite app_nil_r.
  repeat (rewrite zrange_app by lia).
  f_equal; lia.
Qed.

(** X14: the eight goroutines of the rasterizer split the rows of the
    image among themselves without gap or overlap: the row ranges
    [startY, endY), taken in the order of the workers, list every row from 0
    to [height - 1] exactly once and in order. *)
Theorem worker_rows_partition (height : Z) :
  0 <= height < 2 ^ 62 ->
  concat (map (λ w, zrange (workerRows height w).1 (workerRows height w).2)
              (zrange 0 numWorkers))
  = zrange 0 height.
Proof. apply rows_partition. Qed.

Lemma worker_rows_partition_witness :
  concat (map (λ w, zrange (workerRows 11 w).1 (workerRows 11 w).2)
              (zrange 0 numWorkers))
  = zrange 0 11.
Proof. apply (worker_rows_partition 11). lia. Defined.

End Rasterizer.

Section RasterRun.
Import KD Raster.

Variable bounds : Rectangle.
Variable points : list Point.
Hypothesis Hok : image_ok bounds.
Hypothesis Hne : points ≠ [].
Hypothesis Hidx : Forall (λ p, 0 <= Index p < Z.of_nat (length points)) points.

Local Abbreviation kdtree := (NewKDTree points).

Lemma lookup_nearest x y :
  ∃ p, points !! Z.to_nat (FindNearest kdtree x y) = Some p
       ∧ load points (FindNearest kdtree x y) = Done p.
Proof.
  destruct (FindNearest_is_seed_index points x y Hne) as (s & Hin & Heq).
  rewrite Forall_forall in Hidx. specialize (Hidx s Hin).
  destruct (lookup_lt_is_Some_2 points (Z.to_nat (FindNearest kdtree x y))
              ltac:(rewrite Heq; lia)) as [p Hp].
  exists p. split; [exact Hp |]. apply load_lookup; [rewrite Heq; lia | exact Hp].
Qed.

Lemma run_spec schedule : ∀ queues img,
  raster_inv bounds points kdtree img queues ->
  ∃ img' queues',
    run bounds points kdtree schedule queues img = Done (img', queues')
    ∧ raster_inv bounds points kdtree img' queues'
    ∧ length queues' = length queues
    ∧ ∀ w queue, queues !! w = Some queue ->
        ∃ queue', queues' !! w = Some queue'
                  ∧ length queue'
                    = (length queue - count_occ Nat.eq_dec schedule w)%nat.
Proof.
  induction schedule as [| w schedule IH]; intros queues img Hinv.
  { exists img, queues. split; [reflexivity |]. split; [exact Hinv |].
    split; [reflexivity |]. intros w queue Hw. exists queue.
    split; [exact Hw | simpl; lia]. }
  cbn [run].
  destruct (queues !! w) as [[| job rest] |] eqn:Hq.
  - destruct (IH queues img Hinv) as (img' & queues' & Hrun & Hinv' & Hlen & Hcount).
    exists img', queues'. split; [exact Hrun |]. split; [exact Hinv' |].
    split; [exact Hlen |]. intros w' queue Hw'.
    destruct (Hcount w' queue Hw') as (queue' & Hq' & Hl).
    exists queue'. split; [exact Hq' |]. cbn [count_occ].
    destruct (Nat.eq_dec w w') as [-> | _]; [| exact Hl].
    rewrite Hq in Hw'. injection Hw' as <-. simpl in *. lia.
  - unfold paintPixel. cbv zeta.
    set (ax := wrap64 (job.1 + MinX bounds)).
    set (ay := wrap64 (job.2 + MinY bounds)).
    destruct (lookup_nearest ax ay) as (p & Hp & ->). cbn [obind].
    destruct Hinv as [Hb Hpix].
    destruct (IH (<[w := rest]> queues) (SetPixel img ax ay (PColor p)))
      as (img' & queues' & Hrun & Hinv' & Hlen & Hcount).
    { split; [by rewrite Bounds_SetPixel |].
      intros x y Hin.
      assert (Hpainted : (x, y) = (ax, ay) ->
                ∃ p0, points !! Z.to_nat (FindNearest kdtree x y) = Some p0
                      ∧ At (SetPixel img ax ay (PColor p)) x y = toRGBA8 (PColor p0)).
      { intros Heq. injection Heq as -> ->. exists p. split; [exact Hp |].
        apply At_SetPixel_eq. by rewrite Hb. }
      destruct (decide ((x, y) = (ax, ay))) as [Heq | Hneq]; [right; by apply Hpainted |].
      destruct (Hpix x y Hin) as [(w0 & queue & Hw0 & Hjob) | (p0 & Hp0 & Hat)].
      - left. destruct (decide (w0 = w)) as [-> | Hw].
        + rewrite Hq in Hw0. injection Hw0 as <-.
          apply elem_of_cons in Hjob as [Hjob | Hjob].
          * exfalso. apply Hneq. unfold ax, ay. rewrite <- Hjob. cbn [fst snd].
            destruct Hok as [(? & ? & ? & ?) (? & ? & ? & ?)].
            unfold inRect in Hin.
            apply andb_prop in Hin as [Hin Hy2]. apply andb_prop in Hin as [Hin Hy1].
            apply andb_prop in Hin as [Hx1 Hx2].
            f_equal; (rewrite wrap64_small; lia).
          * exists w, rest. split; [| exact Hjob].
            apply list_lookup_insert_eq. by apply lookup_lt_Some in Hq.
        + exists w0, queue. split; [| exact Hjob].
          by rewrite list_lookup_insert_ne.
      - right. exists p0. split; [exact Hp0 |].
        by rewrite At_SetPixel_ne. }
    exists img', queues'. split; [exact Hrun |]. split; [exact Hinv' |].
    split; [by rewrite Hlen, length_insert |].
    intros w' queue Hw'. cbn [count_occ].
    destruct (Nat.eq_dec w w') as [<- | Hw].
    + rewrite Hq in Hw'. injection Hw' as <-.
      destruct (Hcount w rest) as (queue' & Hq' & Hl).
      { apply list_lookup_insert_eq. by apply lookup_lt_Some in Hq. }
      exists queue'. split; [exact Hq' |]. simpl. lia.
    + apply Hcount. by rewrite list_lookup_insert_ne.
  - destruct (IH queues img Hinv) as (img' & queues' & Hrun & Hinv' & Hlen & Hcount).
    exists img', queues'. split; [exact Hrun |]. split; [exact Hinv' |].
    split; [exact Hlen |]. intros w' queue Hw'.
    destruct (Hcount w' queue Hw') as (queue' & Hq' & Hl).
    exists queue'. split; [exact Hq' |]. cbn [count_occ].
    destruct (Nat.eq_dec w w') as [-> | _]; [congruence | exact Hl].
Qed.

Lemma initial_queues :
  Dy bounds < 2 ^ 62 ->
  raster_inv bounds points kdtree (NewRGBA bounds)
    (map (λ w, workerJobs bounds (workerRows (Dy bounds) w)) (zrange 0 numWorkers)).
Proof.
  intros Hh. split; [reflexivity |]. intros x y Hin. left.
  destruct (Dx_exact bounds Hok) as [Hw Hwpos], (Dy_exact bounds Hok) as [Hh' Hhpos].
  apply (inside_iff bounds (x, y)) in Hin. cbn [fst snd] in Hin.
  assert (Hrow : y - MinY bounds ∈ zrange 0 (Dy bounds))
    by (apply elem_of_zrange; lia).
  rewrite <- (rows_partition (Dy bounds)) in Hrow by lia.
  apply list_elem_of_In, in_concat in Hrow as (rows & Hrows & Hrow).
  apply in_map_iff in Hrows as (w & <- & Hw8).
  apply list_elem_of_In, elem_of_zrange in Hw8.
  exists (Z.to_nat w), (workerJobs bounds (workerRows (Dy bounds) w)). split.
  - change (map ?f ?l) with (f <$> l). rewrite list_lookup_fmap.
    unfold numWorkers in *. rewrite zrange_lookup_lt by lia. simpl.
    do 3 f_equal. lia.
  - unfold workerJobs. apply list_elem_of_bind.
    exists (y - MinY bounds). split; [| by apply list_elem_of_In].
    apply list_elem_of_bind. exists (x - MinX bounds).
    split; [by apply list_elem_of_singleton |].
    apply elem_of_zrange. lia.
Qed.

Lemma raster_returns schedule :
  Dy bounds < 2 ^ 62 ->
  completes schedule bounds ->
  ∃ img,
    createVoronoiDiagramWithProgress schedule bounds points = Done (img, kdtree)
    ∧ Bounds img = bounds
    ∧ ∀ x y, inRect bounds x y = true ->
        ∃ p, points !! Z.to_nat (FindNearest kdtree x y) = Some p
             ∧ At img x y = toRGBA8 (PColor p).
Proof.
  intros Hh Hfair. unfold createVoronoiDiagramWithProgress. cbv zeta.
  destruct (run_spec schedule _ _ (initial_queues Hh))
    as (img & queues & -> & [Hb Hpix] & Hlen & Hcount).
  cbn [obind].
  assert (Hempty : ∀ w queue, queues !! w = Some queue -> queue = []).
  { intros w queue Hw.
    assert (Hw8 : (w < 8)%nat).
    { apply lookup_lt_Some in Hw. rewrite Hlen, length_map, zrange_length in Hw.
      unfold numWorkers in Hw. lia. }
    destruct (Hcount w (workerJobs bounds (workerRows (Dy bounds) (Z.of_nat w))))
      as (queue' & Hq' & Hl).
    { change (map ?f ?l) with (f <$> l). rewrite list_lookup_fmap.
      unfold numWorkers. rewrite zrange_lookup_lt by lia. reflexivity. }
    rewrite Hw in Hq'. injection Hq' as <-.
    specialize (Hfair w Hw8). apply length_zero_iff_nil. lia. }
  assert (Hall : forallb (λ queue : list (Z * Z),
                            match queue with [] => true | _ => false end) queues = true).
  { apply forallb_forall. intros queue Hin.
    apply list_elem_of_In, list_elem_of_lookup_1 in Hin as [w Hw].
    by rewrite (Hempty w queue Hw). }
  rewrite Hall. exists img. split; [reflexivity |]. split; [exact Hb |].
  intros x y Hin.
  destruct (Hpix x y Hin) as [(w & queue & Hw & Hjob) | Hdone]; [| exact Hdone].
  rewrite (Hempty w queue Hw) in Hjob. by apply elem_of_nil in Hjob.
Qed.

End RasterRun.

Section RasterResult.
Import KD Raster.

Lemma sequential_completes bounds : completes (sequential bounds) bounds.
Proof.
  intros w Hw. unfold sequential.
  set (n v := length (workerJobs bounds (workerRows (Dy bounds) (Z.of_nat v)))).
  assert (Hcount : ∀ l, w ∈ l ->
            (n w <= count_occ Nat.eq_dec (v ← l; replicate (n v) v) w)%nat).
  { induction l as [| v l IH]; intros Hin; [by apply elem_of_nil in Hin |].
    cbn [mbind list_bind]. rewrite count_occ_app.
    destruct (decide (v = w)) as [-> | Hvw].
    - assert (Hrep : ∀ k, count_occ Nat.eq_dec (replicate k w) w = k).
      { induction k as [| k IHk]; [reflexivity |]. simpl.
        destruct (Nat.eq_dec w w); [by rewrite IHk | done]. }
      rewrite Hrep. lia.
    - apply elem_of_cons in Hin as [-> | Hin]; [done |].
      specialize (IH Hin). lia. }
  apply Hcount. apply list_elem_of_In, in_seq. lia.
Qed.

(** X15: the image the rasterizer returns does not depend on how its
    goroutines interleave.  For a non-empty seed list whose indices lie in
    [0 .. N-1], under every schedule that lets each goroutine finish, the
    call returns (no lookup panics) the tree of the seeds and an image with
    the given bounds in which every pixel shows the colour of the seed
    [points[FindNearest(x, y)]]; the schedule that runs the goroutines one
    after the other is such a schedule. *)
Theorem rasterizer_any_schedule (bounds : Rectangle) (points : list Point)
    (schedule : list nat) :
  image_ok bounds -> Dy bounds < 2 ^ 62 ->
  points ≠ [] ->
  Forall (λ p, 0 <= Index p < Z.of_nat (length points)) points ->
  completes schedule bounds ->
  completes (sequential bounds) bounds
  ∧ ∃ img,
      createVoronoiDiagramWithProgress schedule bounds points
      = Done (img, NewKDTree points)
      ∧ Bounds img = bounds
      ∧ ∀ x y, inRect bounds x y = true ->
          ∃ p, points !! Z.to_nat (FindNearest (NewKDTree points) x y) = Some p
               ∧ At img x y = toRGBA8 (PColor p).
Proof.
  intros Hok Hh Hne Hidx Hfair.
  split; [apply sequential_completes |].
  by apply raster_returns.
Qed.

Lemma rasterizer_any_schedule_witness :
  let red := RGBA8 255 0 0 255 in
  let blue := RGBA8 0 0 255 255 in
  let bounds := mkRect 0 0 3 2 in
  let points := [mkPoint 0 0 red 0; mkPoint 2 1 blue 1] in
  let schedule := [1; 0; 0; 1; 0; 1; 7; 3]%nat in
  completes (sequential bounds) bounds
  ∧ ∃ img,
      createVoronoiDiagramWithProgress schedule bounds points
      = Done (img, NewKDTree points)
      ∧ Bounds img = bounds
      ∧ ∀ x y, inRect bounds x y = true ->
          ∃ p, points !! Z.to_nat (FindNearest (NewKDTree points) x y) = Some p
               ∧ At img x y = toRGBA8 (PColor p).
Proof.
  intros red blue bounds points schedule.
  apply (rasterizer_any_schedule bounds points schedule).
  - unfold image_ok. simpl. lia.
  - vm_compute. reflexivity.
  - discriminate.
  - repeat constructor; simpl; lia.
  - intros w Hw.
    destruct w as [| [| [| [| [| [| [| [| w]]]]]]]]; [.. | lia]; vm_compute; lia.
Defined.

Example rasterizer_two_schedules :
  let red := RGBA8 255 0 0 255 in
  let blue := RGBA8 0 0 255 255 in
  let bounds := mkRect 0 0 3 2 in
  let points := [mkPoint 0 0 red 0; mkPoint 2 1 blue 1] in
  createVoronoiDiagramWithProgress [1; 0; 0; 1; 0; 1]%nat bounds points
  = createVoronoiDiagramWithProgress (sequential bounds) bounds points.
Proof. vm_compute. reflexivity. Qed.

End RasterResult.

(** ** Rounding and the multiples of a power of two *)

Section FloatGrid.

Lemma log2_ge_53 v : 2 ^ 53 <= v -> 53 <= Z.log2 v.
Proof. intros Hv. apply Z.log2_le_pow2; lia. Qed.

(** Rounding never passes a multiple of the unit in the last place. *)
Lemma float64_le_multiple v y :
  0 <= v <= y -> (2 ^ 53 <= v -> (2 ^ (Z.log2 v - 52) | y)) -> float64 v <= y.
Proof.
  intros [Hv Hvy] Hdiv. unfold float64. rewrite Z.abs_eq by lia.
  destruct (Z.ltb_spec v (2 ^ 53)) as [Hsmall | Hbig]; [lia |].
  cbv zeta. pose proof (log2_ge_53 v Hbig) as Hlog.
  set (e := Z.log2 v - 52) in *.
  assert (He : 1 <= e) by (unfold e; lia).
  destruct (Hdiv Hbig) as [c Hc].
  assert (Hpow : 0 < 2 ^ e) by (apply Z.pow_pos_nonneg; lia).
  assert (Hhalf : 0 < 2 ^ (e - 1)) by (apply Z.pow_pos_nonneg; lia).
  pose proof (Z.div_mod v (2 ^ e) ltac:(lia)) as Hdm.
  pose proof (Z.mod_pos_bound v (2 ^ e) Hpow) as Hr.
  set (q := v / 2 ^ e) in *. set (r := v mod 2 ^ e) in *.
  rewrite Z.sgn_pos by lia. rewrite Z.mul_1_l.
  destruct ((2 ^ (e - 1) <? r) || (r =? 2 ^ (e - 1)) && Z.odd q) eqn:Hup.
  - assert (Hrpos : 0 < r).
    { apply orb_true_iff in Hup as [Hup | Hup].
      - apply Z.ltb_lt in Hup. lia.
      - apply andb_true_iff in Hup as [Hup _]. apply Z.eqb_eq in Hup. lia. }
    assert (Hcq : q + 1 <= c).
    { destruct (Z.le_gt_cases (q + 1) c) as [Hle | Hgt]; [exact Hle |].
      assert (c * 2 ^ e <= q * 2 ^ e) by (apply Z.mul_le_mono_nonneg_r; lia).
      lia. }
    rewrite Hc. apply Z.mul_le_mono_nonneg_r; lia.
  - lia.
Qed.

(** A float is a multiple of its unit in the last place. *)
Lemma float64_divisible v j :
  0 <= j <= Z.log2 (Z.abs (float64 v)) - 52 -> (2 ^ j | float64 v).
Proof.
  unfold float64.
  destruct (Z.ltb_spec (Z.abs v) (2 ^ 53)) as [Hsmall | Hbig].
  { intros Hj.
    assert (Z.log2 (Z.abs v) < 53).
    { destruct (Z.eq_dec (Z.abs v) 0) as [-> | Hnz]; [simpl; lia |].
      apply Z.log2_lt_pow2; lia. }
    assert (j = 0) as -> by lia. exists v. lia. }
  cbv zeta. pose proof (log2_ge_53 _ Hbig) as Hlog.
  set (m := Z.abs v) in *. set (e := Z.log2 m - 52) in *.
  assert (He : 1 <= e) by (unfold e; lia).
  assert (Hpow : 0 < 2 ^ e) by (apply Z.pow_pos_nonneg; lia).
  pose proof (Z.log2_spec m ltac:(lia)) as [Hlo Hhi].
  replace (Z.log2 m) with (52 + e) in Hlo by (unfold e; lia).
  replace (Z.succ (Z.log2 m)) with (53 + e) in Hhi by (unfold e; lia).
  rewrite Z.pow_add_r in Hlo, Hhi by lia.
  pose proof (Z.div_mod m (2 ^ e) ltac:(lia)) as Hdm.
  pose proof (Z.mod_pos_bound m (2 ^ e) Hpow) as Hr.
  set (q := m / 2 ^ e) in *. set (r := m mod 2 ^ e) in *.
  assert (Hq : 2 ^ 52 <= q < 2 ^ 53).
  { split.
    - destruct (Z.le_gt_cases (2 ^ 52) q) as [Hle | Hgt]; [exact Hle |].
      assert (2 ^ e * q <= 2 ^ e * (2 ^ 52 - 1))
        by (apply Z.mul_le_mono_nonneg_l; lia).
      lia.
    - destruct (Z.lt_ge_cases q (2 ^ 53)) as [Hlt | Hge]; [exact Hlt |].
      assert (2 ^ e * 2 ^ 53 <= 2 ^ e * q)
        by (apply Z.mul_le_mono_nonneg_l; lia).
      lia. }
  set (q' := if (2 ^ (e - 1) <? r) || (r =? 2 ^ (e - 1)) && Z.odd q
             then q + 1 else q).
  assert (Hq' : 2 ^ 52 <= q' <= 2 ^ 53) by (unfold q'; destruct (_ || _); lia).
  assert (Hsgn : Z.abs (Z.sgn v * (q' * 2 ^ e)) = q' * 2 ^ e).
  { assert (Hone : Z.abs (Z.sgn v) = 1).
    { unfold m in Hbig. destruct v; [simpl in Hbig; lia | reflexivity | reflexivity]. }
    rewrite Z.abs_mul, Hone, (Z.abs_eq (q' * 2 ^ e)) by nia. lia. }
  rewrite Hsgn.
  rewrite Z.log2_mul_pow2 by lia.
  intros Hj.
  destruct (Z.eq_dec q' (2 ^ 53)) as [Heq | Hneq].
  - rewrite Heq in Hj |- *. rewrite Z.log2_pow2 in Hj by lia.
    exists (Z.sgn v * 2 ^ (53 + e - j)).
    rewrite <- Z.mul_assoc, <- (Z.pow_add_r 2 (53 + e - j) j) by lia.
    replace (53 + e - j + j) with (53 + e) by lia.
    rewrite Z.pow_add_r by lia. reflexivity.
  - assert (Z.log2 q' = 52).
    { apply Z.log2_unique; [lia |]. simpl. lia. }
    exists (Z.sgn v * q' * 2 ^ (e - j)).
    rewrite <- !Z.mul_assoc, <- (Z.pow_add_r 2 (e - j) j) by lia.
    replace (e - j + j) with e by lia. reflexivity.
Qed.

(** The numerator of [rand.Float64() * total] stays at or below the
    numerator of [total]. *)
Lemma target_below_total m total v :
  0 <= m < 2 ^ 53 -> total = float64 v -> 0 <= total ->
  float64 (m * total) <= total * 2 ^ 53.
Proof.
  intros Hm Htotal Hpos.
  apply float64_le_multiple; [nia |].
  intros Hbig.
  assert (Htpos : 0 < total) by nia.
  assert (Hle : Z.log2 (m * total) <= 53 + Z.log2 total).
  { rewrite <- Z.log2_mul_pow2 by lia. apply Z.log2_le_mono. nia. }
  pose proof (log2_ge_53 _ Hbig) as Hlog.
  set (e := Z.log2 (m * total) - 52) in *.
  set (j := Z.max 0 (Z.log2 total - 52)).
  assert (Hj : (2 ^ j | total)).
  { destruct (Z.le_gt_cases 52 (Z.log2 total)) as [Hwide | Hnarrow].
    - rewrite Htotal. apply float64_divisible.
      rewrite <- Htotal, Z.abs_eq by lia. unfold j. lia.
    - replace j with 0 by (unfold j; lia). exists total. lia. }
  destruct Hj as [c Hc].
  exists (c * 2 ^ (53 + j - e)).
  rewrite <- Z.mul_assoc, <- Z.pow_add_r by (unfold e, j; lia).
  replace (53 + j - e + e) with (j + 53) by lia.
  rewrite Z.pow_add_r by (unfold j; lia). rewrite Hc at 1. lia.
Qed.

End FloatGrid.

(** ** wasm/paintbynumbers.go: the clustering always returns *)

Section Seeding.
Import Palette.

Lemma minDistTo_nonneg c centroids : 0 <= minDistTo c centroids.
Proof.
  unfold minDistTo. pose proof MaxFloat64_pos as Hmax.
  assert (Hgen : ∀ acc, 0 <= acc ->
            0 <= fold_left (λ minDist centroid,
                              let dist := colorDistanceSquared c centroid in
                              if dist <? minDist then dist else minDist)
                           centroids acc).
  { induction centroids as [| p rest IH]; intros acc Hacc; [exact Hacc |].
    simpl. apply IH. pose proof (colorDistanceSquared_nonneg c p).
    destruct (_ <? _); lia. }
  apply Hgen. lia.
Qed.

Lemma total_nonneg distances : ∀ acc,
  0 <= acc -> Forall (λ d, 0 <= d) distances -> 0 <= fold_left fadd distances acc.
Proof.
  induction distances as [| d rest IH]; intros acc Hacc Hall; [exact Hacc |].
  apply Forall_cons in Hall as [Hd Hall]. simpl.
  apply IH; [by apply fadd_nonneg | exact Hall].
Qed.

Lemma total_is_float distances : ∀ acc,
  distances ≠ [] -> ∃ v, fold_left fadd distances acc = float64 v.
Proof.
  induction distances as [| d rest IH]; intros acc Hne; [done |].
  simpl. destruct rest as [| d' rest'].
  - exists (acc + d). reflexivity.
  - by apply IH.
Qed.

Lemma pickWeighted_some target53 distances : ∀ i cumulative,
  distances ≠ [] ->
  target53 <= fold_left fadd distances cumulative * 2 ^ 53 ->
  ∃ j, pickWeighted target53 distances i cumulative = Some j
       ∧ (i <= j < i + length distances)%nat.
Proof.
  induction distances as [| d rest IH]; intros i cumulative Hne Hle; [done |].
  cbn [pickWeighted]. cbv zeta.
  destruct (Z.leb_spec target53 (fadd cumulative d * 2 ^ 53)) as [Hhit | Hmiss].
  - exists i. split; [reflexivity | simpl; lia].
  - destruct rest as [| d' rest'].
    + simpl in Hle. lia.
    + destruct (IH (S i) (fadd cumulative d) ltac:(done) Hle) as (j & Hj & Hrange).
      exists j. split; [exact Hj |]. simpl in *. lia.
Qed.

Variable colors : list Color.
Variable k : Z.
Variable rng : nat -> Z.
Hypothesis Hcolors : colors ≠ [].

Lemma seedCentroids_total fuel : ∀ centroids n,
  (Z.to_nat k - length centroids <= fuel)%nat ->
  ∃ result,
    seedCentroids fuel colors k centroids rng n = Done result
    ∧ Z.of_nat (length result) = Z.max k (Z.of_nat (length centroids))
    ∧ Forall (λ c, c ∈ centroids ∨ c ∈ colors) result.
Proof.
  induction fuel as [| fuel IH]; intros centroids n Hfuel.
  - cbn [seedCentroids].
    destruct (Z.ltb_spec (Z.of_nat (length centroids)) k) as [Hlt | Hge]; [lia |].
    exists centroids. split; [reflexivity |]. split; [lia |].
    apply Forall_forall. by left.
  - cbn [seedCentroids].
    destruct (Z.ltb_spec (Z.of_nat (length centroids)) k) as [Hlt | Hge].
    2: { exists centroids. split; [reflexivity |]. split; [lia |].
         apply Forall_forall. by left. }
    cbv zeta.
    set (distances := map (λ c, minDistTo c centroids) colors).
    set (totalDist := fold_left fadd distances 0).
    assert (Hdne : distances ≠ [])
      by (unfold distances; destruct colors; [done | discriminate]).
    assert (Hpos : 0 <= totalDist).
    { apply total_nonneg; [lia |]. unfold distances.
      apply Forall_forall. intros d Hd.
      apply list_elem_of_In, in_map_iff in Hd as (c & <- & _).
      apply minDistTo_nonneg. }
    destruct (total_is_float distances 0 Hdne) as [v Hv]. fold totalDist in Hv.
    assert (Hm : 0 <= Float64num rng n < 2 ^ 53).
    { unfold Float64num. apply Z.mod_pos_bound. lia. }
    pose proof (target_below_total _ _ _ Hm Hv Hpos) as Htarget.
    destruct (pickWeighted_some (float64 (Float64num rng n * totalDist))
                distances 0 0 Hdne Htarget) as (j & -> & Hj).
    assert (Hjlen : (j < length colors)%nat).
    { unfold distances in Hj. rewrite length_map in Hj. lia. }
    destruct (lookup_lt_is_Some_2 colors j Hjlen) as [c Hc].
    unfold index. rewrite Hc. cbn [obind].
    destruct (IH (centroids ++ [c]) (S n)) as (result & Hrun & Hlen & Hfrom).
    { rewrite length_app. simpl. lia. }
    exists result. split; [exact Hrun |]. split.
    + rewrite Hlen, length_app. simpl. lia.
    + eapply Forall_impl; [exact Hfrom |]. simpl.
      intros c' [Hc' | Hc']; [| by right].
      apply elem_of_app in Hc' as [Hc' | Hc']; [by left |].
      apply list_elem_of_singleton in Hc' as ->. right.
      by eapply list_elem_of_lookup_2.
Qed.

End Seeding.

Section NonEmptySample.
Import Palette.

Local Open Scope outcome_scope.

Lemma kMeans_nonempty fuel colors k rng :
  colors ≠ [] ->
  kMeansClustering fuel colors k rng
  = if Z.of_nat (length colors) <=? k then Done colors
    else
      let* first := index colors (Intn rng 0 (length colors)) in
      let* centroids := seedCentroids fuel colors k [first] rng 1 in
      iterate 15 colors k centroids.
Proof. intros Hne. by destruct colors. Qed.

End NonEmptySample.

Section Iterating.
Import Palette.

Variables P Q : Color -> Prop.
Variable colors : list Color.
Hypothesis Havg : ∀ cluster,
  cluster ≠ [] -> Forall P cluster -> (length cluster <= length colors)%nat ->
  ∃ c, averageColor cluster = Done c ∧ Q c.

Lemma concat_insert_length (clusters : list (list Color)) i cluster c :
  clusters !! i = Some cluster ->
  length (concat (<[i := cluster ++ [c]]> clusters)) = S (length (concat clusters)).
Proof.
  intros Hi. pose proof (lookup_lt_Some _ _ _ Hi) as Hlt.
  rewrite insert_take_drop by exact Hlt.
  rewrite <- (take_drop_middle clusters i cluster Hi) at 3.
  rewrite !concat_app. cbn [concat]. rewrite !length_app. simpl. lia.
Qed.

Lemma concat_member_length (clusters : list (list Color)) cluster :
  cluster ∈ clusters -> (length cluster <= length (concat clusters))%nat.
Proof.
  induction clusters as [| cl rest IH]; intros Hin; [by apply elem_of_nil in Hin |].
  simpl. rewrite length_app.
  apply elem_of_cons in Hin as [-> | Hin]; [lia |].
  specialize (IH Hin). lia.
Qed.

Lemma concat_replicate_nil n : concat (replicate n ([] : list Color)) = [].
Proof. induction n as [| n IH]; [reflexivity | exact IH]. Qed.

Lemma assignClusters_total centroids : ∀ todo clusters,
  centroids ≠ [] -> length clusters = length centroids ->
  Forall P todo -> Forall (Forall P) clusters ->
  ∃ clusters',
    assignClusters todo centroids clusters = Done clusters'
    ∧ length clusters' = length clusters
    ∧ Forall (Forall P) clusters'
    ∧ length (concat clusters') = (length (concat clusters) + length todo)%nat.
Proof.
  induction todo as [| c rest IH]; intros clusters Hne Hlen Htodo Hall.
  - exists clusters. simpl. repeat split; try done; lia.
  - apply Forall_cons in Htodo as [Hc Htodo].
    cbn [assignClusters]. cbv zeta.
    destruct (findNearestColor_in_range c centroids Hne) as [p Hp].
    pose proof (lookup_lt_Some _ _ _ Hp) as Hlt. rewrite <- Hlen in Hlt.
    destruct (lookup_lt_is_Some_2 clusters _ Hlt) as [cluster Hcl].
    unfold index. rewrite Hcl. cbn [obind].
    destruct (IH (<[findNearestColor c centroids := cluster ++ [c]]> clusters))
      as (clusters' & Hrun & Hlen' & Hall' & Hsize); try done.
    + by rewrite length_insert.
    + apply Forall_insert; [exact Hall |].
      apply Forall_app. split; [| by repeat constructor].
      rewrite Forall_forall in Hall. apply Hall.
      by eapply list_elem_of_lookup_2.
    + exists clusters'. split; [exact Hrun |].
      rewrite length_insert in Hlen'. split; [exact Hlen' |].
      split; [exact Hall' |].
      rewrite Hsize, (concat_insert_length _ _ _ _ Hcl). simpl. lia.
Qed.

Lemma updateCentroids_total : ∀ clusters i centroids changed,
  (i + length clusters <= length centroids)%nat ->
  Forall (Forall P) clusters ->
  Forall (λ cluster, (length cluster <= length colors)%nat) clusters ->
  Forall Q centroids ->
  ∃ centroids' changed',
    updateCentroids clusters i centroids changed = Done (centroids', changed')
    ∧ length centroids' = length centroids
    ∧ Forall Q centroids'.
Proof.
  induction clusters as [| cluster rest IH]; intros i centroids changed Hi HP Hsz HQ.
  - by exists centroids, changed.
  - apply Forall_cons in HP as [HPc HP]. apply Forall_cons in Hsz as [Hszc Hsz].
    cbn [updateCentroids]. simpl in Hi.
    destruct cluster as [| c0 cluster'].
    + apply IH; try done. lia.
    + destruct (Havg (c0 :: cluster') ltac:(done) HPc Hszc) as (avg & -> & Havgq).
      cbn [obind].
      destruct (lookup_lt_is_Some_2 centroids i ltac:(lia)) as [old Hold].
      unfold index. rewrite Hold. cbn [obind].
      destruct (negb (colorsEqual old avg)).
      * destruct (IH (S i) (<[i := avg]> centroids) true)
          as (centroids' & changed' & Hrun & Hlen & HQ'); try done.
        -- rewrite length_insert. lia.
        -- by apply Forall_insert.
        -- exists centroids', changed'. split; [exact Hrun |].
           rewrite length_insert in Hlen. by split.
      * apply IH; try done. lia.
Qed.

Lemma iterate_total k iters : ∀ centroids,
  0 <= k -> Z.of_nat (length centroids) = k -> centroids ≠ [] ->
  Forall P colors -> Forall Q centroids ->
  ∃ result,
    iterate iters colors k centroids = Done result
    ∧ length result = length centroids
    ∧ Forall Q result.
Proof.
  induction iters as [| iters IH]; intros centroids Hk Hlen Hne HP HQ.
  - by exists centroids.
  - cbn [iterate].
    destruct (Z.ltb_spec k 0) as [Hneg | _]; [lia |].
    destruct (assignClusters_total centroids colors (replicate (Z.to_nat k) []))
      as (clusters & -> & Hclen & Hcall & Hcsize); try done.
    + rewrite length_replicate. lia.
    + apply Forall_replicate. constructor.
    + cbn [obind].
      rewrite concat_replicate_nil in Hcsize. simpl in Hcsize.
      rewrite length_replicate in Hclen.
      destruct (updateCentroids_total clusters 0 centroids false)
        as (centroids' & changed' & -> & Hlen' & HQ'); try done.
      * lia.
      * apply Forall_forall. intros cluster Hin.
        rewrite <- Hcsize. by apply concat_member_length.
      * cbn [obind]. destruct (negb changed').
        -- by exists centroids'.
        -- destruct (IH centroids') as (result & Hrun & Hrlen & HrQ); try done.
           ++ lia.
           ++ intros ->. destruct centroids; [done | discriminate].
           ++ exists result. split; [exact Hrun |]. split; [congruence | exact HrQ].
Qed.

Hypothesis HPQ : ∀ c, P c -> Q c.

Lemma kMeans_total k rng fuel :
  colors ≠ [] -> 1 <= k -> (Z.to_nat k <= fuel)%nat -> Forall P colors ->
  ∃ palette,
    kMeansClustering fuel colors k rng = Done palette
    ∧ length palette = Nat.min (length colors) (Z.to_nat k)
    ∧ Forall Q palette.
Proof.
  intros Hne Hk Hfuel HP. rewrite kMeans_nonempty by exact Hne.
  destruct (Z.leb_spec (Z.of_nat (length colors)) k) as [Hle | Hgt].
  { exists colors. split; [reflexivity |]. split; [lia |].
    eapply Forall_impl; [exact HP | exact HPQ]. }
  assert (Hlen : (0 < length colors)%nat).
  { destruct (length colors) eqn:Hl; [| lia].
    by apply length_zero_iff_nil in Hl. }
  assert (Hfirst : (Intn rng 0 (length colors) < length colors)%nat).
  { unfold Intn.
    pose proof (Z.mod_pos_bound (rng 0%nat) (Z.of_nat (length colors)) ltac:(lia)).
    lia. }
  destruct (lookup_lt_is_Some_2 colors _ Hfirst) as [first Hf].
  unfold index. rewrite Hf. cbn [obind].
  destruct (seedCentroids_total colors k rng Hne fuel [first] 1)
    as (centroids & -> & Hclen & Hfrom); [simpl; lia |].
  cbn [obind]. simpl in Hclen.
  assert (HPc : Forall P centroids).
  { rewrite Forall_forall in HP. eapply Forall_impl; [exact Hfrom |]. simpl.
    intros c [Hc | Hc]; apply HP; [| exact Hc].
    apply list_elem_of_singleton in Hc as ->. by eapply list_elem_of_lookup_2. }
  destruct (iterate_total k 15 centroids) as (palette & Hrun & Hplen & HpQ); try lia.
  - intros ->. simpl in Hclen. lia.
  - exact HP.
  - eapply Forall_impl; [exact HPc | exact HPQ].
  - exists palette. split; [exact Hrun |]. split; [lia | exact HpQ].
Qed.

End Iterating.

Section Averages.
Import Palette ColorBox.

Lemma averageColor_nonempty cluster :
  cluster ≠ [] -> ∃ c, averageColor cluster = Done c.
Proof.
  intros Hne. unfold averageColor.
  destruct (Z.eqb_spec (Z.of_nat (length cluster)) 0) as [Hz | _].
  - destruct cluster; [done | simpl in Hz; lia].
  - eexists. reflexivity.
Qed.





End Averages.

Section PaletteResults.
Import Palette ColorBox.

Lemma kMeans_size (colors : list Color) (k : Z)
    (rng : nat -> Z) (fuel : nat) :
  1 <= k -> (Z.to_nat k <= fuel)%nat ->
  ∃ palette,
    kMeansClustering fuel colors k rng = Done palette
    ∧ length palette = paletteSize (length colors) k
    ∧ (colors = [] -> palette = [RGBA8 128 128 128 255])
    ∧ (colors ≠ [] ->
       Forall (λ c, c ∈ colors
                    ∨ ∃ cluster, cluster ≠ []
                                 ∧ Forall (λ s, s ∈ colors) cluster
                                 ∧ averageColor cluster = Done c) palette).
Proof.
  intros Hk Hfuel.
  destruct (decide (colors = [])) as [-> | Hne].
  { exists [RGBA8 128 128 128 255]. by repeat split. }
  destruct (kMeans_total (λ s, s ∈ colors)
              (λ c, c ∈ colors
                    ∨ ∃ cluster, cluster ≠ []
                                 ∧ Forall (λ s, s ∈ colors) cluster
                                 ∧ averageColor cluster = Done c)
              colors) with (k := k) (rng := rng) (fuel := fuel)
    as (palette & Hrun & Hlen & Hfrom); try done.
  - intros cluster Hcne Hall _.
    destruct (averageColor_nonempty cluster Hcne) as [c Hc].
    exists c. split; [exact Hc |]. right. by exists cluster.
  - intros c Hc. by left.
  - by apply Forall_forall.
  - exists palette. split; [exact Hrun |]. split; [| by split].
    rewrite Hlen. unfold paletteSize. destruct colors; [done | reflexivity].
Qed.






Example kMeans_two_of_four :
  kMeansClustering 2 [RGBA8 250 10 10 255; RGBA8 10 250 10 255;
                      RGBA8 10 10 250 255; RGBA8 240 20 20 255] 2
                   (λ n : nat, Z.of_nat n * 7919 + 3)
  = Done [RGBA8 10 130 130 255; RGBA8 245 15 15 255].
Proof. vm_compute. reflexivity. Qed.

End PaletteResults.

(** ** The conversion from end to end *)

Section PipelineParts.
Import KD Palette Sampler Border Labeler Raster Canvas Pipeline.

Lemma strideLoop_total fuel : ∀ v hi,
  - 2 ^ 63 <= v -> hi < 2 ^ 63 - 10 -> hi - v <= Z.of_nat fuel ->
  ∃ values, strideLoop fuel v hi = Done values.
Proof.
  induction fuel as [| fuel IH]; intros v hi Hv Hhi Hfuel.
  - cbn [strideLoop]. destruct (Z.ltb_spec v hi); [lia |]. by exists [].
  - cbn [strideLoop]. destruct (Z.ltb_spec v hi) as [Hlt | Hge]; [| by exists []].
    unfold sampleStep. rewrite wrap64_small by lia.
    destruct (IH (v + 10) hi) as [rest ->]; try lia.
    cbn [obind]. by eexists.
Qed.

Lemma sampleColors_total img :
  modest (ImgBounds img) -> ∃ colors, sampleColors img = Done colors.
Proof.
  intros [[? ?] [? ?]]. unfold sampleColors.
  destruct (strideLoop_total (Z.to_nat (MaxY (ImgBounds img) - MinY (ImgBounds img)))
              (MinY (ImgBounds img)) (MaxY (ImgBounds img))) as [ys ->]; try lia.
  destruct (strideLoop_total (Z.to_nat (MaxX (ImgBounds img) - MinX (ImgBounds img)))
              (MinX (ImgBounds img)) (MaxX (ImgBounds img))) as [xs ->]; try lia.
  cbn [obind]. by eexists.
Qed.

Lemma generatePalette_total fuel rng img numColors :
  modest (ImgBounds img) ->
  1 <= numColors -> (Z.to_nat numColors <= fuel)%nat ->
  ∃ palette,
    generatePalette fuel rng img numColors = Done palette
    ∧ (1 <= length palette <= Z.to_nat numColors)%nat.
Proof.
  intros Hmod Hk Hfuel. unfold generatePalette.
  destruct (sampleColors_total img Hmod) as [colors ->]. cbn [obind].
  destruct (kMeans_size colors numColors rng fuel Hk Hfuel)
    as (palette & Hrun & Hlen & _).
  exists palette. split; [exact Hrun |]. rewrite Hlen.
  unfold ColorBox.paletteSize. destruct (length colors); lia.
Qed.



End PipelineParts.

Section SamplerIndices.
Import Sampler.
Context {F : Type} {ops : FloatOps F}.
Variable rand : nat -> F.


End SamplerIndices.

Section PipelineResult.
Import KD Palette Sampler Border Labeler Raster Canvas Pipeline.
Context {F : Type} {ops : FloatOps F}.



Variable rand : nat -> F.
Variable rng : nat -> Z.
Variable fuel : nat.
Variable schedule : list nat.


End PipelineResult.

Section PipelineTheorem.
Import KD Palette Sampler Border Labeler Raster Canvas Pipeline.
Context {F : Type} {ops : FloatOps F}.


End PipelineTheorem.

Section PipelineCases.
Import KD Palette Sampler Border Labeler Raster Canvas Pipeline.


(** An image smaller than the sampling stride yields one sample, hence a
    palette of one colour, whatever [numColors] is. *)
Example conversion_of_a_small_image :
  let rng := λ n : nat, Z.of_nat n * 7919 + 3 in
  match convertToPaintByNumbersWithParamsAndColors demo_rand rng 2
          (sequential (ImgBounds demo_image)) demo_image 3 2 1 true with
  | Done (result, palette) =>
      palette = [RGBA8 255 0 0 255]
      ∧ map (λ '(x, y), At result x y) (pixels (mkRect 10 20 15 21))
        = [RGBA8 255 0 0 255; RGBA8 0 0 0 255; RGBA8 0 0 0 255;
           RGBA8 255 0 0 255; RGBA8 255 0 0 255]
  | _ => False
  end.
Proof. vm_compute. split; reflexivity. Qed.

End PipelineCases.

(** ** wasm/wasm_helpers.go: the grid mode *)

Section GridFill.
Import Labeler Grid.

Variable bounds : Rectangle.
Hypothesis Hok : image_ok bounds.
Variable colorIndices : list Z.
Hypothesis Hclen : Z.of_nat (length colorIndices) = Dx bounds * Dy bounds.



End GridFill.

Section GridNumbers.
Import Labeler Grid Canvas.



End GridNumbers.

Section GridResult.
Import Palette Labeler Pipeline Grid Canvas.





End GridResult.

(** ** The resizing step and the HTTP front end *)

Section Resizing.
Import Resize.

Variable resizeBilinear : Image -> Z -> Z -> Image.
Hypothesis Hsize : ∀ img w h,
  ImgBounds (resizeBilinear img w h) = Rect 0 0 w h.

Lemma downsample_fits (img : Image) (maxDimension : Z) :
  0 <= Dx (ImgBounds img) < 2 ^ 31 -> 0 <= Dy (ImgBounds img) < 2 ^ 31 ->
  1 <= maxDimension < 2 ^ 31 ->
  ∃ small,
    downsampleImage resizeBilinear img maxDimension = Done small
    ∧ 0 <= Dx (ImgBounds small) <= maxDimension
    ∧ 0 <= Dy (ImgBounds small) <= maxDimension
    ∧ (Dx (ImgBounds img) <= maxDimension -> Dy (ImgBounds img) <= maxDimension ->
       small = img)
    ∧ (maxDimension < Dx (ImgBounds img) ∨ maxDimension < Dy (ImgBounds img) ->
       Dx (ImgBounds small) = maxDimension ∨ Dy (ImgBounds small) = maxDimension).
Proof.
  intros Hw Hh Hmax. unfold downsampleImage. cbv zeta.
  set (w := Dx (ImgBounds img)) in *. set (h := Dy (ImgBounds img)) in *.
  destruct (Z.leb_spec w maxDimension) as [Hwle | Hwgt];
    [destruct (Z.leb_spec h maxDimension) as [Hhle | Hhgt] |]; cbn [andb].
  - exists img. fold w h. repeat split; try lia; done.
  - (* the height is too large *)
    destruct (Z.gtb_spec w h) as [Hgt | Hle]; [lia |].
    destruct (Z.eqb_spec h 0) as [? | _]; [lia |].
    eexists. split; [reflexivity |]. rewrite Hsize.
    rewrite (wrap64_small (w * maxDimension)) by nia.
    assert (Hq : 0 <= Z.quot (w * maxDimension) h <= maxDimension).
    { rewrite Z.quot_div_nonneg by nia. split.
      - apply Z.div_pos; nia.
      - apply Z.div_le_upper_bound; nia. }
    unfold Rect.
    destruct (Z.gtb_spec 0 (Z.quot (w * maxDimension) h)); [lia |].
    destruct (Z.gtb_spec 0 maxDimension); [lia |].
    unfold Dx, Dy. cbn [MinX MaxX MinY MaxY].
    rewrite !Z.sub_0_r, !wrap64_small by lia.
    repeat split; lia.
  - destruct (Z.gtb_spec w h) as [Hgt | Hle].
    + destruct (Z.eqb_spec w 0) as [? | _]; [lia |].
      eexists. split; [reflexivity |]. rewrite Hsize.
      rewrite (wrap64_small (h * maxDimension)) by nia.
      assert (Hq : 0 <= Z.quot (h * maxDimension) w <= maxDimension).
      { rewrite Z.quot_div_nonneg by nia. split.
        - apply Z.div_pos; nia.
        - apply Z.div_le_upper_bound; nia. }
      unfold Rect.
      destruct (Z.gtb_spec 0 maxDimension); [lia |].
      destruct (Z.gtb_spec 0 (Z.quot (h * maxDimension) w)); [lia |].
      unfold Dx, Dy. cbn [MinX MaxX MinY MaxY].
      rewrite !Z.sub_0_r, !wrap64_small by lia.
      repeat split; lia.
    + destruct (Z.eqb_spec h 0) as [? | _]; [lia |].
      eexists. split; [reflexivity |]. rewrite Hsize.
      rewrite (wrap64_small (w * maxDimension)) by nia.
      assert (Hq : 0 <= Z.quot (w * maxDimension) h <= maxDimension).
      { rewrite Z.quot_div_nonneg by nia. split.
        - apply Z.div_pos; nia.
        - apply Z.div_le_upper_bound; nia. }
      unfold Rect.
      destruct (Z.gtb_spec 0 (Z.quot (w * maxDimension) h)); [lia |].
      destruct (Z.gtb_spec 0 maxDimension); [lia |].
      unfold Dx, Dy. cbn [MinX MaxX MinY MaxY].
      rewrite !Z.sub_0_r, !wrap64_small by lia.
      repeat split; lia.
Qed.

End Resizing.

Section ResizingResult.
Import Resize.

(** X20: [downsampleImage] makes the image fit.  For an image whose sides
    are below 2^31 and a limit of at least 1, the call returns without
    dividing by zero; an image that fits already is handed back unchanged,
    and otherwise the resized image has its longer side equal to the limit
    and its other side at most the limit (it may be 0 for an extreme aspect
    ratio). *)
Theorem downsampleImage_fits (resizeBilinear : Image -> Z -> Z -> Image)
    (img : Image) (maxDimension : Z) :
  (∀ img w h, ImgBounds (resizeBilinear img w h) = Rect 0 0 w h) ->
  0 <= Dx (ImgBounds img) < 2 ^ 31 -> 0 <= Dy (ImgBounds img) < 2 ^ 31 ->
  1 <= maxDimension < 2 ^ 31 ->
  ∃ small,
    downsampleImage resizeBilinear img maxDimension = Done small
    ∧ 0 <= Dx (ImgBounds small) <= maxDimension
    ∧ 0 <= Dy (ImgBounds small) <= maxDimension
    ∧ (Dx (ImgBounds img) <= maxDimension -> Dy (ImgBounds img) <= maxDimension ->
       small = img)
    ∧ (maxDimension < Dx (ImgBounds img) ∨ maxDimension < Dy (ImgBounds img) ->
       Dx (ImgBounds small) = maxDimension ∨ Dy (ImgBounds small) = maxDimension).
Proof. intros Hsize. by apply downsample_fits. Qed.

Lemma downsampleImage_fits_witness :
  let resize := λ (img : Image) (w h : Z), mkImg (Rect 0 0 w h) (ImgAt img) in
  let img := mkImg (mkRect 0 0 5000 3000) (λ _ _, RGBA8 1 2 3 255) in
  ∃ small,
    downsampleImage resize img 2048 = Done small
    ∧ 0 <= Dx (ImgBounds small) <= 2048
    ∧ 0 <= Dy (ImgBounds small) <= 2048
    ∧ (Dx (ImgBounds img) <= 2048 -> Dy (ImgBounds img) <= 2048 -> small = img)
    ∧ (2048 < Dx (ImgBounds img) ∨ 2048 < Dy (ImgBounds img) ->
       Dx (ImgBounds small) = 2048 ∨ Dy (ImgBounds small) = 2048).
Proof.
  intros resize img.
  apply (downsampleImage_fits resize img 2048).
  - reflexivity.
  - vm_compute. split; [discriminate | reflexivity].
  - vm_compute. split; [discriminate | reflexivity].
  - lia.
Defined.

(** A strip of 5000 by 1 pixels is resized to 2048 by 0: an image without
    pixels. *)
Example downsampleImage_can_empty_the_image :
  let resize := λ (img : Image) (w h : Z), mkImg (Rect 0 0 w h) (ImgAt img) in
  let img := mkImg (mkRect 0 0 5000 1) (λ _ _, RGBA8 1 2 3 255) in
  match downsampleImage resize img 2048 with
  | Done small => ImgBounds small = mkRect 0 0 2048 0
  | _ => False
  end.
Proof. reflexivity. Qed.

End ResizingResult.

Section FrontEnd.
Import Resize Server.

Variable Atoi : string -> option Z.
Variable Decode : list Z -> option Image.
Variable downsample : Image -> Z -> outcome Image.

Lemma parseRequest_limits (r : Request) (img : Image) (numPoints numColors : Z) :
  parseRequest Atoi Decode downsample r = Done (inl (img, numPoints, numColors)) ->
  1 <= numPoints <= maxPoints
  ∧ 1 <= numColors <= maxColors
  ∧ (isEmpty (FormValue r "points"%string) = true -> numPoints = 2000)
  ∧ (isEmpty (FormValue r "colors"%string) = true -> numColors = 12)
  ∧ ∃ file decoded maxDim,
      formFile r = Some file ∧ Decode file = Some decoded
      ∧ 1 <= maxDim <= maxDimension
      ∧ downsample decoded maxDim = Done img.
Proof.
  unfold parseRequest.
  destruct (formParses r); cbn [negb]; [| discriminate].
  destruct (formFile r) as [file |]; [| discriminate].
  destruct (Decode file) as [decoded |] eqn:Hdecoded; [| discriminate].
  cbv zeta.
  set (maxDim := if isEmpty (FormValue r "maxDimension"%string) then 2048 else _).
  assert (HmaxDim : 1 <= maxDim <= maxDimension).
  { unfold maxDim, maxDimension.
    destruct (isEmpty (FormValue r "maxDimension"%string)); [lia |].
    destruct (Atoi (FormValue r "maxDimension"%string)) as [md |]; [| lia].
    destruct (Z.gtb_spec md 0), (Z.leb_spec md 4096); simpl; lia. }
  destruct (downsample decoded maxDim) as [small | |] eqn:Hsmall;
    cbn [obind]; [| discriminate | discriminate].
  intros Heq. injection Heq as <- <- <-.
  unfold maxPoints, maxColors.
  split; [| split; [| split; [| split]]].
  - destruct (isEmpty (FormValue r "points"%string)); [lia |].
    destruct (Atoi (FormValue r "points"%string)) as [p |]; [| lia].
    destruct (Z.gtb_spec p 0); [| lia].
    destruct (Z.gtb_spec p 50000); lia.
  - destruct (isEmpty (FormValue r "colors"%string)); [lia |].
    destruct (Atoi (FormValue r "colors"%string)) as [c |]; [| lia].
    destruct (Z.gtb_spec c 0); [| lia].
    destruct (Z.gtb_spec c 64); lia.
  - by intros ->.
  - by intros ->.
  - exists file, decoded, maxDim.
    split; [reflexivity |]. split; [exact Hdecoded |].
    split; [exact HmaxDim | exact Hsmall].
Qed.

End FrontEnd.

Section FrontEndResult.
Import Resize Server.

(** X21: the HTTP front end clamps its parameters.  Whatever the form
    holds and whatever [strconv.Atoi] makes of it, a request that
    [parseRequest] accepts yields a number of points between 1 and 50000 and
    a number of colours between 1 and 64 (2000 and 12 when the field is
    absent), and the image it returns was downsampled with a limit between
    1 and 4096. *)
Theorem parseRequest_clamps (Atoi : string -> option Z)
    (Decode : list Z -> option Image) (downsample : Image -> Z -> outcome Image)
    (r : Request) (img : Image) (numPoints numColors : Z) :
  parseRequest Atoi Decode downsample r = Done (inl (img, numPoints, numColors)) ->
  1 <= numPoints <= maxPoints
  ∧ 1 <= numColors <= maxColors
  ∧ (isEmpty (FormValue r "points"%string) = true -> numPoints = 2000)
  ∧ (isEmpty (FormValue r "colors"%string) = true -> numColors = 12)
  ∧ ∃ file decoded maxDim,
      formFile r = Some file ∧ Decode file = Some decoded
      ∧ 1 <= maxDim <= maxDimension
      ∧ downsample decoded maxDim = Done img.
Proof. apply parseRequest_limits. Qed.

Lemma parseRequest_clamps_witness :
  let Atoi := λ s : string,
    if String.eqb s "10"%string then Some 10
    else if String.eqb s "999"%string then Some 999 else None in
  let picture := mkImg (mkRect 0 0 4 4) (λ _ _, RGBA8 1 2 3 255) in
  let Decode := λ _ : list Z, Some picture in
  let downsample := λ (img : Image) (_ : Z), Done img in
  let r := mkRequest true (Some [137; 80; 78; 71])
             (λ field, if String.eqb field "points"%string then "10"%string
                       else if String.eqb field "colors"%string then "999"%string
                       else EmptyString) in
  1 <= 10 <= maxPoints
  ∧ 1 <= 64 <= maxColors
  ∧ (isEmpty (FormValue r "points"%string) = true -> 10 = 2000)
  ∧ (isEmpty (FormValue r "colors"%string) = true -> 64 = 12)
  ∧ ∃ file decoded maxDim,
      formFile r = Some file ∧ Decode file = Some decoded
      ∧ 1 <= maxDim <= maxDimension
      ∧ downsample decoded maxDim = Done picture.
Proof.
  intros Atoi picture Decode downsample r.
  apply (parseRequest_clamps Atoi Decode downsample r picture 10 64).
  reflexivity.
Defined.

End FrontEndResult.

(** ** An image without columns *)

Section NoColumns.
Import Sampler.
Context {F : Type} {ops : FloatOps F}.

Lemma foldM_skip {A St : Type} (f : St -> A -> outcome St) l s :
  (∀ s a, f s a = Done s) -> foldM f l s = Done s.
Proof.
  intros Hf. induction l as [| a l IH]; [reflexivity |].
  cbn [foldM]. by rewrite Hf.
Qed.

(** With a width of zero the first seed divides by zero. *)
Lemma sampler_panics_without_columns (rand : nat -> F) (img : Image) (N : Z) :
  Dx (ImgBounds img) = 0 -> 1 <= N ->
  generateAdaptiveVoronoiPoints rand img N = Panic.
Proof.
  intros Hw HN. unfold generateAdaptiveVoronoiPoints, computeEdgeMap.
  rewrite !Hw. cbv zeta.
  change (0 * Dy (ImgBounds img)) with 0.
  change (make zero 0) with (Done ([] : list F)). cbn [obind].
  change (zrange 1 (0 - 1)) with ([] : list Z).
  change (zrange 0 0) with ([] : list Z).
  rewrite foldM_skip by reflexivity. cbn [obind].
  rewrite foldM_skip by reflexivity. cbn [obind].
  rewrite make_spec by lia. cbn [obind].
  rewrite (zrange_cons 0 N) by lia. cbn [foldM].
  reflexivity.
Qed.

End NoColumns.

Section ThinImages.
Import Sampler Pipeline Resize.
Context {F : Type} {ops : FloatOps F}.

Variable resizeBilinear : Image -> Z -> Z -> Image.
Hypothesis Hsize : ∀ img w h,
  ImgBounds (resizeBilinear img w h) = Rect 0 0 w h.

Lemma thin_image_panics (rand : nat -> F) (rng : nat -> Z) (fuel : nat)
    (schedule : list nat) (img : Image)
    (maxDimension numPoints numColors lineWidth : Z) (showColors : bool) :
  0 < Dx (ImgBounds img) ->
  Dx (ImgBounds img) * maxDimension < Dy (ImgBounds img) < 2 ^ 31 ->
  1 <= maxDimension <= 2 ^ 30 ->
  1 <= numPoints -> 1 <= numColors -> (Z.to_nat numColors <= fuel)%nat ->
  (let* small := downsampleImage resizeBilinear img maxDimension in
   convertToPaintByNumbersWithParamsAndColors rand rng fuel schedule
     small numPoints numColors lineWidth showColors)%outcome
  = Panic.
Proof.
  intros Hw Hh Hmax HN HK Hfuel. unfold downsampleImage. cbv zeta.
  set (w := Dx (ImgBounds img)) in *. set (h := Dy (ImgBounds img)) in *.
  assert (Hhgt : maxDimension < h) by nia.
  destruct (Z.leb_spec w maxDimension), (Z.leb_spec h maxDimension);
    cbn [andb]; try lia.
  all: destruct (Z.gtb_spec w h); [nia |].
  all: destruct (Z.eqb_spec h 0); [lia |].
  all: cbn [obind].
  all: rewrite (wrap64_small (w * maxDimension)) by nia.
  all: assert (Hzero : Z.quot (w * maxDimension) h = 0)
         by (apply Z.quot_small; nia).
  all: rewrite Hzero.
  all: set (small := resizeBilinear img 0 maxDimension).
  all: assert (Hb : ImgBounds small = mkRect 0 0 0 maxDimension).
  all: try (unfold small; rewrite Hsize; unfold Rect;
            destruct (Z.gtb_spec 0 maxDimension); [lia | reflexivity]).
  all: unfold convertToPaintByNumbersWithParamsAndColors; cbv zeta.
  all: destruct (generatePalette_total fuel rng small numColors)
         as (palette & -> & _); try done;
       [rewrite Hb; unfold modest; simpl; lia |].
  all: cbn [obind].
  all: rewrite sampler_panics_without_columns; [reflexivity | | exact HN].
  all: by rewrite Hb.
Qed.

End ThinImages.

Section ThinImagesResult.
Import Sampler Pipeline Resize.
Context {F : Type} {ops : FloatOps F}.

(** X22: a tall, thin image crashes the conversion.  When the height of
    the image exceeds its width times the limit, [downsampleImage] computes
    a new width of 0, and [generateAdaptiveVoronoiPoints] then divides by
    that width: downsampling followed by the conversion panics, whatever the
    parameters (at least one seed and one colour) and the random draws. *)
Theorem tall_thin_image_panics (resizeBilinear : Image -> Z -> Z -> Image)
    (rand : nat -> F) (rng : nat -> Z) (fuel : nat) (schedule : list nat)
    (img : Image) (maxDimension numPoints numColors lineWidth : Z)
    (showColors : bool) :
  (∀ img w h, ImgBounds (resizeBilinear img w h) = Rect 0 0 w h) ->
  0 < Dx (ImgBounds img) ->
  Dx (ImgBounds img) * maxDimension < Dy (ImgBounds img) < 2 ^ 31 ->
  1 <= maxDimension <= 2 ^ 30 ->
  1 <= numPoints -> 1 <= numColors -> (Z.to_nat numColors <= fuel)%nat ->
  (let* small := downsampleImage resizeBilinear img maxDimension in
   convertToPaintByNumbersWithParamsAndColors rand rng fuel schedule
     small numPoints numColors lineWidth showColors)%outcome
  = Panic.
Proof. intros Hsize. by apply thin_image_panics. Qed.

End ThinImagesResult.

Section ThinImagesCases.
Import Sampler Pipeline Resize.

Lemma tall_thin_image_panics_witness :
  let resize := λ (img : Image) (w h : Z), mkImg (Rect 0 0 w h) (ImgAt img) in
  let img := mkImg (mkRect 0 0 1 5000) (λ _ _, RGBA8 1 2 3 255) in
  (let* small := downsampleImage resize img 2048 in
   convertToPaintByNumbersWithParamsAndColors demo_rand (λ n, Z.of_nat n) 12 []
     small 2000 12 1 true)%outcome
  = Panic.
Proof.
  intros resize img.
  apply (tall_thin_image_panics resize demo_rand (λ n, Z.of_nat n) 12 [] img
           2048 2000 12 1 true).
  - reflexivity.
  - vm_compute. reflexivity.
  - vm_compute. split; reflexivity.
  - lia.
  - lia.
  - lia.
  - simpl. lia.
Defined.

End ThinImagesCases.
